(** * PyTorch-Tutorial: the style-transfer notebook and the classifier notebook

    A shallow embedding of the Python code of the two notebooks
    ([neural_style_tutorial.ipynb] and the feature-extractor notebook) and
    the properties their description states about them.

    Tensors are contiguous row-major arrays with an explicit size list;
    their elements range over an abstract scalar type (an instance of
    [Scalar]), so every statement holds for whatever arithmetic the
    framework uses on its element type.  The rationals are the instance
    used to run the definitions on concrete inputs. *)

From Stdlib Require Import ZArith QArith String Ascii List Lia Bool.
From Stdlib Require Import Decimal DecimalString DecimalNat.
From stdpp Require Import base tactics option list.
Import ListNotations.

Local Open Scope string_scope.
Local Open Scope list_scope.
Local Open Scope nat_scope.

(** ** Python exceptions and results *)

Inductive exn : Type :=
| RuntimeError (msg : string)
| ValueError (msg : string)
| AttributeError (msg : string)
| TypeError (msg : string)
| InvalidReference            (* a reference to no object: not a Python state *)
| OutOfFuel.                  (* a loop of the model ran out of fuel *)

Inductive result (A : Type) : Type :=
| Ok (a : A)
| Raise (e : exn).
Arguments Ok {A} a.
Arguments Raise {A} e.

Definition rbind {A B} (m : result A) (k : A -> result B) : result B :=
  match m with
  | Ok a => k a
  | Raise e => Raise e
  end.

Declare Scope res_scope.
Delimit Scope res_scope with res.
Notation "'let*' x ':=' m 'in' k" := (rbind m (fun x => k))
  (at level 10, x name, m at level 100, k at level 200) : res_scope.
Notation "'let*' ' p ':=' m 'in' k" := (rbind m (fun x => match x with p => k end))
  (at level 10, p pattern, m at level 100, k at level 200) : res_scope.

(** ** Scalars: the element type of tensors *)

Class Scalar (A : Type) : Type := {
  s_zero : A;
  s_add : A -> A -> A;
  s_sub : A -> A -> A;
  s_mul : A -> A -> A;
  s_div : A -> A -> A;
  s_of_Z : Z -> A;             (* a Python int used where a float is expected *)
  s_relu : A -> A;             (* max(0, x) *)
  s_clamp01 : A -> A           (* clamp(x, 0, 1) *)
}.

#[export] Instance Q_Scalar : Scalar Q := {
  s_zero := 0%Q;
  s_add := Qplus;
  s_sub := Qminus;
  s_mul := Qmult;
  s_div := Qdiv;
  s_of_Z := inject_Z;
  s_relu := fun x => if Qle_bool 0 x then x else 0%Q;
  s_clamp01 := fun x => if Qle_bool x 0 then 0%Q else if Qle_bool 1 x then 1%Q else x
}.

(** ** Tensors *)

Section Tensors.
Context {A : Type} `{Scalar A}.

(** A tensor: its size (one entry per dimension) and its elements in
    row-major order. *)
Record tensor : Type := Tensor { t_size : list nat; t_data : list A }.

Definition numel (s : list nat) : nat := fold_right Nat.mul 1 s.

Definition wf_tensor (x : tensor) : Prop :=
  length (t_data x) = numel (t_size x).

Definition sum_list (l : list A) : A := fold_left s_add l s_zero.

(** [grid n p f] lays out [f i j] for [i < n], [j < p] in row-major order. *)
Definition grid (n p : nat) (f : nat -> nat -> A) : list A :=
  flat_map (fun i => map (f i) (seq 0 p)) (seq 0 n).

Definition at_ (l : list A) (i : nat) : A := nth i l s_zero.

(** [x.view(s)] on a contiguous tensor: same storage, new size; the number
    of elements has to agree. *)
Definition view (x : tensor) (s : list nat) : result tensor :=
  if numel s =? numel (t_size x)
  then Ok (Tensor s (t_data x))
  else Raise (RuntimeError "shape is invalid for input size").

(** [x.t()]: a tensor of at most one dimension is returned as it is, a
    matrix is transposed, anything else is refused. *)
Definition t (x : tensor) : result tensor :=
  match t_size x with
  | [] | [_] => Ok x
  | [n; m] => Ok (Tensor [m; n] (grid m n (fun j i => at_ (t_data x) (i * m + j))))
  | _ => Raise (RuntimeError "t() expects a tensor with <= 2 dimensions")
  end.

(** [torch.mm(x, y)]: matrix product of two matrices. *)
Definition mm (x y : tensor) : result tensor :=
  match t_size x, t_size y with
  | [n; m], [m'; p] =>
      if m =? m'
      then Ok (Tensor [n; p]
                 (grid n p (fun i j =>
                    sum_list (map (fun k => s_mul (at_ (t_data x) (i * m + k))
                                                  (at_ (t_data y) (k * p + j)))
                                  (seq 0 m)))))
      else Raise (RuntimeError "size mismatch")
  | _, _ => Raise (RuntimeError "matrices expected")
  end.

(** [x.div(n)] for a Python number [n]. *)
Definition div (x : tensor) (n : A) : tensor :=
  Tensor (t_size x) (map (fun v => s_div v n) (t_data x)).

(** [gram_matrix(input)]. *)
Definition gram_matrix (input : tensor) : result tensor :=
  match t_size input with
  | [a; b; c; d] =>
      (let* features := view input [a * b; c * d] in
       let* ft := t features in
       let* G := mm features ft in
       Ok (div G (s_of_Z (Z.of_nat (a * b * c * d)))))%res
  | _ => Raise (ValueError "wrong number of values to unpack")
  end.

(** Element access by index: [get2] in a matrix, [get4] in a
    4-dimensional tensor. *)
Definition get2 (x : tensor) (i j : nat) : A :=
  match t_size x with
  | [_; p] => at_ (t_data x) (i * p + j)
  | _ => s_zero
  end.

Definition get4 (x : tensor) (i j k l : nat) : A :=
  match t_size x with
  | [_; b; c; d] => at_ (t_data x) (((i * b + j) * c + k) * d + l)
  | _ => s_zero
  end.

(** *** Broadcasting

    Sizes are aligned at their last dimension; two dimensions are
    compatible when they are equal or one of them is 1. *)
Fixpoint broadcast_rev (s1 s2 : list nat) : option (list nat) :=
  match s1, s2 with
  | [], s => Some s
  | s, [] => Some s
  | a :: s1', b :: s2' =>
      if a =? b then cons a <$> broadcast_rev s1' s2'
      else if a =? 1 then cons b <$> broadcast_rev s1' s2'
      else if b =? 1 then cons a <$> broadcast_rev s1' s2'
      else None
  end.

Definition broadcast_shapes (s1 s2 : list nat) : option (list nat) :=
  @rev nat <$> broadcast_rev (rev s1) (rev s2).

(** All the multi-indices of a size, in row-major order. *)
Fixpoint indices (s : list nat) : list (list nat) :=
  match s with
  | [] => [[]]
  | n :: s' => flat_map (fun i => map (cons i) (indices s')) (seq 0 n)
  end.

(** The offset at which a tensor of (reversed) size [s_rev] holds the
    element that the (reversed) multi-index [idx_rev] of the broadcast
    result reads: a dimension of size 1 is read at index 0, and the
    dimensions the tensor lacks are ignored. *)
Fixpoint offset_rev (s_rev idx_rev : list nat) (stride : nat) : nat :=
  match s_rev, idx_rev with
  | n :: s', i :: idx' =>
      (if n =? 1 then 0 else i) * stride + offset_rev s' idx' (stride * n)
  | _, _ => 0
  end.

Definition bget (x : tensor) (idx : list nat) : A :=
  at_ (t_data x) (offset_rev (rev (t_size x)) (rev idx) 1).

Definition broadcast_binop (f : A -> A -> A) (x y : tensor) : result tensor :=
  match broadcast_shapes (t_size x) (t_size y) with
  | Some s => Ok (Tensor s (map (fun idx => f (bget x idx) (bget y idx)) (indices s)))
  | None => Raise (RuntimeError "The size of tensor a must match the size of tensor b")
  end.

(** [torch.mean(x)]: a tensor of no dimension. *)
Definition mean (x : tensor) : tensor :=
  Tensor [] [s_div (sum_list (t_data x)) (s_of_Z (Z.of_nat (numel (t_size x))))].

(** [F.mse_loss(input, target)], with the default reduction: the mean of
    the squared differences. *)
Definition sq_diff (a b : A) : A := s_mul (s_sub a b) (s_sub a b).

Definition mse_loss (input target : tensor) : result tensor :=
  (let* d := broadcast_binop sq_diff input target in Ok (mean d))%res.

(** A tensor of no dimension: a scalar. *)
Definition is_scalar (l : tensor) : Prop :=
  t_size l = [] /\ length (t_data l) = 1.

(** [F.relu(x)] and [x.clamp_(0, 1)]. *)
Definition relu (x : tensor) : tensor :=
  Tensor (t_size x) (map s_relu (t_data x)).

Definition clamp01 (x : tensor) : tensor :=
  Tensor (t_size x) (map s_clamp01 (t_data x)).

(** [torch.tensor(mean).view(-1, 1, 1)]. *)
Definition view_m1_1_1 (x : tensor) : tensor :=
  Tensor [numel (t_size x); 1; 1] (t_data x).

(** [torch.zeros_like(x)], what [zero_] leaves in a gradient. *)
Definition zeros_like (x : tensor) : tensor :=
  Tensor (t_size x) (map (fun _ => s_zero) (t_data x)).

(** [Normalization.forward]: [(img - self.mean) / self.std]. *)
Definition Normalization_forward (mean std img : tensor) : result tensor :=
  (let* d := broadcast_binop s_sub img mean in broadcast_binop s_div d std)%res.

(** The Gram matrix as the description states it: with [F] the input
    reshaped to a matrix of [a * b] rows (one per feature map) and [c * d]
    columns (one per position), the product of [F] and its transpose,
    every element divided by [a * b * c * d]. *)
Definition flattened (input : tensor) (i k : nat) : A :=
  match t_size input with
  | [_; b; _; d] => get4 input (i / b) (i mod b) (k / d) (k mod d)
  | _ => s_zero
  end.

Definition gram_spec (input : tensor) (i j : nat) : A :=
  match t_size input with
  | [a; b; c; d] =>
      s_div (sum_list (map (fun k => s_mul (flattened input i k) (flattened input j k))
                           (seq 0 (c * d))))
            (s_of_Z (Z.of_nat (a * b * c * d)))
  | _ => s_zero
  end.

End Tensors.
Arguments tensor A : clear implicits.

(** ** The object store

    Python objects that the notebook shares and updates in place live in a
    store; a reference is a position in it.  An [nn.Sequential] is the
    ordered dictionary of its children: names with references, in
    insertion order. *)

(** The class of a module as the [isinstance] chain of
    [get_style_model_and_losses] sees it: the first test that succeeds,
    or the name of the class when none does. *)
Inductive module_class : Type :=
| Conv2d
| ReLU
| MaxPool2d
| BatchNorm2d
| OtherClass (name : string).

Abbreviation loc := nat.

Section Objects.
Context {A P : Type}.

(** [P] is what a layer of the framework owns: weights, buffers and the
    gradients accumulated in them. *)
Inductive obj : Type :=
| OLayer (cls : module_class) (inplace : bool) (p : P)
| ONormalization (mean std : tensor A)
| OContentLoss (target : tensor A) (loss : option (tensor A))
| OStyleLoss (target : tensor A) (loss : option (tensor A))
| OTensor (data : tensor A) (requires_grad : bool) (grad : option (tensor A)).

(** A Python number or tensor, as the scores of the closure are. *)
Inductive pyval : Type :=
| PInt (z : Z)
| PTensor (x : tensor A).

End Objects.
Arguments obj A P : clear implicits.
Arguments pyval A : clear implicits.

(** What the framework provides and the notebook only calls: the forward
    pass of its own layers, automatic differentiation and the L-BFGS
    update rule. *)
Class Framework (A P : Type) : Type := {
  no_params : P;
  (* the forward pass of a Conv2d, MaxPool2d, BatchNorm2d or other module;
     it may update the buffers of the layer *)
  forward_prim : module_class -> P -> tensor A -> result (tensor A * P);
  (* backward: the gradient accumulated into the input image, from the
     modules of the model, the image and its gradient so far *)
  autograd_input : list (obj A P) -> tensor A -> option (tensor A) -> tensor A;
  (* backward: the gradients accumulated into the parameters of a layer *)
  autograd_params : list (obj A P) -> tensor A -> module_class -> P -> P;
  lbfgs_state : Type;
  lbfgs_init : lbfgs_state;
  (* one iteration of L-BFGS: from the loss and the parameters with their
     gradients to the new parameters, and whether to evaluate again *)
  lbfgs_update : lbfgs_state -> pyval A -> list (tensor A * option (tensor A)) ->
                 lbfgs_state * list (tensor A) * bool
}.

Abbreviation Sequential := (list (string * loc)).

(** [module.add_module(name, m)] is [self._modules[name] = m] on an
    ordered dictionary: a new name goes to the end, a name that is present
    keeps its place and gets the new module. *)
Fixpoint add_module {V : Type} (name : string) (m : V) (ms : list (string * V))
    : list (string * V) :=
  match ms with
  | [] => [(name, m)]
  | (k, v) :: rest =>
      if String.eqb k name then (k, m) :: rest
      else (k, v) :: add_module name m rest
  end.

(** ['{}'.format(i)]. *)
Definition fmt (i : nat) : string := NilEmpty.string_of_uint (Nat.to_uint i).

(** [name in layers]. *)
Definition py_in (name : string) (layers : list string) : bool :=
  existsb (String.eqb name) layers.

Definition content_layers_default : list string := ["conv_4"].
Definition style_layers_default : list string :=
  ["conv_1"; "conv_2"; "conv_3"; "conv_4"; "conv_5"].

(** The branch of the [isinstance] chain: the counter after the layer and
    the name of the layer, or the error of the last branch. *)
Definition layer_name (c : module_class) (i : nat) : result (nat * string) :=
  match c with
  | Conv2d => Ok (S i, ("conv_" ++ fmt (S i))%string)
  | ReLU => Ok (i, ("relu_" ++ fmt i)%string)
  | MaxPool2d => Ok (i, ("pool_" ++ fmt i)%string)
  | BatchNorm2d => Ok (i, ("bn_" ++ fmt i)%string)
  | OtherClass n => Raise (RuntimeError ("Unrecognized layer: " ++ n)%string)
  end.

(** [cnn.children()]: the children in order, a module that occurs twice
    only at its first place. *)
Fixpoint children_from (seen : list loc) (ms : Sequential) : list loc :=
  match ms with
  | [] => []
  | (_, l) :: rest =>
      if existsb (Nat.eqb l) seen then children_from seen rest
      else l :: children_from (l :: seen) rest
  end.

Definition children (ms : Sequential) : list loc := children_from [] ms.

(** The store: the objects, each at its reference. *)
Abbreviation heap A P := (list (obj A P)).

Section Store.
Context {A P : Type}.

(** Computations on the store that may raise. *)
Definition M (X : Type) : Type := heap A P -> result (X * heap A P).

Definition ret {X} (x : X) : M X := fun h => Ok (x, h).

Definition bind {X Y} (m : M X) (k : X -> M Y) : M Y :=
  fun h => match m h with
           | Ok (x, h') => k x h'
           | Raise e => Raise e
           end.

Definition raise {X} (e : exn) : M X := fun _ => Raise e.

Definition lift {X} (r : result X) : M X :=
  fun h => match r with
           | Ok x => Ok (x, h)
           | Raise e => Raise e
           end.

Definition alloc (o : obj A P) : M loc := fun h => Ok (length h, h ++ [o]).

Definition read (l : loc) : M (obj A P) :=
  fun h => match h !! l with
           | Some o => Ok (o, h)
           | None => Raise InvalidReference
           end.

Definition write (l : loc) (o : obj A P) : M unit :=
  fun h => if l <? length h then Ok (tt, <[l := o]> h) else Raise InvalidReference.

End Store.
Arguments M A P X : clear implicits.

Declare Scope M_scope.
Delimit Scope M_scope with M.
Notation "'let*' x ':=' m 'in' k" := (bind m (fun x => k))
  (at level 10, x name, m at level 100, k at level 200) : M_scope.
Notation "'let*' ' p ':=' m 'in' k" := (bind m (fun x => match x with p => k end))
  (at level 10, p pattern, m at level 100, k at level 200) : M_scope.
Notation "m1 ;; m2" := (bind m1 (fun _ => m2))
  (at level 100, m2 at level 200, right associativity) : M_scope.

(** ** The style-transfer notebook *)

Section StyleTransfer.
Context {A P : Type} `{Scalar A} `{Framework A P}.
Local Open Scope M_scope.
Local Abbreviation M := (M A P).

Definition class_of (o : obj A P) : module_class :=
  match o with
  | OLayer c _ _ => c
  | ONormalization _ _ => OtherClass "Normalization"
  | OContentLoss _ _ => OtherClass "ContentLoss"
  | OStyleLoss _ _ => OtherClass "StyleLoss"
  | OTensor _ _ _ => OtherClass "Tensor"
  end.

(** [isinstance(m, ContentLoss) or isinstance(m, StyleLoss)]. *)
Definition is_loss (o : obj A P) : bool :=
  match o with
  | OContentLoss _ _ | OStyleLoss _ _ => true
  | _ => false
  end.

(** The value of a tensor object. *)
Definition read_tensor (l : loc) : M (tensor A) :=
  let* o := read l in
  match o with
  | OTensor x _ _ => ret x
  | _ => raise (TypeError "a tensor is expected")
  end.

(** [ContentLoss.__init__]: [self.target = target.detach()]. *)
Definition ContentLoss_init (target : tensor A) : M loc :=
  alloc (OContentLoss target None).

(** [ContentLoss.forward]. *)
Definition ContentLoss_forward (self : loc) (input : tensor A) : M (tensor A) :=
  let* o := read self in
  match o with
  | OContentLoss target _ =>
      let* loss := lift (mse_loss input target) in
      write self (OContentLoss target (Some loss)) ;;
      ret input
  | _ => raise (TypeError "a ContentLoss is expected")
  end.

(** [StyleLoss.__init__]: [self.target = gram_matrix(target_feature).detach()]. *)
Definition StyleLoss_init (target_feature : tensor A) : M loc :=
  let* G := lift (gram_matrix target_feature) in
  alloc (OStyleLoss G None).

(** [StyleLoss.forward]. *)
Definition StyleLoss_forward (self : loc) (input : tensor A) : M (tensor A) :=
  let* o := read self in
  match o with
  | OStyleLoss target _ =>
      let* G := lift (gram_matrix input) in
      let* loss := lift (mse_loss G target) in
      write self (OStyleLoss target (Some loss)) ;;
      ret input
  | _ => raise (TypeError "a StyleLoss is expected")
  end.

(** [Normalization.__init__]. *)
Definition Normalization_init (mean std : loc) : M loc :=
  let* m := read_tensor mean in
  let* s := read_tensor std in
  alloc (ONormalization (view_m1_1_1 m) (view_m1_1_1 s)).

(** [module(x)]: the forward pass of the module at [l]. *)
Definition call_module (l : loc) (x : tensor A) : M (tensor A) :=
  let* o := read l in
  match o with
  | OLayer ReLU _ _ => ret (relu x)
  | OLayer c inplace p =>
      let* '(y, p') := lift (forward_prim c p x) in
      write l (OLayer c inplace p') ;;
      ret y
  | ONormalization mean std => lift (Normalization_forward mean std x)
  | OContentLoss _ _ => ContentLoss_forward l x
  | OStyleLoss _ _ => StyleLoss_forward l x
  | OTensor _ _ _ => raise (TypeError "'Tensor' object is not callable")
  end.

(** What a forward pass computes from the module and its input: the
    output and the module after the call. *)
Definition module_step (o : obj A P) (x : tensor A) : result (tensor A * obj A P) :=
  match o with
  | OLayer ReLU _ _ => Ok (relu x, o)
  | OLayer c inplace p =>
      (let* '(y, p') := forward_prim c p x in Ok (y, OLayer c inplace p'))%res
  | ONormalization mean std =>
      (let* y := Normalization_forward mean std x in Ok (y, o))%res
  | OContentLoss target _ =>
      (let* loss := mse_loss x target in Ok (x, OContentLoss target (Some loss)))%res
  | OStyleLoss target _ =>
      (let* G := gram_matrix x in
       let* loss := mse_loss G target in
       Ok (x, OStyleLoss target (Some loss)))%res
  | OTensor _ _ _ => Raise (TypeError "'Tensor' object is not callable")
  end.

(** [nn.Sequential.forward]: the children in order. *)
Fixpoint Sequential_forward (model : Sequential) (x : tensor A) : M (tensor A) :=
  match model with
  | [] => ret x
  | (_, l) :: rest =>
      let* y := call_module l x in
      Sequential_forward rest y
  end.

(** [model(img)] for an image of the store. *)
Definition call_on (model : Sequential) (img : loc) : M (tensor A) :=
  let* x := read_tensor img in
  Sequential_forward model x.

(** [copy.deepcopy(cnn)]: every module is copied once, also when the
    network holds it under two names. *)
Fixpoint deepcopy_from (memo : list (loc * loc)) (ms : Sequential) : M Sequential :=
  match ms with
  | [] => ret []
  | (n, l) :: rest =>
      match list_find (fun e => Nat.eqb (fst e) l) memo with
      | Some (_, (_, l')) =>
          let* rest' := deepcopy_from memo rest in
          ret ((n, l') :: rest')
      | None =>
          let* o := read l in
          let* l' := alloc o in
          let* rest' := deepcopy_from ((l, l') :: memo) rest in
          ret ((n, l') :: rest')
      end
  end.

Definition deepcopy (cnn : Sequential) : M Sequential := deepcopy_from [] cnn.

(** The local variables of the loop of [get_style_model_and_losses]. *)
Record scan_state : Type := ScanState {
  st_model : Sequential;
  st_i : nat;
  st_content_losses : list loc;
  st_style_losses : list loc
}.

(** One iteration of [for layer in cnn.children()]. *)
Definition scan_layer (content_img style_img : loc)
    (content_layers style_layers : list string)
    (st : scan_state) (layer : loc) : M scan_state :=
  let* o := read layer in
  let* '(i, name) := lift (layer_name (class_of o) (st_i st)) in
  let* layer := (match class_of o with
                 | ReLU => alloc (OLayer ReLU false no_params)
                 | _ => ret layer
                 end) in
  let model := add_module name layer (st_model st) in
  let* '(model, content_losses) :=
    (if py_in name content_layers then
       let* target := call_on model content_img in
       let* content_loss := ContentLoss_init target in
       ret (add_module ("content_loss_" ++ fmt i)%string content_loss model,
            st_content_losses st ++ [content_loss])
     else ret (model, st_content_losses st)) in
  let* '(model, style_losses) :=
    (if py_in name style_layers then
       let* target_feature := call_on model style_img in
       let* style_loss := StyleLoss_init target_feature in
       ret (add_module ("style_loss_" ++ fmt i)%string style_loss model,
            st_style_losses st ++ [style_loss])
     else ret (model, st_style_losses st)) in
  ret (ScanState model i content_losses style_losses).

Fixpoint scan_layers (content_img style_img : loc)
    (content_layers style_layers : list string)
    (layers : list loc) (st : scan_state) : M scan_state :=
  match layers with
  | [] => ret st
  | layer :: rest =>
      let* st' := scan_layer content_img style_img content_layers style_layers st layer in
      scan_layers content_img style_img content_layers style_layers rest st'
  end.

(** [for i in range(len(model) - 1, -1, -1): if ... : break]: the value of
    [i] after the loop, [i] before it being the counter of the scan. *)
Fixpoint trim_loop (h : heap A P) (model : Sequential) (range : list nat) (i : nat) : nat :=
  match range with
  | [] => i
  | j :: rest =>
      match model !! j with
      | Some (_, l) =>
          match h !! l with
          | Some o => if is_loss o then j else trim_loop h model rest j
          | None => trim_loop h model rest j
          end
      | None => trim_loop h model rest j
      end
  end.

(** [range(len(model) - 1, -1, -1)]. *)
Definition range_down (n : nat) : list nat := rev (seq 0 n).

Definition trim (model : Sequential) (i : nat) : M Sequential :=
  fun h => Ok (take (S (trim_loop h model (range_down (length model)) i)) model, h).

Definition get_style_model_and_losses (cnn : Sequential)
    (normalization_mean normalization_std style_img content_img : loc)
    (content_layers style_layers : list string)
    : M (Sequential * list loc * list loc) :=
  let* cnn := deepcopy cnn in
  let* normalization := Normalization_init normalization_mean normalization_std in
  let model := [("0", normalization)] in
  let* st := scan_layers content_img style_img content_layers style_layers
               (children cnn) (ScanState model 0 [] []) in
  let* model := trim (st_model st) (st_i st) in
  ret (model, st_style_losses st, st_content_losses st).

(** *** The optimizer and the closure *)

(** [optim.LBFGS(params)]: the parameters it was given and its state. *)
Record optimizer : Type := Optimizer {
  opt_params : list loc;
  opt_state : lbfgs_state
}.

(** [x.requires_grad_()]. *)
Definition requires_grad_ (x : loc) : M unit :=
  let* o := read x in
  match o with
  | OTensor d _ g => write x (OTensor d true g)
  | _ => raise (TypeError "a tensor is expected")
  end.

Definition get_input_optimizer (input_img : loc) : M optimizer :=
  requires_grad_ input_img ;;
  ret (Optimizer [input_img] lbfgs_init).

(** [x.data.clamp_(0, 1)]. *)
Definition clamp_ (x : loc) : M unit :=
  let* o := read x in
  match o with
  | OTensor d rg g => write x (OTensor (clamp01 d) rg g)
  | _ => raise (TypeError "a tensor is expected")
  end.

(** [optimizer.zero_grad()]: the gradient of every parameter that has one
    is set to zero. *)
Fixpoint zero_grad_params (ps : list loc) : M unit :=
  match ps with
  | [] => ret tt
  | p :: rest =>
      let* o := read p in
      match o with
      | OTensor d rg (Some g) => write p (OTensor d rg (Some (zeros_like g)))
      | OTensor _ _ None => ret tt
      | _ => raise (TypeError "a tensor is expected")
      end ;;
      zero_grad_params rest
  end.

Definition zero_grad (o : optimizer) : M unit := zero_grad_params (opt_params o).

(** Arithmetic on the scores: [x + y] and [x *= w] for a Python int [w]. *)
Definition tensor_add_int (x : tensor A) (z : Z) : tensor A :=
  Tensor (t_size x) (map (fun v => s_add v (s_of_Z z)) (t_data x)).

Definition tensor_mul_int (x : tensor A) (z : Z) : tensor A :=
  Tensor (t_size x) (map (fun v => s_mul v (s_of_Z z)) (t_data x)).

Definition py_add (a b : pyval A) : result (pyval A) :=
  match a, b with
  | PInt x, PInt y => Ok (PInt (x + y))
  | PInt z, PTensor x => Ok (PTensor (tensor_add_int x z))
  | PTensor x, PInt z => Ok (PTensor (tensor_add_int x z))
  | PTensor x, PTensor y =>
      (let* r := broadcast_binop s_add x y in Ok (PTensor r))%res
  end.

Definition py_mul_int (a : pyval A) (w : Z) : pyval A :=
  match a with
  | PInt x => PInt (x * w)
  | PTensor x => PTensor (tensor_mul_int x w)
  end.

(** [m.loss] for a loss module [m]. *)
Definition get_loss (m : loc) : M (tensor A) :=
  let* o := read m in
  match o with
  | OContentLoss _ (Some l) | OStyleLoss _ (Some l) => ret l
  | _ => raise (AttributeError "object has no attribute 'loss'")
  end.

(** [for sl in losses: score += sl.loss]. *)
Fixpoint sum_losses (losses : list loc) (score : pyval A) : M (pyval A) :=
  match losses with
  | [] => ret score
  | sl :: rest =>
      let* l := get_loss sl in
      let* score' := lift (py_add score (PTensor l)) in
      sum_losses rest score'
  end.

(** [x.item()]. *)
Definition item (x : pyval A) : M unit :=
  match x with
  | PInt _ => raise (AttributeError "'int' object has no attribute 'item'")
  | PTensor v =>
      if length (t_data v) =? 1 then ret tt
      else raise (ValueError "only one element tensors can be converted to Python scalars")
  end.

Fixpoint read_all (ls : list loc) : M (list (obj A P)) :=
  match ls with
  | [] => ret []
  | l :: rest =>
      let* o := read l in
      let* os := read_all rest in
      ret (o :: os)
  end.

(** The gradients reach the parameters of the layers of the model. *)
Fixpoint accumulate_params (objs : list (obj A P)) (x : tensor A) (ls : list loc) : M unit :=
  match ls with
  | [] => ret tt
  | l :: rest =>
      let* o := read l in
      match o with
      | OLayer c inplace p => write l (OLayer c inplace (autograd_params objs x c p))
      | _ => ret tt
      end ;;
      accumulate_params objs x rest
  end.

(** [loss.backward()]: gradients are accumulated in the leaves of the
    graph of the last forward pass: the input image, when it requires a
    gradient, and the parameters of the layers of the model. *)
Definition backward (model : Sequential) (input_img : loc) (loss : pyval A) : M unit :=
  match loss with
  | PInt _ => raise (AttributeError "'int' object has no attribute 'backward'")
  | PTensor l =>
      if numel (t_size l) =? 1 then
        let* objs := read_all (map snd model) in
        let* o := read input_img in
        match o with
        | OTensor x rg g =>
            (if rg then write input_img (OTensor x rg (Some (autograd_input objs x g)))
             else ret tt) ;;
            accumulate_params objs x (map snd model)
        | _ => raise (TypeError "a tensor is expected")
        end
      else raise (RuntimeError "grad can be implicitly created only for scalar outputs")
  end.

(** The objective as the description states it: the weight of the style
    times the sum of the style losses plus the weight of the content times
    the sum of the content losses, the sums starting from the integer 0. *)
Definition sum_py (ls : list (tensor A)) : result (pyval A) :=
  fold_left (fun acc l => (let* a := acc in py_add a (PTensor l))%res) ls (Ok (PInt 0)).

Definition weighted_sum (style_weight content_weight : Z)
    (style_ls content_ls : list (tensor A)) : result (pyval A) :=
  (let* s := sum_py style_ls in
   let* c := sum_py content_ls in
   py_add (py_mul_int s style_weight) (py_mul_int c content_weight))%res.

(** The closure of [run_style_transfer]; [run] is [run[0]]. *)
Definition closure (model : Sequential) (style_losses content_losses : list loc)
    (optimizer : optimizer) (input_img : loc) (style_weight content_weight : Z)
    (run : Z) : M (pyval A * Z) :=
  clamp_ input_img ;;
  zero_grad optimizer ;;
  let* _ := call_on model input_img in
  let* style_score := sum_losses style_losses (PInt 0) in
  let* content_score := sum_losses content_losses (PInt 0) in
  let style_score := py_mul_int style_score style_weight in
  let content_score := py_mul_int content_score content_weight in
  let* loss := lift (py_add style_score content_score) in
  backward model input_img loss ;;
  let run := (run + 1)%Z in
  (if (run mod 50 =? 0)%Z then item style_score ;; item content_score else ret tt) ;;
  let* r := lift (py_add style_score content_score) in
  ret (r, run).

Fixpoint read_params (ps : list loc) : M (list (tensor A * option (tensor A))) :=
  match ps with
  | [] => ret []
  | p :: rest =>
      let* o := read p in
      match o with
      | OTensor d _ g =>
          let* r := read_params rest in
          ret ((d, g) :: r)
      | _ => raise (TypeError "a tensor is expected")
      end
  end.

Fixpoint write_params (ps : list loc) (ds : list (tensor A)) : M unit :=
  match ps, ds with
  | p :: ps', d :: ds' =>
      let* o := read p in
      match o with
      | OTensor _ rg g => write p (OTensor d rg g)
      | _ => raise (TypeError "a tensor is expected")
      end ;;
      write_params ps' ds'
  | _, _ => ret tt
  end.

(** [optimizer.step(closure)] of L-BFGS: the closure is evaluated and the
    parameters are updated, at most [max_iter] times; the update rule and
    the stopping test are the framework's. *)
Fixpoint lbfgs_iterations (n : nat) (cl : Z -> M (pyval A * Z))
    (o : optimizer) (run : Z) : M (optimizer * Z) :=
  match n with
  | 0 => ret (o, run)
  | S n' =>
      let* '(loss, run') := cl run in
      let* ps := read_params (opt_params o) in
      let '(s', ds, again) := lbfgs_update (opt_state o) loss ps in
      write_params (opt_params o) ds ;;
      let o' := Optimizer (opt_params o) s' in
      if again then lbfgs_iterations n' cl o' run' else ret (o', run')
  end.

Definition max_iter : nat := 20.

Definition LBFGS_step (cl : Z -> M (pyval A * Z)) (o : optimizer) (run : Z)
    : M (optimizer * Z) :=
  lbfgs_iterations max_iter cl o run.

(** [while run[0] <= num_steps: optimizer.step(closure)]. *)
Fixpoint optimize (fuel : nat) (cl : Z -> M (pyval A * Z)) (num_steps : Z)
    (o : optimizer) (run : Z) : M unit :=
  if (run <=? num_steps)%Z then
    match fuel with
    | 0 => raise OutOfFuel
    | S fuel' =>
        let* '(o', run') := LBFGS_step cl o run in
        optimize fuel' cl num_steps o' run'
    end
  else ret tt.

(** [run_style_transfer], the loop with a given fuel. *)
Definition run_style_transfer_with (fuel : nat) (cnn : Sequential)
    (normalization_mean normalization_std content_img style_img input_img : loc)
    (num_steps style_weight content_weight : Z) : M loc :=
  let* '(model, style_losses, content_losses) :=
    get_style_model_and_losses cnn normalization_mean normalization_std
      style_img content_img content_layers_default style_layers_default in
  let* optimizer := get_input_optimizer input_img in
  optimize fuel
    (closure model style_losses content_losses optimizer input_img
       style_weight content_weight)
    num_steps optimizer 0%Z ;;
  clamp_ input_img ;;
  ret input_img.

(** [run_style_transfer]: every step of the optimizer evaluates the
    closure, which counts a run, so that the loop makes [num_steps + 1]
    steps at most. *)
Definition run_style_transfer (cnn : Sequential)
    (normalization_mean normalization_std content_img style_img input_img : loc)
    (num_steps style_weight content_weight : Z) : M loc :=
  run_style_transfer_with (Z.to_nat (num_steps + 1)) cnn
    normalization_mean normalization_std content_img style_img input_img
    num_steps style_weight content_weight.

End StyleTransfer.

(** *** What a caller sees of a model *)

(** The kind of a module of the rebuilt network. *)
Inductive entry : Type :=
| ENormalization
| ELayer (name : string) (cls : module_class)
| EContentLoss
| EStyleLoss
| ENotAModule.

Definition entry_of {A P} (name : string) (o : option (obj A P)) : entry :=
  match o with
  | Some (OLayer c _ _) => ELayer name c
  | Some (ONormalization _ _) => ENormalization
  | Some (OContentLoss _ _) => EContentLoss
  | Some (OStyleLoss _ _) => EStyleLoss
  | _ => ENotAModule
  end.

(** The modules of [model], in order, in the store [h]. *)
Definition describe {A P} (h : heap A P) (model : Sequential) : list entry :=
  map (fun e => entry_of (fst e) (h !! snd e)) model.

Definition entry_is_loss (e : entry) : bool :=
  match e with
  | EContentLoss | EStyleLoss => true
  | _ => false
  end.

(** The classes of the children of a network. *)
Definition class_opt {A P} (o : option (obj A P)) : module_class :=
  match o with
  | Some o => class_of o
  | None => OtherClass "Tensor"
  end.

Definition class_at {A P} (h : heap A P) (l : loc) : module_class :=
  class_opt (h !! l).

Definition child_classes {A P} (h : heap A P) (cnn : Sequential) : list module_class :=
  map (class_at h) (children cnn).

Definition recognized (c : module_class) : bool :=
  match c with
  | OtherClass _ => false
  | _ => true
  end.

(** *** The scan as the description states it

    One pass over the children: the [k]-th child is named after its kind
    and the number of [Conv2d] children among the first [k] ones, it is
    appended, and a loss module follows it for each of the two lists that
    holds its name; at the end everything after the last loss module is
    dropped. *)

Definition is_conv (c : module_class) : bool :=
  match c with
  | Conv2d => true
  | _ => false
  end.

Definition convs_seen (cs : list module_class) : nat :=
  length (List.filter is_conv cs).

Definition kind_prefix (c : module_class) : option string :=
  match c with
  | Conv2d => Some "conv_"
  | ReLU => Some "relu_"
  | MaxPool2d => Some "pool_"
  | BatchNorm2d => Some "bn_"
  | OtherClass _ => None
  end.

Definition spec_layer_name (cs : list module_class) (k : nat) : option string :=
  match cs !! k with
  | Some c =>
      match kind_prefix c with
      | Some p => Some (p ++ fmt (convs_seen (take (S k) cs)))%string
      | None => None
      end
  | None => None
  end.

Definition spec_entries_at (content_layers style_layers : list string)
    (cs : list module_class) (k : nat) : list entry :=
  match cs !! k, spec_layer_name cs k with
  | Some c, Some name =>
      ELayer name c
        :: (if py_in name content_layers then [EContentLoss] else [])
        ++ (if py_in name style_layers then [EStyleLoss] else [])
  | _, _ => []
  end.

Definition spec_untrimmed (content_layers style_layers : list string)
    (cs : list module_class) : list entry :=
  ENormalization
    :: flat_map (spec_entries_at content_layers style_layers cs) (seq 0 (length cs)).

(** Everything after the last loss module is dropped; the first module
    stays in any case. *)
Fixpoint drop_after_last_loss (es : list entry) : list entry :=
  match es with
  | [] => []
  | e :: rest =>
      if existsb entry_is_loss rest then e :: drop_after_last_loss rest
      else [e]
  end.

Definition spec_model (content_layers style_layers : list string)
    (cs : list module_class) : list entry :=
  drop_after_last_loss (spec_untrimmed content_layers style_layers cs).

(** The names under which the scan adds modules, in the order of the
    calls of [add_module]. *)
Definition spec_added_names_at (content_layers style_layers : list string)
    (cs : list module_class) (k : nat) : list string :=
  match spec_layer_name cs k with
  | Some name =>
      let i := convs_seen (take (S k) cs) in
      name
        :: (if py_in name content_layers then [("content_loss_" ++ fmt i)%string] else [])
        ++ (if py_in name style_layers then [("style_loss_" ++ fmt i)%string] else [])
  | None => []
  end.

Definition spec_added_names (content_layers style_layers : list string)
    (cs : list module_class) : list string :=
  flat_map (spec_added_names_at content_layers style_layers cs) (seq 0 (length cs)).

(** ** The classifier notebook *)

(** The modules the classifier is built from, with the arguments of their
    constructors. *)
Inductive nn_module : Type :=
| NConv2d (in_channels out_channels kernel_size : nat)
| NBatchNorm2d (num_features : nat)
| NMaxPool2d (kernel_size stride : nat)
| NLinear (in_features out_features : nat)
| NBatchNorm1d (num_features : nat).

(** What [Net.forward] calls: the forward pass of a module (in training or
    evaluation mode), the functional operations and the operations on a
    tensor.  An instance interprets them on a type of activations. *)
Class NN (T : Type) : Type := {
  nn_size : T -> list nat;                       (* x.size() *)
  nn_call : nn_module -> bool -> T -> result T;  (* module(x) *)
  F_relu : T -> result T;                        (* F.relu(x) *)
  F_dropout : T -> bool -> result T;             (* F.dropout(x, training=b) *)
  nn_view : T -> nat -> result T                 (* x.view(-1, n) *)
}.

(** Sizes as activations: every operation computes the size of its result
    (stride 1 and no padding for a convolution, as [nn.Conv2d] has them by
    default). *)
Definition size_call (m : nn_module) (training : bool) (s : list nat) : result (list nat) :=
  match m, s with
  | NConv2d cin cout k, [b; c; h; w] =>
      if (c =? cin) && (1 <=? k) && (k <=? h) && (k <=? w)
      then Ok [b; cout; h - k + 1; w - k + 1]
      else Raise (RuntimeError "Conv2d: wrong input size")
  | NBatchNorm2d n, [b; c; h; w] =>
      if negb (c =? n) then Raise (RuntimeError "BatchNorm2d: wrong number of channels")
      else if training && (b * h * w =? 1)
      then Raise (ValueError "Expected more than 1 value per channel when training")
      else Ok s
  | NMaxPool2d k st, [b; c; h; w] =>
      if (1 <=? k) && (1 <=? st) && (k <=? h) && (k <=? w)
      then Ok [b; c; (h - k) / st + 1; (w - k) / st + 1]
      else Raise (RuntimeError "MaxPool2d: output size is too small")
  | NLinear i o, [b; f] =>
      if f =? i then Ok [b; o]
      else Raise (RuntimeError "size mismatch")
  | NBatchNorm1d n, [b; f] =>
      if negb (f =? n) then Raise (RuntimeError "BatchNorm1d: wrong number of features")
      else if training && (b =? 1)
      then Raise (ValueError "Expected more than 1 value per channel when training")
      else Ok s
  | _, _ => Raise (RuntimeError "wrong number of dimensions")
  end.

Definition size_view (s : list nat) (n : nat) : result (list nat) :=
  if (1 <=? n) && (numel s mod n =? 0) then Ok [numel s / n; n]
  else Raise (RuntimeError "shape is invalid for input size").

#[export] Instance Size_NN : NN (list nat) := {
  nn_size := fun s => s;
  nn_call := size_call;
  F_relu := fun s => Ok s;
  F_dropout := fun s _ => Ok s;
  nn_view := size_view
}.

(** Sizes with the log of the operations applied so far. *)
Inductive op : Type :=
| OpConv2d
| OpBatchNorm2d
| OpMaxPool2d
| OpLinear
| OpBatchNorm1d
| OpReLU
| OpDropout
| OpView.

Definition op_of (m : nn_module) : op :=
  match m with
  | NConv2d _ _ _ => OpConv2d
  | NBatchNorm2d _ => OpBatchNorm2d
  | NMaxPool2d _ _ => OpMaxPool2d
  | NLinear _ _ => OpLinear
  | NBatchNorm1d _ => OpBatchNorm1d
  end.

Definition logged (o : op) (f : list nat -> result (list nat))
    (x : list nat * list op) : result (list nat * list op) :=
  match f (fst x) with
  | Ok s => Ok (s, snd x ++ [o])
  | Raise e => Raise e
  end.

#[export] Instance Logged_NN : NN (list nat * list op) := {
  nn_size := fun x => fst x;
  nn_call := fun m tr => logged (op_of m) (size_call m tr);
  F_relu := logged OpReLU Ok;
  F_dropout := fun x _ => logged OpDropout Ok x;
  nn_view := fun x n => logged OpView (fun s => size_view s n) x
}.

(** The attributes of a [Net]. *)
Record Net : Type := {
  conv1 : nn_module; b1 : nn_module; pool : nn_module;
  conv2 : nn_module; b2 : nn_module;
  conv3 : nn_module; b3 : nn_module;
  fcn1 : nn_module; bfn1 : nn_module;
  fcn2 : nn_module;
  training : bool
}.

(** [Net.__init__]; a new module is in training mode. *)
Definition Net_init : Net := {|
  conv1 := NConv2d 1 64 3;
  b1 := NBatchNorm2d 64;
  pool := NMaxPool2d 2 2;
  conv2 := NConv2d 64 128 3;
  b2 := NBatchNorm2d 128;
  conv3 := NConv2d 128 128 3;
  b3 := NBatchNorm2d 128;
  fcn1 := NLinear (128 * 1 * 1) 52;
  bfn1 := NBatchNorm1d 52;
  fcn2 := NLinear 52 10;
  training := true
|}.

(** [model.eval()] and [model.train(mode)]. *)
Definition Net_train (mode : bool) (self : Net) : Net := {|
  conv1 := conv1 self; b1 := b1 self; pool := pool self;
  conv2 := conv2 self; b2 := b2 self;
  conv3 := conv3 self; b3 := b3 self;
  fcn1 := fcn1 self; bfn1 := bfn1 self;
  fcn2 := fcn2 self;
  training := mode
|}.

Definition Net_eval (self : Net) : Net := Net_train false self.

Section Classifier.
Context {T : Type} `{NN T}.
Local Open Scope res_scope.

(** [Net.num_flat_features]. *)
Definition num_flat_features (x : T) : nat :=
  fold_left Nat.mul (tail (nn_size x)) 1.

(** [Net.forward]. *)
Definition Net_forward (self : Net) (x : T) : result T :=
  (* Layer 1 *)
  let* x := (let* a := nn_call (conv1 self) (training self) x in
             let* b := nn_call (b1 self) (training self) a in
             let* c := F_relu b in
             nn_call (pool self) (training self) c) in
  (* Layer 2 *)
  let* x := (let* a := nn_call (conv2 self) (training self) x in
             let* b := nn_call (b2 self) (training self) a in
             let* c := F_relu b in
             nn_call (pool self) (training self) c) in
  (* Layer 3 *)
  let* x := (let* a := nn_call (conv3 self) (training self) x in
             let* b := nn_call (b3 self) (training self) a in
             let* c := F_relu b in
             nn_call (pool self) (training self) c) in
  (* Flatten tensors *)
  let* x := nn_view x (num_flat_features x) in
  (* FC Layer 1 *)
  let* x := (let* a := nn_call (fcn1 self) (training self) x in
             let* b := nn_call (bfn1 self) (training self) a in
             F_relu b) in
  let* x := F_dropout x (training self) in
  (* FC Layer 2 *)
  let* x := nn_call (fcn2 self) (training self) x in
  Ok x.

(** The classifier as the description has it: a block of a convolution,
    a batch normalisation, a ReLU and a max-pooling; three of them; then
    the fully connected layers. *)
Definition conv_block (conv bn pl : nn_module) (tr : bool) (x : T) : result T :=
  let* a := nn_call conv tr x in
  let* b := nn_call bn tr a in
  let* c := F_relu b in
  nn_call pl tr c.

Definition three_blocks (self : Net) (x : T) : result T :=
  let* x := conv_block (conv1 self) (b1 self) (pool self) (training self) x in
  let* x := conv_block (conv2 self) (b2 self) (pool self) (training self) x in
  conv_block (conv3 self) (b3 self) (pool self) (training self) x.

(** The truncated classifier of the glossary: the network up to the
    flattened activations of the last block. *)
Definition truncated_classifier (self : Net) (x : T) : result T :=
  let* x := three_blocks self x in
  nn_view x (num_flat_features x).

Definition fully_connected (self : Net) (x : T) : result T :=
  let* a := nn_call (fcn1 self) (training self) x in
  let* b := nn_call (bfn1 self) (training self) a in
  let* c := F_relu b in
  let* d := F_dropout c (training self) in
  nn_call (fcn2 self) (training self) d.

End Classifier.

(** *** Training *)

(** The loss function and the optimizer of the notebook. *)
Inductive criterion_kind : Type := CrossEntropyLoss | OtherLoss.
Inductive optimizer_kind : Type :=
| SGD (lr momentum : Q)
| OtherOptimizer.

Definition criterion : criterion_kind := CrossEntropyLoss.
Definition the_optimizer : optimizer_kind := SGD (1 # 1000) (9 # 10).
Definition log_interval : nat := 500.

(** The calls that [train] makes on the framework, in order; [batch] is
    the index of the batch of the loader. *)
Inductive train_event : Type :=
| EvTrainMode
| EvZeroGrad
| EvForward (batch : nat)
| EvLoss (c : criterion_kind) (batch : nat)
| EvBackward (batch : nat)
| EvStep (o : optimizer_kind)
| EvPrint (batch : nat).

(** The body of [for i, data in enumerate(testloader, 0)]. *)
Definition train_batch (i : nat) : list train_event :=
  [EvZeroGrad; EvTrainMode; EvForward i; EvLoss criterion i; EvBackward i;
   EvStep the_optimizer]
  ++ (if i mod log_interval =? 0 then [EvPrint i] else []).

(** [train(epoch)] on a loader of [batches] batches. *)
Definition train (batches : nat) : list train_event :=
  EvTrainMode :: flat_map train_batch (seq 0 batches).

Definition is_step (e : train_event) : bool :=
  match e with
  | EvStep _ => true
  | _ => false
  end.

(** The events by which the parameters are trained: the loss, its
    backward pass and the step of the optimizer. *)
Definition is_update (e : train_event) : bool :=
  match e with
  | EvLoss _ _ | EvBackward _ | EvStep _ => true
  | _ => false
  end.

(** A batch of the loader: 16 images of one channel, 28 by 28. *)
Definition mnist_batch : list nat := [16; 1; 28; 28].

(** The operations of a block of the classifier. *)
Definition block_ops : list op := [OpConv2d; OpBatchNorm2d; OpReLU; OpMaxPool2d].

(** ** The structure of the rebuilt network

    Which modules the scan adds, and under which names, depends on the
    classes of the children only, not on the values of the tensors:
    [shape_layers] is the scan on names and kinds. *)

Record shape_state : Type := ShapeState {
  sh_model : list (string * entry);
  sh_i : nat;
  sh_content : nat;     (* len(content_losses) *)
  sh_style : nat        (* len(style_losses) *)
}.

Definition shape_layer (content_layers style_layers : list string)
    (st : shape_state) (c : module_class) : result shape_state :=
  (let* '(i, name) := layer_name c (sh_i st) in
   let model := add_module name (ELayer name c) (sh_model st) in
   let '(model, nc) :=
     if py_in name content_layers
     then (add_module ("content_loss_" ++ fmt i)%string EContentLoss model, S (sh_content st))
     else (model, sh_content st) in
   let '(model, ns) :=
     if py_in name style_layers
     then (add_module ("style_loss_" ++ fmt i)%string EStyleLoss model, S (sh_style st))
     else (model, sh_style st) in
   Ok (ShapeState model i nc ns))%res.

Fixpoint shape_layers (content_layers style_layers : list string)
    (cs : list module_class) (st : shape_state) : result shape_state :=
  match cs with
  | [] => Ok st
  | c :: rest =>
      (let* st' := shape_layer content_layers style_layers st c in
       shape_layers content_layers style_layers rest st')%res
  end.

Definition shape_init : shape_state := ShapeState [("0", ENormalization)] 0 0 0.

(** The names and kinds of the modules of a model in a store. *)
Definition keyed {A P} (h : heap A P) (model : Sequential) : list (string * entry) :=
  map (fun e => (fst e, entry_of (fst e) (h !! snd e))) model.

(** Counting the loss modules of each kind. *)
Definition is_content (e : entry) : bool :=
  match e with
  | EContentLoss => true
  | _ => false
  end.

Definition is_style (e : entry) : bool :=
  match e with
  | EStyleLoss => true
  | _ => false
  end.

Definition count (f : entry -> bool) (es : list entry) : nat :=
  length (List.filter f es).

(** The names of loss modules, and the invariant of the names of a model
    whose scan has seen [i] convolutions: a module is a loss module
    exactly when its name is the name of one, and no loss module is
    numbered above [i]. *)
Definition is_loss_key (k : string) : bool :=
  String.prefix "content_loss_" k || String.prefix "style_loss_" k.

Definition keys_ok (i : nat) (m : list (string * entry)) : Prop :=
  forall k e, In (k, e) m ->
    entry_is_loss e = is_loss_key k
    /\ forall j, i < j ->
         k <> ("content_loss_" ++ fmt j)%string /\ k <> ("style_loss_" ++ fmt j)%string.

(** Whether the names of a list are pairwise distinct. *)
Fixpoint distinct_names (l : list string) : bool :=
  match l with
  | [] => true
  | x :: rest => negb (existsb (String.eqb x) rest) && distinct_names rest
  end.

(** The invariant of the scan with the default layer selections. *)
Definition default_inv (st : shape_state) : Prop :=
  keys_ok (sh_i st) (sh_model st)
  /\ count is_content (map snd (sh_model st)) = (if 4 <=? sh_i st then 1 else 0)
  /\ count is_style (map snd (sh_model st)) = min (sh_i st) 5
  /\ sh_content st = count is_content (map snd (sh_model st))
  /\ sh_style st = count is_style (map snd (sh_model st)).

(** The state of the scan, seen as names and kinds. *)
Definition shape_of {A P} (h : heap A P) (st : scan_state) : shape_state :=
  ShapeState (keyed h (st_model st)) (st_i st)
    (length (st_content_losses st)) (length (st_style_losses st)).

(** ** How the store changes

    [evolves S h h']: from [h] to [h'] objects are only added or updated
    in place; an object keeps its kind (a layer its class, a loss module
    and a normalisation their targets); only objects at references in [S]
    change; and whatever loss a loss module newly records is a
    mean-squared error against its target. *)

Section Evolution.
Context {A P : Type} `{Scalar A}.

Definition same_kind (o o' : obj A P) : Prop :=
  match o, o' with
  | OLayer c i _, OLayer c' i' _ => c = c' /\ i = i'
  | ONormalization m s, ONormalization m' s' => m = m' /\ s = s'
  | OContentLoss t _, OContentLoss t' _ => t = t'
  | OStyleLoss t _, OStyleLoss t' _ => t = t'
  | OTensor _ _ _, OTensor _ _ _ => True
  | _, _ => False
  end.

Definition mse_ok (o : obj A P) : Prop :=
  match o with
  | OContentLoss target (Some l) => exists x, mse_loss x target = Ok l
  | OStyleLoss target (Some l) =>
      exists x G, gram_matrix x = Ok G /\ mse_loss G target = Ok l
  | _ => True
  end.

Definition evolves (S : loc -> Prop) (h h' : heap A P) : Prop :=
  length h <= length h'
  /\ (forall l o, h !! l = Some o ->
        exists o', h' !! l = Some o' /\ same_kind o o' /\ (~ S l -> o' = o))
  /\ (forall l o', h' !! l = Some o' -> h !! l = Some o' \/ mse_ok o').

(** Whether the object at a reference is a loss module, and a model
    without its loss modules. *)
Definition loss_at (h : heap A P) (l : loc) : bool :=
  match h !! l with
  | Some (OContentLoss _ _) | Some (OStyleLoss _ _) => true
  | _ => false
  end.

Definition without_losses (h : heap A P) (model : Sequential) : Sequential :=
  List.filter (fun e => negb (loss_at h (snd e))) model.

(** Two stores that differ in their loss modules at most. *)
Definition agree_but_losses (h1 h2 : heap A P) : Prop :=
  length h1 = length h2
  /\ forall l, h1 !! l = h2 !! l \/ (loss_at h1 l = true /\ loss_at h2 l = true).

(** From [h] to [h'] no loss module has changed. *)
Definition keeps_losses (h h' : heap A P) : Prop :=
  forall m o, loss_at h m = true -> h !! m = Some o -> h' !! m = Some o.

(** The loss a loss module holds. *)
Definition recorded_loss (h : heap A P) (m : loc) (l : tensor A) : Prop :=
  match h !! m with
  | Some (OContentLoss target (Some v)) =>
      v = l /\ exists x, mse_loss x target = Ok l
  | Some (OStyleLoss target (Some v)) =>
      v = l /\ exists x G, gram_matrix x = Ok G /\ mse_loss G target = Ok l
  | _ => False
  end.

End Evolution.

(** ** Forward passes that succeed

    The forward pass of a layer of the framework may fail.  [regular]
    states that the layers of the four kinds accept every 4-dimensional
    input and return a 4-dimensional output whose size depends on the
    layer and on the size of the input only; [out_size] is that size. *)

(** The object at [l] is a tensor whose size satisfies [ok]. *)
Definition tensor_at {A P} (h : heap A P) (l : loc) (ok : list nat -> Prop) : Prop :=
  exists x rg g, h !! l = Some (OTensor x rg g) /\ ok (t_size x).

Section Regularity.
Context {A P : Type} `{Scalar A} `{Framework A P}.
Variable out_size : module_class -> P -> list nat -> list nat.

Definition regular : Prop :=
  forall c p x, recognized c = true -> length (t_size x) = 4 ->
    exists y p',
      forward_prim c p x = Ok (y, p')
      /\ t_size y = out_size c p (t_size x)
      /\ length (t_size y) = 4
      /\ forall s, out_size c p' s = out_size c p s.

(** Two objects that behave alike as far as sizes go. *)
Definition sig_eq (o o' : obj A P) : Prop :=
  match o, o' with
  | OLayer c _ p, OLayer c' _ p' => c = c' /\ forall s, out_size c p s = out_size c p' s
  | ONormalization m s, ONormalization m' s' => t_size m = t_size m' /\ t_size s = t_size s'
  | OContentLoss t _, OContentLoss t' _ => t_size t = t_size t'
  | OStyleLoss t _, OStyleLoss t' _ => t_size t = t_size t'
  | OTensor d _ _, OTensor d' _ _ => t_size d = t_size d'
  | _, _ => False
  end.

Definition shape_le (h h' : heap A P) : Prop :=
  forall l o, h !! l = Some o -> exists o', h' !! l = Some o' /\ sig_eq o o'.

(** The size of the output of a module on an input of size [s], when the
    sizes fit. *)
Definition step_size (o : obj A P) (s : list nat) : option (list nat) :=
  match o with
  | OLayer ReLU _ _ => Some s
  | OLayer c _ p =>
      if recognized c && (length s =? 4) then Some (out_size c p s) else None
  | ONormalization m sd =>
      match broadcast_shapes s (t_size m) with
      | Some s1 => broadcast_shapes s1 (t_size sd)
      | None => None
      end
  | OContentLoss t _ => if bool_decide (t_size t = s) then Some s else None
  | OStyleLoss t _ =>
      match s with
      | [a; b; _; _] => if bool_decide (t_size t = [a * b; a * b]) then Some s else None
      | _ => None
      end
  | OTensor _ _ _ => None
  end.

(** [ready model s0 s1 h]: in [h] and in every later store, the model
    takes an input of size [s0] to an output of size [s1]. *)
Definition ready (model : Sequential) (s0 s1 : list nat) (h : heap A P) : Prop :=
  forall h' x, shape_le h h' -> t_size x = s0 ->
    exists y h'',
      Sequential_forward model x h' = Ok (y, h'')
      /\ t_size y = s1
      /\ shape_le h' h''.

End Regularity.

(** The first child of another kind than the four. *)
Fixpoint first_unrecognized (cs : list module_class) : option string :=
  match cs with
  | [] => None
  | OtherClass n :: _ => Some n
  | _ :: rest => first_unrecognized rest
  end.

(** ** Notions for further properties *)

(** The rank of a multi-index in the row-major order of a size. *)
Fixpoint rank (s idx : list nat) : nat :=
  match s, idx with
  | _ :: s', i :: idx' => i * numel s' + rank s' idx'
  | _, _ => 0
  end.

(** The mean of the squared differences of two tensors, element by
    element. *)
Definition mean_squared_difference {A} `{Scalar A} (x y : tensor A) : tensor A :=
  Tensor []
    [s_div (sum_list (map (fun r => sq_diff (at_ (t_data x) r) (at_ (t_data y) r))
                          (seq 0 (numel (t_size x)))))
           (s_of_Z (Z.of_nat (numel (t_size x))))].

(** Whether the name of the [k]-th child is in a list of layers, and the
    children whose name is. *)
Definition name_selected (layers : list string) (cs : list module_class) (k : nat) : bool :=
  match spec_layer_name cs k with
  | Some name => py_in name layers
  | None => false
  end.

Definition selected (layers : list string) (cs : list module_class) : list nat :=
  List.filter (name_selected layers cs) (seq 0 (length cs)).

(** The model takes every input of size [s0] in the store [h]. *)
Definition accepts {A P} `{Scalar A} `{Framework A P}
    (model : Sequential) (s0 : list nat) (h : heap A P) : Prop :=
  forall x, t_size x = s0 -> exists y h', Sequential_forward model x h = Ok (y, h').

(** [m] is a loss module of the model. *)
Definition holds_loss {A P} (model : Sequential) (h : heap A P) (m : loc) : Prop :=
  In m (map snd model) /\ loss_at h m = true.

(** A score of the closure: the integer it starts from, or a scalar. *)
Definition scalar_score {A} `{Scalar A} (v : pyval A) : Prop :=
  match v with
  | PInt _ => True
  | PTensor t => is_scalar t
  end.

Definition tensor_score {A} `{Scalar A} (v : pyval A) : Prop :=
  match v with
  | PInt _ => False
  | PTensor t => is_scalar t
  end.

(** The object at [l] is no in-place ReLU. *)
Definition out_of_place {A P} (h : heap A P) (l : loc) : Prop :=
  forall inplace p, h !! l = Some (OLayer ReLU inplace p) -> inplace = false.

Definition no_inplace_relu {A P} (h : heap A P) (l : loc) : Prop :=
  l < length h /\ out_of_place h l.

(** ** Concrete inputs

    A small instance of the framework on the rationals, on which the
    definitions run: its layers leave an activation as it is, a batch
    normalisation counts its calls in its buffer, a backward pass adds 100
    to the parameters of a layer, and an L-BFGS iteration halves the
    image and evaluates the closure twice in a step. *)

Module Toy.

Definition toy_forward (c : module_class) (p : nat) (x : tensor Q)
    : result (tensor Q * nat) :=
  match c with
  | OtherClass _ => Raise (TypeError "forward is not implemented")
  | BatchNorm2d => Ok (x, S p)
  | _ => Ok (x, p)
  end.

Definition toy_update (s : nat) (loss : pyval Q)
    (ps : list (tensor Q * option (tensor Q))) : nat * list (tensor Q) * bool :=
  (S s,
   map (fun dg => Tensor (t_size (fst dg)) (map (fun v => v / 2)%Q (t_data (fst dg)))) ps,
   Nat.even s).

#[global] Instance toy : Framework Q nat := {
  no_params := 0;
  forward_prim := toy_forward;
  autograd_input := fun _ x _ => x;
  autograd_params := fun _ _ _ p => p + 100;
  lbfgs_state := nat;
  lbfgs_init := 0;
  lbfgs_update := toy_update
}.

Definition image (a b c : Q) : obj Q nat :=
  OTensor (Tensor [1; 3; 1; 1] [a; b; c]) false None.

Definition vector (a b c : Q) : obj Q nat :=
  OTensor (Tensor [3] [a; b; c]) false None.

Definition layer (c : module_class) : obj Q nat :=
  OLayer c (match c with ReLU => true | _ => false end) 7.

(** The store before a run: the normalisation mean and deviation at 0 and
    1, the content, style and input images at 2, 3 and 4, and the layers
    of the network from 5 on. *)
Definition store_of (cs : list module_class) : heap Q nat :=
  [vector (1 # 2) (1 # 2) (1 # 2); vector (1 # 4) (1 # 4) (1 # 4);
   image 1 2 3; image 3 2 1; image 1 2 3]
  ++ map layer cs.

Definition network_of (cs : list module_class) : Sequential :=
  map (fun k => (fmt k, 5 + k)) (seq 0 (length cs)).

(** The layers of [torchvision.models.vgg19().features]: sixteen
    convolutions, each followed by a ReLU, in five groups of 2, 2, 4, 4
    and 4, each group followed by a max-pooling. *)
Definition conv_relu (n : nat) : list module_class :=
  concat (repeat [Conv2d; ReLU] n).

Definition vgg19_features : list module_class :=
  conv_relu 2 ++ [MaxPool2d] ++ conv_relu 2 ++ [MaxPool2d]
  ++ conv_relu 4 ++ [MaxPool2d] ++ conv_relu 4 ++ [MaxPool2d]
  ++ conv_relu 4 ++ [MaxPool2d].

Definition vgg19_store : heap Q nat := store_of vgg19_features.
Definition vgg19 : Sequential := network_of vgg19_features.

(** A network with two max-poolings in a row. *)
Definition two_pools : list module_class := [Conv2d; MaxPool2d; MaxPool2d; Conv2d].

(** A style image without the batch dimension. *)
Definition store_3d : heap Q nat :=
  [vector (1 # 2) (1 # 2) (1 # 2); vector (1 # 4) (1 # 4) (1 # 4);
   image 1 2 3;
   OTensor (Tensor [3; 1; 1] [3; 2; 1]%Q) false None;
   image 1 2 3;
   layer ReLU].

(** A content image and a style image of different heights, and a
    network of one convolution. *)
Definition store_sizes : heap Q nat :=
  [vector (1 # 2) (1 # 2) (1 # 2); vector (1 # 4) (1 # 4) (1 # 4);
   OTensor (Tensor [1; 3; 2; 1] [1; 2; 3; 4; 5; 6]%Q) false None;
   OTensor (Tensor [1; 3; 3; 1] [1; 2; 3; 4; 5; 6; 7; 8; 9]%Q) false None;
   image 1 2 3;
   layer Conv2d].

(** A store with a content loss at 0 and a style loss at 1, both for
    activations of size (1, 1, 1, 2), and such an activation. *)
Definition loss_store : heap Q nat :=
  [OContentLoss (Tensor [1; 1; 1; 2] [1; 2]%Q) None;
   OStyleLoss (Tensor [1; 1] [1]%Q) None].

Definition activation : tensor Q := Tensor [1; 1; 1; 2] [3; 4]%Q.

(** A matrix: an activation that lacks two dimensions. *)
Definition matrix_activation : tensor Q := Tensor [2; 2] [1; 2; 3; 4]%Q.

End Toy.

(** * Properties *)

(** ** Tensors and the Gram matrix *)

Section TensorFacts.
Context {A : Type} `{Scalar A}.

Lemma length_grid (n p : nat) (f : nat -> nat -> A) :
  length (grid n p f) = n * p.
Proof.
  unfold grid. induction n as [|n IH].
  - reflexivity.
  - rewrite seq_S, flat_map_app, List.length_app, IH. simpl.
    rewrite List.length_app, List.length_map, List.length_seq. simpl. lia.
Qed.

Lemma nth_grid (n p : nat) (f : nat -> nat -> A) (i j : nat) (d : A) :
  i < n -> j < p -> nth (i * p + j) (grid n p f) d = f i j.
Proof.
  induction n as [|n IH]; intros Hi Hj; [lia|].
  unfold grid. rewrite seq_S, flat_map_app. fold (grid n p f). simpl.
  rewrite app_nil_r.
  destruct (Nat.eq_dec i n) as [->|Hne].
  - rewrite app_nth2; rewrite length_grid; [|lia].
    replace (n * p + j - n * p) with j by lia.
    rewrite (nth_indep _ d (f n 0)) by (rewrite List.length_map, List.length_seq; lia).
    rewrite map_nth, seq_nth by lia. reflexivity.
  - rewrite app_nth1; [apply IH; lia|].
    rewrite length_grid. nia.
Qed.

Lemma at_grid (n p : nat) (f : nat -> nat -> A) (i j : nat) :
  i < n -> j < p -> at_ (grid n p f) (i * p + j) = f i j.
Proof. apply nth_grid. Qed.

(** The position of an element of a 4-dimensional tensor in the matrix
    that [view(a * b, c * d)] makes of it. *)
Lemma flattened_at (input : tensor A) (a b c d i k : nat) :
  t_size input = [a; b; c; d] -> i < a * b -> k < c * d ->
  flattened input i k = at_ (t_data input) (i * (c * d) + k).
Proof.
  intros Hs Hi Hk. unfold flattened, get4. rewrite Hs.
  assert (b <> 0) by (intros ->; lia).
  assert (d <> 0) by (intros ->; lia).
  f_equal.
  pose proof (Nat.div_mod_eq i b). pose proof (Nat.div_mod_eq k d).
  nia.
Qed.

Lemma gram_matrix_value (input : tensor A) (a b c d : nat) :
  t_size input = [a; b; c; d] ->
  gram_matrix input =
  Ok (Tensor [a * b; a * b]
        (map (fun v => s_div v (s_of_Z (Z.of_nat (a * b * c * d))))
           (grid (a * b) (a * b) (fun i j =>
              sum_list (map (fun k =>
                 s_mul (at_ (t_data input) (i * (c * d) + k))
                       (at_ (grid (c * d) (a * b)
                               (fun j' i' => at_ (t_data input) (i' * (c * d) + j')))
                            (k * (a * b) + j)))
                (seq 0 (c * d))))))).
Proof.
  intros Hs. unfold gram_matrix, view. rewrite Hs.
  replace (numel [a * b; c * d] =? numel [a; b; c; d]) with true
    by (symmetry; apply Nat.eqb_eq; simpl; lia).
  simpl. unfold mm. simpl. rewrite Nat.eqb_refl. reflexivity.
Qed.


End TensorFacts.


(** ** The store *)

Section MonadFacts.
Context {A P : Type}.
Implicit Types h : heap A P.

Lemma bind_Ok {X Y} (m : M A P X) (k : X -> M A P Y) h r :
  bind m k h = Ok r -> exists x h1, m h = Ok (x, h1) /\ k x h1 = Ok r.
Proof. unfold bind. destruct (m h) as [[x h1]|]; [eauto|discriminate]. Qed.

Lemma bind_Ok_intro {X Y} (m : M A P X) (k : X -> M A P Y) h x h1 :
  m h = Ok (x, h1) -> bind m k h = k x h1.
Proof. unfold bind. intros ->. reflexivity. Qed.

Lemma bind_Raise {X Y} (m : M A P X) (k : X -> M A P Y) h e :
  m h = Raise e -> bind m k h = Raise e.
Proof. unfold bind. intros ->. reflexivity. Qed.

Lemma ret_Ok {X} (x y : X) h h' : ret x h = Ok (y, h') -> y = x /\ h' = h.
Proof. unfold ret. intros [= -> ->]. auto. Qed.

Lemma lift_Ok {X} (r : result X) (x : X) h h' :
  lift r h = Ok (x, h') -> r = Ok x /\ h' = h.
Proof. unfold lift. destruct r; intros [= -> ->]; auto. Qed.

Lemma read_Ok l h o h' : read l h = Ok (o, h') -> h !! l = Some o /\ h' = h.
Proof. unfold read. destruct (h !! l); intros [= -> ->]; auto. Qed.

Lemma read_Some l h o : h !! l = Some o -> read l h = Ok (o, h).
Proof. unfold read. intros ->. reflexivity. Qed.

Lemma write_Ok l (o : obj A P) h u h' :
  write l o h = Ok (u, h') -> l < length h /\ h' = <[l := o]> h.
Proof.
  unfold write. destruct (l <? length h) eqn:E; [intros [= <-]|discriminate].
  apply Nat.ltb_lt in E. auto.
Qed.

Lemma write_lt l (o : obj A P) h :
  l < length h -> write l o h = Ok (tt, <[l := o]> h).
Proof. unfold write. intros Hl. apply Nat.ltb_lt in Hl. rewrite Hl. reflexivity. Qed.

Lemma alloc_Ok (o : obj A P) h l h' :
  alloc o h = Ok (l, h') -> l = length h /\ h' = h ++ [o].
Proof. unfold alloc. intros [= <- <-]. auto. Qed.

End MonadFacts.

(** Inversion of a computation that returned. *)
Ltac inv_M :=
  repeat match goal with
  | H : bind _ _ _ = Ok _ |- _ =>
      let x := fresh "x" in
      let h := fresh "h" in
      let E := fresh "E" in
      apply bind_Ok in H; destruct H as (x & h & E & H)
  | H : ret _ _ = Ok _ |- _ => apply ret_Ok in H; destruct H; subst
  | H : lift _ _ = Ok _ |- _ => apply lift_Ok in H; destruct H; subst
  | H : read _ _ = Ok _ |- _ => apply read_Ok in H; destruct H; subst
  | H : write _ _ _ = Ok _ |- _ => apply write_Ok in H; destruct H; subst
  | H : alloc _ _ = Ok _ |- _ => apply alloc_Ok in H; destruct H; subst
  | H : raise _ _ = Ok _ |- _ => discriminate H
  | H : Raise _ = Ok _ |- _ => discriminate H
  end.

(** Case analysis on what a computation that returned has matched on. *)
Ltac case_M :=
  match goal with
  | H : (match ?o with _ => _ end) _ = Ok _ |- _ =>
      first [ is_var o; destruct o | destruct o eqn:? ];
      try discriminate H; inv_M
  end.

Section EvolutionFacts.
Context {A P : Type} `{Scalar A}.
Implicit Types (h : heap A P) (S : loc -> Prop) (o : obj A P).

Lemma same_kind_refl o : same_kind o o.
Proof. destruct o; simpl; auto. Qed.

Lemma same_kind_trans o1 o2 o3 :
  same_kind o1 o2 -> same_kind o2 o3 -> same_kind o1 o3.
Proof.
  destruct o1, o2; simpl; try contradiction; destruct o3; simpl;
    try contradiction; intuition congruence.
Qed.

Lemma evolves_refl S h : evolves S h h.
Proof.
  split; [lia|]. split.
  - intros l o Hl. exists o. auto using same_kind_refl.
  - auto.
Qed.

Lemma evolves_trans S h1 h2 h3 :
  evolves S h1 h2 -> evolves S h2 h3 -> evolves S h1 h3.
Proof.
  intros (L1 & K1 & N1) (L2 & K2 & N2). split; [lia|]. split.
  - intros l o Hl.
    destruct (K1 l o Hl) as (o' & Hl' & Hk & Hf).
    destruct (K2 l o' Hl') as (o'' & Hl'' & Hk' & Hf').
    exists o''. split; [assumption|]. split; [eauto using same_kind_trans|].
    intros HS. rewrite (Hf' HS). auto.
  - intros l o'' Hl.
    destruct (N2 l o'' Hl) as [Hl'|]; [|auto].
    apply N1. assumption.
Qed.

Lemma evolves_weaken (S S' : loc -> Prop) h h' :
  (forall l, S l -> S' l) -> evolves S h h' -> evolves S' h h'.
Proof.
  intros HS (L & K & N). split; [assumption|]. split; [|assumption].
  intros l o Hl. destruct (K l o Hl) as (o' & Hl' & Hk & Hf).
  exists o'. repeat split; auto.
Qed.

Lemma evolves_alloc S h o : mse_ok o -> evolves S h (h ++ [o]).
Proof.
  intros Ho. split; [rewrite List.length_app; lia|]. split.
  - intros l o0 Hl. exists o0.
    split; [apply lookup_app_l_Some; assumption|].
    auto using same_kind_refl.
  - intros l o' Hl. apply lookup_app_Some in Hl.
    destruct Hl as [Hl|[_ Hl]]; [auto|].
    right. destruct (l - length h); simpl in Hl; [|discriminate].
    injection Hl as <-. assumption.
Qed.

Lemma evolves_write S h l o o' :
  h !! l = Some o -> same_kind o o' -> S l -> mse_ok o' ->
  evolves S h (<[l := o']> h).
Proof.
  intros Hl Hk HS Ho. split; [rewrite length_insert; lia|]. split.
  - intros l0 o0 Hl0. destruct (Nat.eq_dec l l0) as [<-|Hne].
    + exists o'. rewrite list_lookup_insert_eq by eauto using lookup_lt_Some.
      assert (o0 = o) as -> by congruence.
      repeat split; [assumption|]. intros HnS. contradiction.
    + exists o0. rewrite list_lookup_insert_ne by assumption.
      auto using same_kind_refl.
  - intros l0 o0 Hl0. destruct (Nat.eq_dec l l0) as [<-|Hne].
    + rewrite list_lookup_insert_eq in Hl0 by eauto using lookup_lt_Some.
      injection Hl0 as <-. auto.
    + rewrite list_lookup_insert_ne in Hl0 by assumption. auto.
Qed.

Lemma evolves_length S h h' : evolves S h h' -> length h <= length h'.
Proof. intros (L & _). assumption. Qed.

Lemma evolves_frame S h h' l :
  evolves S h h' -> l < length h -> ~ S l -> h' !! l = h !! l.
Proof.
  intros (L & K & N) Hl HS.
  destruct (lookup_lt_is_Some_2 h l Hl) as [o Ho].
  destruct (K l o Ho) as (o' & Hl' & _ & Hf).
  rewrite Hl', Ho, (Hf HS). reflexivity.
Qed.

Lemma evolves_kind S h h' l o :
  evolves S h h' -> h !! l = Some o ->
  exists o', h' !! l = Some o' /\ same_kind o o'.
Proof.
  intros (L & K & N) Hl. destruct (K l o Hl) as (o' & ? & ? & _). eauto.
Qed.

Lemma entry_of_same_kind (n : string) o o' :
  same_kind o o' -> entry_of n (Some o) = entry_of n (Some o').
Proof.
  destruct o, o'; simpl; try contradiction; try reflexivity.
  intros [-> _]. reflexivity.
Qed.

Lemma evolves_entry S h h' n l :
  evolves S h h' -> l < length h ->
  entry_of n (h' !! l) = entry_of n (h !! l).
Proof.
  intros He Hl. destruct (lookup_lt_is_Some_2 h l Hl) as [o Ho].
  destruct (evolves_kind _ _ _ _ _ He Ho) as (o' & Ho' & Hk).
  rewrite Ho, Ho'. symmetry. apply entry_of_same_kind. assumption.
Qed.

Lemma evolves_keyed S h h' (model : Sequential) :
  evolves S h h' -> Forall (fun e => snd e < length h) model ->
  keyed h' model = keyed h model.
Proof.
  intros He Hv. unfold keyed. apply map_ext_in. intros [n l] Hin. simpl.
  f_equal. eapply evolves_entry; [eassumption|].
  rewrite Forall_forall in Hv. apply list_elem_of_In in Hin.
  apply (Hv _ Hin).
Qed.

End EvolutionFacts.

(** ** The loss modules *)

Section BroadcastFacts.
Context {A : Type} `{Scalar A}.

Lemma broadcast_rev_same (s : list nat) : broadcast_rev s s = Some s.
Proof.
  induction s as [|a s IH]; [reflexivity|].
  simpl. rewrite Nat.eqb_refl, IH. reflexivity.
Qed.

Lemma broadcast_shapes_same (s : list nat) : broadcast_shapes s s = Some s.
Proof.
  unfold broadcast_shapes. rewrite broadcast_rev_same. simpl.
  rewrite rev_involutive. reflexivity.
Qed.

Lemma mse_loss_scalar (x y l : tensor A) : mse_loss x y = Ok l -> is_scalar l.
Proof.
  unfold mse_loss, broadcast_binop.
  destruct (broadcast_shapes (t_size x) (t_size y)); simpl; [|discriminate].
  intros [= <-]. split; reflexivity.
Qed.

Lemma mse_loss_same_size (x y : tensor A) :
  t_size x = t_size y -> exists l, mse_loss x y = Ok l /\ is_scalar l.
Proof.
  intros Hs. unfold mse_loss, broadcast_binop.
  rewrite Hs, broadcast_shapes_same. simpl.
  eexists. split; [reflexivity|]. split; reflexivity.
Qed.

Lemma gram_matrix_size (x : tensor A) (a b c d : nat) :
  t_size x = [a; b; c; d] ->
  exists G, gram_matrix x = Ok G /\ t_size G = [a * b; a * b].
Proof.
  intros Hs. rewrite (gram_matrix_value x a b c d Hs). eauto.
Qed.

Lemma gram_matrix_4d (x G : tensor A) :
  gram_matrix x = Ok G ->
  exists a b c d, t_size x = [a; b; c; d] /\ t_size G = [a * b; a * b].
Proof.
  intros HG.
  destruct (t_size x) as [|a [|b [|c [|d [|? ?]]]]] eqn:Hs;
    try (unfold gram_matrix in HG; rewrite Hs in HG; discriminate).
  exists a, b, c, d. split; [reflexivity|].
  rewrite (gram_matrix_value x a b c d Hs) in HG. injection HG as <-. reflexivity.
Qed.

End BroadcastFacts.

Section LossModuleFacts.
Context {A P : Type} `{Scalar A} `{Framework A P}.
Local Open Scope M_scope.
Implicit Types (h : heap A P) (x : tensor A).

Lemma ContentLoss_forward_Ok (self : loc) (input : tensor A) h y h' :
  ContentLoss_forward self input h = Ok (y, h') ->
  y = input
  /\ exists target l0 loss,
       h !! self = Some (OContentLoss target l0)
       /\ mse_loss input target = Ok loss
       /\ h' = <[self := OContentLoss target (Some loss)]> h.
Proof.
  unfold ContentLoss_forward. intros Hf. inv_M.
  case_M. split; [reflexivity|]. eauto 10.
Qed.

Lemma StyleLoss_forward_Ok (self : loc) (input : tensor A) h y h' :
  StyleLoss_forward self input h = Ok (y, h') ->
  y = input
  /\ exists target l0 G loss,
       h !! self = Some (OStyleLoss target l0)
       /\ gram_matrix input = Ok G
       /\ mse_loss G target = Ok loss
       /\ h' = <[self := OStyleLoss target (Some loss)]> h.
Proof.
  unfold StyleLoss_forward. intros Hf. inv_M.
  case_M. split; [reflexivity|]. eauto 10.
Qed.

Lemma ContentLoss_forward_total (self : loc) (input target : tensor A) l0 h :
  h !! self = Some (OContentLoss target l0) ->
  t_size input = t_size target ->
  exists loss,
    mse_loss input target = Ok loss
    /\ is_scalar loss
    /\ ContentLoss_forward self input h
       = Ok (input, <[self := OContentLoss target (Some loss)]> h).
Proof.
  intros Hself Hs.
  destruct (mse_loss_same_size input target Hs) as (loss & Hl & Hsc).
  exists loss. split; [assumption|]. split; [assumption|].
  unfold ContentLoss_forward.
  rewrite (bind_Ok_intro _ _ _ _ _ (read_Some _ _ _ Hself)).
  unfold lift at 1. unfold bind at 1. rewrite Hl.
  rewrite (bind_Ok_intro _ _ _ _ _ (write_lt _ _ _ (lookup_lt_Some _ _ _ Hself))).
  reflexivity.
Qed.

Lemma StyleLoss_forward_total (self : loc) (input target : tensor A) l0 h
    (a b c d : nat) :
  h !! self = Some (OStyleLoss target l0) ->
  t_size input = [a; b; c; d] ->
  t_size target = [a * b; a * b] ->
  exists G loss,
    gram_matrix input = Ok G
    /\ mse_loss G target = Ok loss
    /\ is_scalar loss
    /\ StyleLoss_forward self input h
       = Ok (input, <[self := OStyleLoss target (Some loss)]> h).
Proof.
  intros Hself Hs Ht.
  destruct (gram_matrix_size input a b c d Hs) as (G & HG & HGs).
  destruct (mse_loss_same_size G target) as (loss & Hl & Hsc); [congruence|].
  exists G, loss. repeat (split; [assumption|]).
  unfold StyleLoss_forward.
  rewrite (bind_Ok_intro _ _ _ _ _ (read_Some _ _ _ Hself)).
  unfold lift at 1. unfold bind at 1. rewrite HG.
  unfold lift at 1. unfold bind at 1. rewrite Hl.
  rewrite (bind_Ok_intro _ _ _ _ _ (write_lt _ _ _ (lookup_lt_Some _ _ _ Hself))).
  reflexivity.
Qed.

End LossModuleFacts.

(** ** Forward passes *)

Section ForwardFacts.
Context {A P : Type} `{Scalar A} `{Framework A P}.
Local Open Scope M_scope.
Implicit Types (h : heap A P) (x : tensor A) (o : obj A P).

(** A call of a module reads the module, computes, and leaves the module
    updated in its place. *)
Lemma call_module_step (l : loc) x h :
  call_module l x h =
  match h !! l with
  | None => Raise InvalidReference
  | Some o =>
      match module_step o x with
      | Ok (y, o') => Ok (y, <[l := o']> h)
      | Raise e => Raise e
      end
  end.
Proof.
  unfold call_module, bind at 1, read.
  destruct (h !! l) as [o|] eqn:Hl; [|reflexivity].
  assert (Hlt : l < length h) by eauto using lookup_lt_Some.
  assert (Hid : <[l := o]> h = h) by (apply list_insert_id; assumption).
  destruct o as [c i p|m s|t l0|t l0|d rg g]; simpl.
  - destruct c; simpl;
      try (unfold bind, lift; destruct (forward_prim _ p x) as [[y p']|e]; simpl;
           [rewrite write_lt by assumption; reflexivity|reflexivity]).
    unfold ret. rewrite Hid. reflexivity.
  - unfold lift. destruct (Normalization_forward m s x); simpl; [|reflexivity].
    rewrite Hid. reflexivity.
  - unfold ContentLoss_forward, bind at 1, read. rewrite Hl.
    unfold bind, lift. destruct (mse_loss x t); simpl; [|reflexivity].
    rewrite write_lt by assumption. reflexivity.
  - unfold StyleLoss_forward, bind at 1, read. rewrite Hl.
    unfold bind, lift. destruct (gram_matrix x) as [G|]; simpl; [|reflexivity].
    destruct (mse_loss G t); simpl; [|reflexivity].
    rewrite write_lt by assumption. reflexivity.
  - reflexivity.
Qed.

Lemma module_step_kind o x y o' :
  module_step o x = Ok (y, o') ->
  same_kind o o' /\ mse_ok o' /\ is_loss o' = is_loss o
  /\ (is_loss o = true -> y = x).
Proof.
  destruct o as [c i p|m s|t l0|t l0|d rg g]; simpl.
  - destruct c; simpl;
      try (destruct (forward_prim _ p x) as [[y' p']|e]; simpl; [|discriminate];
           intros [= <- <-]; simpl; repeat split; auto; discriminate).
    intros [= <- <-]. simpl. repeat split; auto. discriminate.
  - destruct (Normalization_forward m s x); simpl; [|discriminate].
    intros [= <- <-]. simpl. repeat split; auto. discriminate.
  - destruct (mse_loss x t) as [loss|] eqn:Hl; simpl; [|discriminate].
    intros [= <- <-]. simpl. repeat split; eauto.
  - destruct (gram_matrix x) as [G|] eqn:HG; simpl; [|discriminate].
    destruct (mse_loss G t) as [loss|] eqn:Hl; simpl; [|discriminate].
    intros [= <- <-]. simpl. repeat split; eauto.
  - discriminate.
Qed.

Lemma call_module_Ok (l : loc) x h y h' :
  call_module l x h = Ok (y, h') ->
  exists o o', h !! l = Some o /\ module_step o x = Ok (y, o') /\ h' = <[l := o']> h.
Proof.
  rewrite call_module_step. destruct (h !! l) as [o|]; [|discriminate].
  destruct (module_step o x) as [[y' o']|] eqn:Hs; [|discriminate].
  intros [= <- <-]. eauto.
Qed.

Lemma call_module_evolves (S : loc -> Prop) (l : loc) x h y h' :
  call_module l x h = Ok (y, h') -> S l -> evolves S h h'.
Proof.
  intros Hc HS. apply call_module_Ok in Hc. destruct Hc as (o & o' & Hl & Hs & ->).
  apply module_step_kind in Hs. destruct Hs as (Hk & Hm & _).
  eapply evolves_write; eassumption.
Qed.

Lemma Sequential_forward_evolves (S : loc -> Prop) (model : Sequential) x h y h' :
  Sequential_forward model x h = Ok (y, h') ->
  Forall (fun e => S (snd e)) model ->
  evolves S h h'.
Proof.
  revert x h. induction model as [|[n l] rest IH]; intros x h Hf HS; simpl in Hf.
  - inv_M. apply evolves_refl.
  - inv_M. apply Forall_cons in HS. destruct HS as [Hl Hrest]. simpl in Hl.
    eapply evolves_trans; [eapply call_module_evolves; eassumption|].
    eapply IH; eassumption.
Qed.

Lemma Sequential_forward_length (model : Sequential) x h y h' :
  Sequential_forward model x h = Ok (y, h') -> length h' = length h.
Proof.
  revert x h. induction model as [|[n l] rest IH]; intros x h Hf; simpl in Hf.
  - inv_M. reflexivity.
  - inv_M. apply call_module_Ok in E. destruct E as (o & o' & _ & _ & ->).
    rewrite (IH _ _ Hf). apply length_insert.
Qed.

Lemma Sequential_forward_app (m1 m2 : Sequential) x h :
  Sequential_forward (m1 ++ m2) x h =
  bind (Sequential_forward m1 x) (fun y => Sequential_forward m2 y) h.
Proof.
  revert x h. induction m1 as [|[n l] rest IH]; intros x h; simpl.
  - reflexivity.
  - unfold bind. destruct (call_module l x h) as [[y h1]|]; [|reflexivity].
    rewrite IH. reflexivity.
Qed.

(** *** Loss modules are transparent *)

Lemma loss_at_insert h (l l' : loc) o o' :
  h !! l = Some o -> is_loss o' = is_loss o ->
  loss_at (<[l := o']> h) l' = loss_at h l'.
Proof.
  intros Hl Hk. unfold loss_at. destruct (Nat.eq_dec l l') as [<-|Hne].
  - rewrite list_lookup_insert_eq by eauto using lookup_lt_Some. rewrite Hl.
    destruct o, o'; simpl in Hk; congruence.
  - rewrite list_lookup_insert_ne by assumption. reflexivity.
Qed.

Lemma loss_at_is_loss h (l : loc) o : h !! l = Some o -> loss_at h l = is_loss o.
Proof. unfold loss_at. intros ->. destruct o; reflexivity. Qed.

Lemma without_losses_insert h (l : loc) o o' (model : Sequential) :
  h !! l = Some o -> is_loss o' = is_loss o ->
  without_losses (<[l := o']> h) model = without_losses h model.
Proof.
  intros Hl Hk. unfold without_losses. apply filter_ext. intros [n l'].
  simpl. f_equal. eapply loss_at_insert; eassumption.
Qed.

Lemma agree_but_losses_refl h : agree_but_losses h h.
Proof. split; auto. Qed.

Lemma splice_losses (model : Sequential) x h1 h2 y h1' :
  agree_but_losses h1 h2 ->
  Sequential_forward model x h1 = Ok (y, h1') ->
  exists h2', Sequential_forward (without_losses h1 model) x h2 = Ok (y, h2')
              /\ agree_but_losses h1' h2'.
Proof.
  revert x h1 h2. induction model as [|[n l] rest IH]; intros x h1 h2 Hag Hf;
    simpl in Hf.
  - inv_M. exists h2. split; [reflexivity|assumption].
  - inv_M. apply call_module_Ok in E. destruct E as (o & o' & Hl & Hs & ->).
    pose proof (module_step_kind _ _ _ _ Hs) as (Hk & _ & Hil & Hid).
    assert (Hlt : l < length h1) by eauto using lookup_lt_Some.
    assert (Hla : forall l', loss_at (<[l := o']> h1) l' = loss_at h1 l')
      by (intros; eapply loss_at_insert; eassumption).
    assert (Hwl : without_losses (<[l := o']> h1) rest = without_losses h1 rest)
      by (eapply without_losses_insert; eassumption).
    pose proof (loss_at_is_loss _ _ _ Hl) as Hlal.
    destruct Hag as [Hlen Hag].
    unfold without_losses. simpl. fold (without_losses h1 rest).
    rewrite Hlal.
    destruct (is_loss o) eqn:Hlo; simpl.
    + (* a loss module: the activation goes through unchanged *)
      rewrite (Hid eq_refl) in Hf.
      destruct (IH x (<[l := o']> h1) h2) as (h2' & Hf2 & Hag2); [|assumption|].
      * split; [rewrite length_insert; assumption|].
        intros l'. rewrite Hla. destruct (Nat.eq_dec l l') as [<-|Hne].
        -- right. split; [assumption|].
           destruct (Hag l) as [Heq|[_ ?]]; [|assumption].
           unfold loss_at. rewrite <- Heq. assumption.
        -- rewrite list_lookup_insert_ne by assumption. apply Hag.
      * exists h2'. split; [|assumption].
        rewrite <- Hwl. assumption.
    + (* another module: the same call in both stores *)
      assert (Hl2 : h2 !! l = Some o).
      { destruct (Hag l) as [Heq|[Ht _]]; [congruence|]. congruence. }
      destruct (IH x0 (<[l := o']> h1) (<[l := o']> h2)) as (h2' & Hf2 & Hag2);
        [|assumption|].
      * split; [rewrite !length_insert; assumption|].
        intros l'. destruct (Nat.eq_dec l l') as [<-|Hne].
        -- left. rewrite !list_lookup_insert_eq by lia. reflexivity.
        -- rewrite !list_lookup_insert_ne by assumption.
           destruct (Hag l') as [Heq|[Ha Hb]]; [left; assumption|right].
           unfold loss_at. rewrite !list_lookup_insert_ne by assumption.
           split; assumption.
      * exists h2'. split; [|assumption].
        assert (Hc2 : call_module l x h2 = Ok (x0, <[l := o']> h2))
          by (rewrite call_module_step, Hl2, Hs; reflexivity).
        simpl. rewrite (bind_Ok_intro _ _ _ _ _ Hc2).
        rewrite <- Hwl. assumption.
Qed.

End ForwardFacts.

Section ScanInversion.
Context {A P : Type} `{Scalar A} `{Framework A P}.
Local Open Scope M_scope.
Implicit Types (h : heap A P) (x : tensor A).

(** What one iteration of the scan did when it returned. *)
Lemma scan_layer_Ok (ci si : loc) (cl sl : list string) st (layer : loc) h st' h' :
  scan_layer ci si cl sl st layer h = Ok (st', h') ->
  exists o i name layer' h0 h1 model1,
    h !! layer = Some o
    /\ layer_name (class_of o) (st_i st) = Ok (i, name)
    /\ match class_of o with
       | ReLU => layer' = length h /\ h0 = h ++ [OLayer ReLU false no_params]
       | _ => layer' = layer /\ h0 = h
       end
    /\ (if py_in name cl then
          exists target h0',
            call_on (add_module name layer' (st_model st)) ci h0 = Ok (target, h0')
            /\ h1 = h0' ++ [OContentLoss target None]
            /\ model1 = add_module ("content_loss_" ++ fmt i)%string (length h0')
                          (add_module name layer' (st_model st))
            /\ st_content_losses st' = st_content_losses st ++ [length h0']
        else h1 = h0
             /\ model1 = add_module name layer' (st_model st)
             /\ st_content_losses st' = st_content_losses st)
    /\ (if py_in name sl then
          exists tf h1' G,
            call_on model1 si h1 = Ok (tf, h1')
            /\ gram_matrix tf = Ok G
            /\ h' = h1' ++ [OStyleLoss G None]
            /\ st_model st' = add_module ("style_loss_" ++ fmt i)%string (length h1') model1
            /\ st_style_losses st' = st_style_losses st ++ [length h1']
        else h' = h1
             /\ st_model st' = model1
             /\ st_style_losses st' = st_style_losses st)
    /\ st_i st' = i.
Proof.
  unfold scan_layer. intros Hscan.
  apply bind_Ok in Hscan as (o & h_ & Hr & Hscan). apply read_Ok in Hr as [Hl ->].
  apply bind_Ok in Hscan as ([i name] & h_ & Hn & Hscan).
  apply lift_Ok in Hn as [Hn ->]. cbn beta iota in Hscan.
  apply bind_Ok in Hscan as (layer' & h0 & Ha & Hscan).
  apply bind_Ok in Hscan as ([model1 closses] & h1 & Hc & Hscan).
  cbn beta iota in Hscan.
  apply bind_Ok in Hscan as ([model2 slosses] & h2 & Hs & Hscan).
  cbn beta iota in Hscan.
  apply ret_Ok in Hscan as [-> ->]. simpl.
  exists o, i, name, layer', h0, h1, model1.
  repeat (split; [assumption|]).
  split; [|split; [|split; [|reflexivity]]].
  - destruct (class_of o); inv_M; auto.
  - destruct (py_in name cl); inv_M; simplify_eq; [|auto].
    unfold ContentLoss_init in *. inv_M. eauto 10.
  - destruct (py_in name sl); inv_M; simplify_eq; [|auto].
    unfold StyleLoss_init in *. inv_M. eauto 10.
Qed.

Lemma call_on_evolves (S : loc -> Prop) (model : Sequential) (img : loc) h y h' :
  call_on model img h = Ok (y, h') ->
  Forall (fun e => S (snd e)) model ->
  evolves S h h'.
Proof.
  unfold call_on, read_tensor. intros Hc HS. inv_M. case_M.
  eapply Sequential_forward_evolves; eassumption.
Qed.

Lemma call_on_length (model : Sequential) (img : loc) h y h' :
  call_on model img h = Ok (y, h') -> length h' = length h.
Proof.
  unfold call_on, read_tensor. intros Hc. inv_M. case_M.
  eapply Sequential_forward_length; eassumption.
Qed.

End ScanInversion.

Section LossModuleTheorems.
Context {A P : Type} `{Scalar A} `{Framework A P}.
Local Open Scope M_scope.
Implicit Types (h : heap A P) (x : tensor A).



End LossModuleTheorems.




(** ** The scan and the structure of the rebuilt network *)

Section AddModuleFacts.
Context {V : Type}.
Implicit Types (ms : list (string * V)) (name : string).

Lemma add_module_fresh name (m : V) ms :
  ~ In name (map fst ms) -> add_module name m ms = ms ++ [(name, m)].
Proof.
  induction ms as [|[k v] rest IH]; intros Hn; simpl; [reflexivity|].
  destruct (String.eqb k name) eqn:E.
  - apply String.eqb_eq in E. subst. simpl in Hn. tauto.
  - rewrite IH; [reflexivity|]. simpl in Hn. tauto.
Qed.

Lemma add_module_keys name (m : V) ms :
  map fst (add_module name m ms)
  = if existsb (String.eqb name) (map fst ms) then map fst ms
    else map fst ms ++ [name].
Proof.
  induction ms as [|[k v] rest IH]; simpl; [reflexivity|].
  rewrite (String.eqb_sym name k).
  destruct (String.eqb k name) eqn:E; simpl; [reflexivity|].
  rewrite IH. destruct (existsb _ _); reflexivity.
Qed.

Lemma Forall_add_module (Q : V -> Prop) name (m : V) ms :
  Forall (fun e => Q (snd e)) ms -> Q m ->
  Forall (fun e => Q (snd e)) (add_module name m ms).
Proof.
  intros Hms Hm. induction ms as [|[k v] rest IH]; simpl.
  - constructor; [assumption|constructor].
  - apply Forall_cons in Hms. destruct Hms as [Hv Hrest].
    destruct (String.eqb k name); constructor; auto.
Qed.

Lemma add_module_values name (m : V) ms (v : V) :
  In v (map snd (add_module name m ms)) -> v = m \/ In v (map snd ms).
Proof.
  induction ms as [|[k w] rest IH]; simpl.
  - intros [<-|[]]. auto.
  - destruct (String.eqb k name); simpl; intros [<-|Hin]; auto.
    destruct (IH Hin); auto.
Qed.

End AddModuleFacts.

Section KeyedFacts.
Context {A P : Type}.
Implicit Types (h : heap A P) (model : Sequential).

Lemma keyed_add_module h (name : string) (l : loc) model :
  keyed h (add_module name l model)
  = add_module name (entry_of name (h !! l)) (keyed h model).
Proof.
  induction model as [|[k v] rest IH]; simpl; [reflexivity|].
  destruct (String.eqb k name) eqn:E; simpl.
  - apply String.eqb_eq in E. subst. reflexivity.
  - fold (keyed h rest). fold (keyed h (add_module name l rest)).
    rewrite IH. reflexivity.
Qed.

Lemma keyed_ext h h' model :
  (forall e, In e model -> h' !! snd e = h !! snd e) ->
  keyed h' model = keyed h model.
Proof.
  intros Heq. unfold keyed. apply map_ext_in. intros e He.
  rewrite (Heq e He). reflexivity.
Qed.

Lemma keyed_app h (ext : heap A P) model :
  Forall (fun e => snd e < length h) model ->
  keyed (h ++ ext) model = keyed h model.
Proof.
  intros Hv. apply keyed_ext. intros e He.
  apply lookup_app_l. rewrite Forall_forall in Hv.
  apply Hv. apply list_elem_of_In. assumption.
Qed.

Lemma describe_keyed h model : describe h model = map snd (keyed h model).
Proof. unfold describe, keyed. rewrite map_map. reflexivity. Qed.

Lemma keyed_keys h model : map fst (keyed h model) = map fst model.
Proof. unfold keyed. rewrite map_map. reflexivity. Qed.

End KeyedFacts.

Section ScanFacts.
Context {A P : Type} `{Scalar A} `{Framework A P}.
Local Open Scope M_scope.
Implicit Types (h : heap A P) (model : Sequential) (S : loc -> Prop).

Lemma layer_name_layer (o : obj A P) (i0 i : nat) (name : string) :
  layer_name (class_of o) i0 = Ok (i, name) ->
  exists c inplace p, o = OLayer c inplace p /\ recognized c = true.
Proof.
  destruct o as [c inplace p| | | |]; simpl; try discriminate.
  intros Hn. exists c, inplace, p. split; [reflexivity|].
  destruct c; simpl in *; [reflexivity..|discriminate].
Qed.

(** Adding a loss module after a forward pass of the model. *)
Lemma loss_branch S model (img : loc) h0 (y : tensor A) h0' (o_new : obj A P)
    (lname : string) :
  call_on model img h0 = Ok (y, h0') ->
  Forall (fun e => snd e < length h0) model ->
  Forall (fun e => S (snd e)) model ->
  S (length h0') ->
  mse_ok o_new ->
  evolves S h0 (h0' ++ [o_new])
  /\ Forall (fun e => snd e < length (h0' ++ [o_new]))
       (add_module lname (length h0') model)
  /\ Forall (fun e => S (snd e)) (add_module lname (length h0') model)
  /\ keyed (h0' ++ [o_new]) (add_module lname (length h0') model)
     = add_module lname (entry_of lname (Some o_new)) (keyed h0 model).
Proof.
  intros Hc Hv HS Hnew Hok.
  pose proof (call_on_evolves S _ _ _ _ _ Hc HS) as Hev.
  pose proof (call_on_length _ _ _ _ _ Hc) as Hlen.
  split; [eapply evolves_trans; [eassumption|apply evolves_alloc; assumption]|].
  assert (Hv' : Forall (fun e => snd e < length h0') model) by (rewrite Hlen; assumption).
  split; [|split].
  - apply (Forall_add_module (fun l => l < length (h0' ++ [o_new]))).
    + eapply Forall_impl; [exact Hv'|]. simpl. intros e He.
      rewrite List.length_app. simpl. lia.
    + rewrite List.length_app. simpl. lia.
  - apply (Forall_add_module S); assumption.
  - rewrite keyed_add_module, list_lookup_middle by reflexivity.
    rewrite keyed_app by assumption.
    rewrite (evolves_keyed S h0 h0' model Hev Hv). reflexivity.
Qed.

(** One iteration of the scan adds, by name and kind, what [shape_layer]
    adds; it writes to the modules of the model and to new objects only. *)
Lemma scan_layer_sim S (ci si : loc) (cl sl : list string) st (layer : loc) h st' h' :
  scan_layer ci si cl sl st layer h = Ok (st', h') ->
  Forall (fun e => snd e < length h) (st_model st) ->
  Forall (fun e => S (snd e)) (st_model st) ->
  S layer ->
  (forall l, length h <= l -> S l) ->
  shape_layer cl sl (shape_of h st) (class_at h layer) = Ok (shape_of h' st')
  /\ Forall (fun e => snd e < length h') (st_model st')
  /\ Forall (fun e => S (snd e)) (st_model st')
  /\ evolves S h h'.
Proof.
  intros Hscan Hv HS Hlayer Hnew.
  apply scan_layer_Ok in Hscan
    as (o & i & name & layer' & h0 & h1 & model1 & Hl & Hn & Hre & Hc & Hs & Hi).
  destruct (layer_name_layer _ _ _ _ Hn) as (c & inplace & p & -> & Hrec).
  simpl in Hn, Hre.
  assert (Hcls : class_at h layer = c) by (unfold class_at; rewrite Hl; reflexivity).
  (* the layer goes into the model *)
  assert (HA : evolves S h h0 /\ length h <= length h0 /\ layer' < length h0
               /\ S layer' /\ entry_of name (h0 !! layer') = ELayer name c).
  { destruct c; try discriminate Hrec; destruct Hre as [-> ->].
    2: { split; [apply evolves_alloc; exact I|].
         rewrite List.length_app. simpl.
         split; [lia|]. split; [lia|]. split; [apply Hnew; lia|].
         rewrite list_lookup_middle by reflexivity. reflexivity. }
    all: split; [apply evolves_refl|]; split; [lia|];
         split; [eauto using lookup_lt_Some|]; split; [assumption|];
         rewrite Hl; reflexivity. }
  destruct HA as (Hev0 & Hlen0 & Hlt & HSl & Hentry).
  set (m0 := add_module name layer' (st_model st)) in *.
  assert (Hv0 : Forall (fun e => snd e < length h0) m0).
  { apply (Forall_add_module (fun l => l < length h0)); [|assumption].
    eapply Forall_impl; [exact Hv|]. simpl. intros. lia. }
  assert (HS0 : Forall (fun e => S (snd e)) m0)
    by (apply (Forall_add_module S); assumption).
  assert (Hk0 : keyed h0 m0 = add_module name (ELayer name c) (keyed h (st_model st))).
  { unfold m0. rewrite keyed_add_module, Hentry.
    rewrite (evolves_keyed S h h0 _ Hev0 Hv). reflexivity. }
  (* the content loss *)
  assert (HB : evolves S h0 h1
               /\ Forall (fun e => snd e < length h1) model1
               /\ Forall (fun e => S (snd e)) model1
               /\ keyed h1 model1
                  = (if py_in name cl
                     then add_module ("content_loss_" ++ fmt i)%string EContentLoss
                            (keyed h0 m0)
                     else keyed h0 m0)
               /\ length (st_content_losses st')
                  = (if py_in name cl then Datatypes.S (length (st_content_losses st))
                     else length (st_content_losses st))).
  { destruct (py_in name cl).
    - destruct Hc as (target & h0' & Hcall & -> & -> & ->).
      destruct (loss_branch S m0 ci h0 target h0' (OContentLoss target None)
                  ("content_loss_" ++ fmt i)%string Hcall Hv0 HS0) as (? & ? & ? & ?).
      + apply Hnew. rewrite (call_on_length _ _ _ _ _ Hcall). lia.
      + exact I.
      + repeat (split; [assumption|]).
        rewrite List.length_app. simpl. lia.
    - destruct Hc as (-> & -> & ->).
      split; [apply evolves_refl|].
      repeat (split; [first [assumption|reflexivity]|]). reflexivity. }
  destruct HB as (Hev1 & Hv1 & HS1 & Hk1 & Hlc).
  (* the style loss *)
  assert (HC : evolves S h1 h'
               /\ Forall (fun e => snd e < length h') (st_model st')
               /\ Forall (fun e => S (snd e)) (st_model st')
               /\ keyed h' (st_model st')
                  = (if py_in name sl
                     then add_module ("style_loss_" ++ fmt i)%string EStyleLoss
                            (keyed h1 model1)
                     else keyed h1 model1)
               /\ length (st_style_losses st')
                  = (if py_in name sl then Datatypes.S (length (st_style_losses st))
                     else length (st_style_losses st))).
  { destruct (py_in name sl).
    - destruct Hs as (tf & h1' & G & Hcall & HG & -> & -> & ->).
      destruct (loss_branch S model1 si h1 tf h1' (OStyleLoss G None)
                  ("style_loss_" ++ fmt i)%string Hcall Hv1 HS1) as (? & ? & ? & ?).
      + apply Hnew. rewrite (call_on_length _ _ _ _ _ Hcall).
        pose proof (evolves_length _ _ _ Hev1).
        pose proof (evolves_length _ _ _ Hev0). lia.
      + exact I.
      + repeat (split; [assumption|]).
        rewrite List.length_app. simpl. lia.
    - destruct Hs as (-> & -> & ->).
      split; [apply evolves_refl|].
      repeat (split; [first [assumption|reflexivity]|]). reflexivity. }
  destruct HC as (Hev2 & Hv2 & HS2 & Hk2 & Hls).
  split; [|split; [assumption|split; [assumption|]]].
  - unfold shape_layer, shape_of. simpl. rewrite Hcls, Hn. simpl.
    rewrite Hk2, Hk1, Hk0, Hlc, Hls, Hi.
    destruct (py_in name cl), (py_in name sl); reflexivity.
  - eauto using evolves_trans.
Qed.

End ScanFacts.

Section TrimFacts.

Lemma drop_after_last_loss_snoc_loss (es : list entry) (e : entry) :
  entry_is_loss e = true -> drop_after_last_loss (es ++ [e]) = es ++ [e].
Proof.
  intros He. induction es as [|a es IH]; simpl; [reflexivity|].
  rewrite existsb_app. simpl. rewrite He. simpl. rewrite orb_true_r.
  rewrite IH. reflexivity.
Qed.

Lemma drop_after_last_loss_snoc_other (es : list entry) (e : entry) :
  entry_is_loss e = false -> es <> [] ->
  drop_after_last_loss (es ++ [e]) = drop_after_last_loss es.
Proof.
  intros He. induction es as [|a es IH]; intros Hne; [congruence|]. simpl.
  rewrite existsb_app. simpl. rewrite He, !orb_false_r.
  destruct (existsb entry_is_loss es) eqn:Hex; [|reflexivity].
  rewrite IH; [reflexivity|]. intros ->. discriminate.
Qed.

Lemma count_drop_after_last_loss (f : entry -> bool) (es : list entry) :
  (forall e, f e = true -> entry_is_loss e = true) ->
  length (List.filter f (drop_after_last_loss es)) = length (List.filter f es).
Proof.
  intros Hf. induction es as [|a es IH]; simpl; [reflexivity|].
  destruct (existsb entry_is_loss es) eqn:Hex.
  - simpl. destruct (f a); simpl; rewrite IH; reflexivity.
  - simpl. replace (List.filter f es) with (@nil entry); [reflexivity|].
    symmetry. clear IH. induction es as [|b es IH]; [reflexivity|].
    simpl in Hex. apply orb_false_elim in Hex. destruct Hex as [Hb Hes].
    simpl. destruct (f b) eqn:Hfb; [|auto].
    rewrite (Hf b Hfb) in Hb. discriminate.
Qed.

Lemma range_down_S (n : nat) : range_down (S n) = n :: range_down n.
Proof. unfold range_down. rewrite seq_S, rev_app_distr. reflexivity. Qed.

Lemma range_down_lt (n j : nat) : In j (range_down n) -> j < n.
Proof. unfold range_down. rewrite <- in_rev, in_seq. lia. Qed.

Context {A P : Type}.
Implicit Types (h : heap A P) (model : Sequential).

Lemma trim_loop_app h model (ext : Sequential) (range : list nat) (i : nat) :
  Forall (fun j => j < length model) range ->
  trim_loop h (model ++ ext) range i = trim_loop h model range i.
Proof.
  revert i. induction range as [|j rest IH]; intros i Hr; simpl; [reflexivity|].
  apply Forall_cons in Hr. destruct Hr as [Hj Hrest].
  rewrite lookup_app_l by assumption.
  destruct (model !! j) as [[n l]|]; [|auto].
  destruct (h !! l) as [o|]; [|auto].
  destruct (is_loss o); auto.
Qed.

Lemma trim_loop_in h model (range : list nat) (i : nat) :
  range <> [] -> In (trim_loop h model range i) range.
Proof.
  revert i. induction range as [|j rest IH]; intros i Hne; [congruence|].
  simpl. destruct rest as [|j' rest'].
  - simpl. left. destruct (model !! j) as [[n l]|]; [|reflexivity].
    destruct (h !! l) as [o|]; [|reflexivity]. destruct (is_loss o); reflexivity.
  - assert (Hin : forall i', In (trim_loop h model (j' :: rest') i') (j :: j' :: rest'))
      by (intros; right; apply IH; discriminate).
    destruct (model !! j) as [[n l]|]; [|apply Hin].
    destruct (h !! l) as [o|]; [|apply Hin].
    destruct (is_loss o); [left; reflexivity|apply Hin].
Qed.

Lemma entry_is_loss_entry_of (n : string) (o : option (obj A P)) :
  entry_is_loss (entry_of n o)
  = match o with Some o => match o with
                           | OContentLoss _ _ | OStyleLoss _ _ => true
                           | _ => false
                           end
               | None => false end.
Proof. destruct o as [[]|]; reflexivity. Qed.

(** The loop that trims the model keeps the modules up to the last loss
    module, and the first module when there is no loss module. *)
Lemma trim_describe h model (i : nat) :
  model <> [] ->
  describe h (take (S (trim_loop h model (range_down (length model)) i)) model)
  = drop_after_last_loss (describe h model).
Proof.
  revert i. induction model as [|[n l] m IH] using rev_ind; intros i Hne; [congruence|].
  rewrite List.length_app. simpl. rewrite Nat.add_1_r, range_down_S. simpl.
  rewrite list_lookup_middle by reflexivity.
  unfold describe at 2. rewrite map_app. simpl. fold (describe h m).
  assert (Hl : entry_is_loss (entry_of n (h !! l))
               = match h !! l with Some o => is_loss o | None => false end).
  { rewrite entry_is_loss_entry_of. destruct (h !! l) as [[]|]; reflexivity. }
  assert (Hother :
    entry_is_loss (entry_of n (h !! l)) = false ->
    describe h (take (S (trim_loop h (m ++ [(n, l)]) (range_down (length m)) (length m)))
                  (m ++ [(n, l)]))
    = drop_after_last_loss (describe h m ++ [entry_of n (h !! l)])).
  { intros He. rewrite trim_loop_app
      by (apply Forall_forall; intros j Hj; apply range_down_lt;
          apply list_elem_of_In; assumption).
    destruct m as [|x m'] eqn:Hm; [reflexivity|]. rewrite <- Hm in *.
    assert (Hmne : m <> []) by (rewrite Hm; discriminate).
    assert (Hlt : trim_loop h m (range_down (length m)) (length m) < length m).
    { apply range_down_lt, trim_loop_in. rewrite Hm. simpl.
      rewrite range_down_S. discriminate. }
    rewrite take_app_le by lia.
    rewrite IH by assumption.
    rewrite drop_after_last_loss_snoc_other; [reflexivity|assumption|].
    rewrite Hm. discriminate. }
  destruct (h !! l) as [o|] eqn:Ho.
  - destruct (is_loss o) eqn:Hlo.
    + rewrite drop_after_last_loss_snoc_loss by assumption.
      rewrite take_ge by (rewrite List.length_app; simpl; lia).
      unfold describe. rewrite map_app. simpl. rewrite Ho. reflexivity.
    + apply Hother. assumption.
  - apply Hother. assumption.
Qed.

End TrimFacts.

Section ScanLoopFacts.
Context {A P : Type} `{Scalar A} `{Framework A P}.
Local Open Scope M_scope.
Implicit Types (h : heap A P) (model : Sequential) (S : loc -> Prop).

Lemma evolves_class_at S h h' (l : loc) :
  evolves S h h' -> l < length h -> class_at h' l = class_at h l.
Proof.
  intros He Hl. destruct (lookup_lt_is_Some_2 h l Hl) as [o Ho].
  destruct (evolves_kind _ _ _ _ _ He Ho) as (o' & Ho' & Hk).
  unfold class_at. rewrite Ho, Ho'.
  destruct o, o'; simpl in Hk; try contradiction; try reflexivity.
  destruct Hk as [-> _]. reflexivity.
Qed.

Lemma shape_layer_nonempty (cl sl : list string) st c st' :
  shape_layer cl sl st c = Ok st' -> sh_model st' <> [].
Proof.
  unfold shape_layer. destruct (layer_name c (sh_i st)) as [[i name]|]; [|discriminate].
  simpl.
  assert (Hadd : forall (V : Type) n (v : V) ms, add_module n v ms <> []).
  { intros V n v [|[k w] ms]; simpl; [discriminate|].
    destruct (String.eqb k n); discriminate. }
  destruct (py_in name cl), (py_in name sl); intros [= <-]; simpl; apply Hadd.
Qed.

Lemma shape_layers_nonempty (cl sl : list string) cs st st' :
  shape_layers cl sl cs st = Ok st' -> sh_model st <> [] -> sh_model st' <> [].
Proof.
  revert st. induction cs as [|c cs IH]; intros st Hs Hne; simpl in Hs.
  - injection Hs as <-. assumption.
  - destruct (shape_layer cl sl st c) as [st1|] eqn:H1; [|discriminate]. simpl in Hs.
    eapply IH; [eassumption|]. eapply shape_layer_nonempty. eassumption.
Qed.

Lemma scan_layers_sim S (ci si : loc) (cl sl : list string) (layers : list loc)
    st h st' h' :
  scan_layers ci si cl sl layers st h = Ok (st', h') ->
  Forall (fun e => snd e < length h) (st_model st) ->
  Forall (fun e => S (snd e)) (st_model st) ->
  Forall (fun l => l < length h /\ S l) layers ->
  (forall l, length h <= l -> S l) ->
  shape_layers cl sl (map (class_at h) layers) (shape_of h st) = Ok (shape_of h' st')
  /\ Forall (fun e => snd e < length h') (st_model st')
  /\ Forall (fun e => S (snd e)) (st_model st')
  /\ evolves S h h'.
Proof.
  revert st h. induction layers as [|layer rest IH]; intros st h Hscan Hv HS Hl Hnew;
    simpl in Hscan.
  - inv_M. simpl. auto using evolves_refl.
  - apply bind_Ok in Hscan as (st1 & h1 & Hstep & Hscan).
    apply Forall_cons in Hl. destruct Hl as [[Hlt HSl] Hrest].
    destruct (scan_layer_sim S _ _ _ _ _ _ _ _ _ Hstep Hv HS HSl Hnew)
      as (Hsh & Hv1 & HS1 & Hev1).
    pose proof (evolves_length _ _ _ Hev1) as Hlen.
    destruct (IH st1 h1 Hscan Hv1 HS1) as (Hsh2 & Hv2 & HS2 & Hev2).
    + eapply Forall_impl; [exact Hrest|]. simpl. intros l [? ?]. split; [lia|assumption].
    + intros l Hl. apply Hnew. lia.
    + split; [|split; [assumption|split; [assumption|eauto using evolves_trans]]].
      simpl. rewrite Hsh. simpl.
      rewrite <- Hsh2. f_equal. apply map_ext_in. intros l Hin.
      symmetry. eapply evolves_class_at; [eassumption|].
      rewrite Forall_forall in Hrest. apply list_elem_of_In in Hin.
      apply (Hrest l Hin).
Qed.

(** *** The deep copy *)

Lemma lookup_seq_app (h objs : heap A P) :
  map (fun l => (h ++ objs) !! l) (seq (length h) (length objs)) = map Some objs.
Proof.
  revert h. induction objs as [|o objs IH]; intros h; [reflexivity|].
  simpl. rewrite list_lookup_middle by reflexivity. f_equal.
  replace (h ++ o :: objs) with ((h ++ [o]) ++ objs) by (rewrite <- app_assoc; reflexivity).
  replace (Datatypes.S (length h)) with (length (h ++ [o]))
    by (rewrite List.length_app; simpl; lia).
  apply IH.
Qed.

Lemma existsb_eqb_In (l : loc) (ls : list loc) :
  existsb (Nat.eqb l) ls = true <-> In l ls.
Proof.
  rewrite existsb_exists. split.
  - intros (x & Hin & Heq). apply Nat.eqb_eq in Heq. subst. assumption.
  - intros Hin. exists l. split; [assumption|apply Nat.eqb_refl].
Qed.

Lemma deepcopy_from_Ok (memo : list (loc * loc)) (ms ms' : Sequential) h h' :
  deepcopy_from memo ms h = Ok (ms', h') ->
  Forall (fun e => snd e < length h) ms ->
  Forall (fun p => snd p < length h) memo ->
  exists objs,
    h' = h ++ objs
    /\ Forall2 (fun l o => In l (map snd ms) /\ h !! l = Some o)
         (children_from (map fst memo) ms) objs
    /\ children_from (map snd memo) ms' = seq (length h) (length objs).
Proof.
  revert memo ms' h h'. induction ms as [|[n l] rest IH]; intros memo ms' h h' Hd Hv Hm;
    simpl in Hd.
  - inv_M. exists []. rewrite app_nil_r. simpl. auto.
  - apply Forall_cons in Hv. destruct Hv as [Hl Hrest]. simpl in Hl.
    destruct (list_find (fun e => fst e =? l) memo) as [[k [l0 l']]|] eqn:Hfind.
    + (* the module has been copied already *)
      apply bind_Ok in Hd as (rest' & h1 & Hrec & Hd). inv_M.
      apply list_find_Some in Hfind. destruct Hfind as (Hk & Heq & _).
      simpl in Heq. apply Is_true_true, Nat.eqb_eq in Heq. subst l0.
      destruct (IH memo rest' h h1 Hrec Hrest Hm) as (objs & -> & Hobjs & Hch).
      exists objs. split; [reflexivity|]. simpl.
      assert (Hin1 : existsb (Nat.eqb l) (map fst memo) = true).
      { apply existsb_eqb_In, in_map_iff. exists (l, l'). split; [reflexivity|].
        apply list_elem_of_In, list_elem_of_lookup. eauto. }
      assert (Hin2 : existsb (Nat.eqb l') (map snd memo) = true).
      { apply existsb_eqb_In, in_map_iff. exists (l, l'). split; [reflexivity|].
        apply list_elem_of_In, list_elem_of_lookup. eauto. }
      rewrite Hin1, Hin2. split; [|assumption].
      eapply Forall2_impl; [exact Hobjs|]. simpl. tauto.
    + (* a new module: it is copied to the end of the store *)
      apply bind_Ok in Hd as (o & h_ & Hr & Hd). apply read_Ok in Hr as [Ho ->].
      apply bind_Ok in Hd as (l' & h1 & Ha & Hd). apply alloc_Ok in Ha as [-> ->].
      apply bind_Ok in Hd as (rest' & h2 & Hrec & Hd). inv_M.
      destruct (IH ((l, length h) :: memo) rest' (h ++ [o]) h2 Hrec)
        as (objs & -> & Hobjs & Hch).
      * eapply Forall_impl; [exact Hrest|]. simpl. intros e He.
        rewrite List.length_app. simpl. lia.
      * constructor; [simpl; rewrite List.length_app; simpl; lia|].
        eapply Forall_impl; [exact Hm|]. simpl. intros e He.
        rewrite List.length_app. simpl. lia.
      * exists (o :: objs). split; [rewrite <- app_assoc; reflexivity|]. simpl.
        assert (Hin1 : existsb (Nat.eqb l) (map fst memo) = false).
        { apply not_true_is_false. intros Hin. apply existsb_eqb_In, in_map_iff in Hin.
          destruct Hin as ([a b] & Ha & Hin). simpl in Ha. subst a.
          apply list_find_None in Hfind. rewrite Forall_forall in Hfind.
          apply list_elem_of_In in Hin. apply (Hfind _ Hin). simpl.
          apply Is_true_true, Nat.eqb_refl. }
        assert (Hin2 : existsb (Nat.eqb (length h)) (map snd memo) = false).
        { apply not_true_is_false. intros Hin. apply existsb_eqb_In, in_map_iff in Hin.
          destruct Hin as ([a b] & Hb & Hin). simpl in Hb. subst b.
          rewrite Forall_forall in Hm. apply list_elem_of_In in Hin.
          specialize (Hm _ Hin). simpl in Hm. lia. }
        rewrite Hin1, Hin2. split.
        -- constructor; [auto|].
           eapply Forall2_impl; [exact Hobjs|]. simpl. intros l0 o0 [Hin Hl0].
           split; [auto|].
           rewrite lookup_app_l in Hl0; [assumption|].
           rewrite Forall_forall in Hrest.
           apply in_map_iff in Hin. destruct Hin as (e & <- & Hin).
           apply list_elem_of_In in Hin. apply (Hrest e Hin).
        -- simpl in Hch. rewrite Hch. rewrite List.length_app. simpl.
           rewrite Nat.add_1_r. reflexivity.
Qed.

Lemma Forall2_lookup_Some h (ls : list loc) (objs : heap A P) (Q : loc -> Prop) :
  Forall2 (fun l o => Q l /\ h !! l = Some o) ls objs ->
  map (fun l => h !! l) ls = map Some objs.
Proof. induction 1 as [|l o ls objs [_ Hl] _ IH]; simpl; congruence. Qed.

Lemma deepcopy_Ok (cnn cnn' : Sequential) h h' :
  deepcopy cnn h = Ok (cnn', h') ->
  Forall (fun e => snd e < length h) cnn ->
  exists objs,
    h' = h ++ objs
    /\ children cnn' = seq (length h) (length objs)
    /\ map (class_at h') (children cnn') = child_classes h cnn.
Proof.
  intros Hd Hv. unfold deepcopy in Hd.
  destruct (deepcopy_from_Ok [] cnn cnn' h h' Hd Hv) as (objs & -> & Hobjs & Hch);
    [constructor|].
  exists objs. split; [reflexivity|]. split; [exact Hch|].
  unfold children, child_classes. simpl in Hch. rewrite Hch.
  unfold class_at.
  rewrite <- (map_map (fun l => (h ++ objs) !! l) class_opt), lookup_seq_app.
  rewrite <- (map_map (fun l => h !! l) class_opt).
  simpl in Hobjs. unfold children.
  rewrite (Forall2_lookup_Some _ _ _ _ Hobjs). reflexivity.
Qed.

Lemma Normalization_init_Ok (mean std : loc) h (norm : loc) h' :
  Normalization_init mean std h = Ok (norm, h') ->
  exists m s, norm = length h /\ h' = h ++ [ONormalization m s].
Proof.
  unfold Normalization_init, read_tensor. intros Hn. inv_M.
  repeat case_M. eauto.
Qed.

(** The losses of the scan are new objects. *)
Lemma scan_layers_losses (n0 : nat) (ci si : loc) (cl sl : list string)
    (layers : list loc) st h st' h' :
  scan_layers ci si cl sl layers st h = Ok (st', h') ->
  n0 <= length h ->
  Forall (fun m => n0 <= m < length h) (st_content_losses st ++ st_style_losses st) ->
  length h <= length h'
  /\ Forall (fun m => n0 <= m < length h') (st_content_losses st' ++ st_style_losses st').
Proof.
  revert st h. induction layers as [|layer rest IH]; intros st h Hscan Hn Hl;
    simpl in Hscan.
  - inv_M. auto.
  - apply bind_Ok in Hscan as (st1 & h1 & Hstep & Hscan).
    apply scan_layer_Ok in Hstep
      as (o & i & name & layer' & h0 & h2 & model1 & _ & _ & Hre & Hc & Hs & _).
    apply Forall_app in Hl. destruct Hl as [Hlc Hls].
    assert (Hh0 : length h <= length h0).
    { destruct (class_of o); destruct Hre as [_ ->]; try lia.
      rewrite List.length_app. lia. }
    assert (HB : length h0 <= length h2
                 /\ Forall (fun m => n0 <= m < length h2) (st_content_losses st1)).
    { destruct (py_in name cl).
      - destruct Hc as (t & h0' & Hcall & -> & _ & ->).
        apply call_on_length in Hcall. rewrite List.length_app. simpl. split; [lia|].
        apply Forall_app. split.
        + eapply Forall_impl; [exact Hlc|]. simpl. intros. lia.
        + constructor; [lia|constructor].
      - destruct Hc as (-> & _ & ->). split; [lia|].
        eapply Forall_impl; [exact Hlc|]. simpl. intros. lia. }
    destruct HB as [Hh2 Hlc1].
    assert (HC : length h2 <= length h1
                 /\ Forall (fun m => n0 <= m < length h1) (st_style_losses st1)).
    { destruct (py_in name sl).
      - destruct Hs as (t & h1' & G & Hcall & _ & -> & _ & ->).
        apply call_on_length in Hcall. rewrite List.length_app. simpl. split; [lia|].
        apply Forall_app. split.
        + eapply Forall_impl; [exact Hls|]. simpl. intros. lia.
        + constructor; [lia|constructor].
      - destruct Hs as (-> & _ & ->). split; [lia|].
        eapply Forall_impl; [exact Hls|]. simpl. intros. lia. }
    destruct HC as [Hh1 Hls1].
    destruct (IH st1 h1 Hscan) as [Hlen Hall]; [lia| |split; [lia|assumption]].
    apply Forall_app. split; [|assumption].
    eapply Forall_impl; [exact Hlc1|]. simpl. intros. lia.
Qed.

(** What [get_style_model_and_losses] returns, by names and kinds, and
    what it leaves unchanged. *)
Lemma get_style_model_and_losses_shape (cnn : Sequential)
    (mean std si ci : loc) (cl sl : list string) h model sls cls h' :
  get_style_model_and_losses cnn mean std si ci cl sl h = Ok ((model, sls, cls), h') ->
  Forall (fun e => snd e < length h) cnn ->
  exists st,
    shape_layers cl sl (child_classes h cnn) shape_init = Ok st
    /\ describe h' model = drop_after_last_loss (map snd (sh_model st))
    /\ length cls = sh_content st
    /\ length sls = sh_style st
    /\ (forall l, l < length h -> h' !! l = h !! l)
    /\ Forall (fun e => length h <= snd e < length h') model
    /\ Forall (fun m => length h <= m < length h'
                        /\ forall o, h' !! m = Some o -> mse_ok o) (cls ++ sls).
Proof.
  intros Hg Hv. unfold get_style_model_and_losses in Hg.
  apply bind_Ok in Hg as (cnn' & h1 & Hcopy & Hg).
  apply bind_Ok in Hg as (norm & h2 & Hnorm & Hg).
  apply bind_Ok in Hg as (st & h3 & Hscan & Hg).
  apply bind_Ok in Hg as (model' & h4 & Htrim & Hg).
  apply ret_Ok in Hg as [Heq ->]. injection Heq as -> -> ->.
  unfold trim in Htrim. injection Htrim as <- <-.
  destruct (deepcopy_Ok _ _ _ _ Hcopy Hv) as (objs & -> & Hch & Hcls).
  destruct (Normalization_init_Ok _ _ _ _ _ Hnorm) as (m & s & -> & ->).
  set (h2 := (h ++ objs) ++ [ONormalization m s]) in *.
  assert (Hlen2 : length h2 = length h + length objs + 1)
    by (unfold h2; rewrite !List.length_app; simpl; lia).
  destruct (scan_layers_sim (fun l => length h <= l) _ _ _ _ _ _ _ _ _ Hscan)
    as (Hsh & Hv3 & HS3 & Hev).
  - constructor; [simpl; rewrite List.length_app in *; lia|constructor].
  - constructor; [simpl; rewrite List.length_app; lia|constructor].
  - rewrite Hch. apply Forall_forall. intros l Hl.
    apply list_elem_of_In, in_seq in Hl. lia.
  - intros l Hl. lia.
  - exists (shape_of h3 st).
    assert (Hne : st_model st <> []).
    { intros Hnil. apply (shape_layers_nonempty _ _ _ _ _ Hsh); [discriminate|].
      simpl. rewrite Hnil. reflexivity. }
    split; [|split; [|split; [reflexivity|split; [reflexivity|split; [|split]]]]].
    + rewrite <- Hsh. f_equal.
      * rewrite <- Hcls. apply map_ext_in. intros l Hl.
        unfold class_at, h2. rewrite (lookup_app_l (h ++ objs)); [reflexivity|].
        rewrite Hch in Hl. apply in_seq in Hl. rewrite List.length_app. lia.
      * unfold shape_of, shape_init. simpl. unfold h2.
        rewrite list_lookup_middle by reflexivity. reflexivity.
    + rewrite trim_describe by assumption. simpl. rewrite describe_keyed. reflexivity.
    + intros l Hl. rewrite (evolves_frame _ _ _ l Hev) by lia.
      unfold h2. rewrite <- app_assoc. apply lookup_app_l. assumption.
    + apply Forall_take. apply Forall_forall. intros e He.
      rewrite Forall_forall in Hv3, HS3. split; [apply (HS3 e He)|apply (Hv3 e He)].
    + destruct (scan_layers_losses (length h2) _ _ _ _ _ _ _ _ _ Hscan) as [_ Hl];
        [lia|constructor|].
      eapply Forall_impl; [exact Hl|]. simpl. intros k [Hk1 Hk2].
      split; [lia|]. intros o Ho. destruct Hev as (_ & _ & Hnew).
      destruct (Hnew k o Ho) as [Hold|Hok]; [|assumption].
      apply lookup_lt_Some in Hold. lia.
Qed.

End ScanLoopFacts.

(** ** Names *)

Section NameFacts.

Lemma fmt_inj (a b : nat) : fmt a = fmt b -> a = b.
Proof.
  unfold fmt. intros Heq.
  apply (f_equal NilEmpty.uint_of_string) in Heq.
  rewrite !NilEmpty.usu in Heq. injection Heq as Heq.
  apply (f_equal Nat.of_uint) in Heq.
  rewrite !DecimalNat.Unsigned.of_to in Heq. assumption.
Qed.

Lemma fmt_eqb (a b : nat) : String.eqb (fmt a) (fmt b) = (a =? b).
Proof.
  destruct (Nat.eqb_spec a b) as [->|Hne].
  - apply String.eqb_refl.
  - apply String.eqb_neq. intros Heq. apply Hne, fmt_inj. assumption.
Qed.

Lemma layer_name_spec (c : module_class) (i i' : nat) (name : string) :
  layer_name c i = Ok (i', name) ->
  exists p, kind_prefix c = Some p
            /\ name = (p ++ fmt i')%string
            /\ i' = (if is_conv c then S i else i).
Proof.
  destruct c; simpl; intros [= <- <-]; eauto.
Qed.

Lemma layer_name_recognized (c : module_class) (i : nat) :
  recognized c = true -> exists i' name, layer_name c i = Ok (i', name).
Proof. destruct c; simpl; intros Hr; try discriminate; eauto. Qed.

Lemma layer_name_unrecognized (n : string) (i : nat) :
  layer_name (OtherClass n) i = Raise (RuntimeError ("Unrecognized layer: " ++ n)%string).
Proof. reflexivity. Qed.

Lemma convs_seen_snoc (cs : list module_class) (c : module_class) :
  convs_seen (cs ++ [c]) = (if is_conv c then S (convs_seen cs) else convs_seen cs).
Proof.
  unfold convs_seen. rewrite List.filter_app, List.length_app. simpl.
  destruct (is_conv c); simpl; lia.
Qed.

Lemma spec_layer_name_middle (done rest : list module_class) (c : module_class)
    (i' : nat) (name : string) :
  layer_name c (convs_seen done) = Ok (i', name) ->
  spec_layer_name (done ++ c :: rest) (length done) = Some name
  /\ convs_seen (take (S (length done)) (done ++ c :: rest)) = i'.
Proof.
  intros Hn. apply layer_name_spec in Hn. destruct Hn as (p & Hp & -> & ->).
  assert (Htake : take (S (length done)) (done ++ c :: rest) = done ++ [c]).
  { rewrite take_app, take_ge by lia.
    replace (S (length done) - length done) with 1 by lia. reflexivity. }
  unfold spec_layer_name.
  rewrite list_lookup_middle by reflexivity. rewrite Hp, Htake, convs_seen_snoc.
  split; reflexivity.
Qed.

(** Every name the scan gives starts with a letter. *)
Lemma layer_name_not_0 (c : module_class) (i i' : nat) (name : string) :
  layer_name c i = Ok (i', name) -> name <> "0".
Proof. destruct c; simpl; intros [= <- <-]; discriminate. Qed.

End NameFacts.

Section ShapeFacts.
Implicit Types (cl sl : list string) (cs : list module_class) (st : shape_state).

(** The scan completes on names and kinds exactly when every child is of
    one of the four kinds. *)
Lemma shape_layer_recognized cl sl st c :
  recognized c = true -> exists st', shape_layer cl sl st c = Ok st'.
Proof.
  intros Hr. destruct (layer_name_recognized c (sh_i st) Hr) as (i & name & Hn).
  unfold shape_layer. rewrite Hn. simpl.
  destruct (py_in name cl), (py_in name sl); eauto.
Qed.

Lemma shape_layers_recognized cl sl cs st :
  Forall (fun c => recognized c = true) cs ->
  exists st', shape_layers cl sl cs st = Ok st'.
Proof.
  revert st. induction cs as [|c cs IH]; intros st Hr; simpl; [eauto|].
  apply Forall_cons in Hr. destruct Hr as [Hc Hcs].
  destruct (shape_layer_recognized cl sl st c Hc) as (st1 & ->). simpl. auto.
Qed.

Lemma shape_layers_Ok_recognized cl sl cs st st' :
  shape_layers cl sl cs st = Ok st' -> Forall (fun c => recognized c = true) cs.
Proof.
  revert st. induction cs as [|c cs IH]; intros st Hs; simpl in Hs; [constructor|].
  destruct (shape_layer cl sl st c) as [st1|] eqn:H1; [|discriminate]. simpl in Hs.
  constructor; [|eauto].
  unfold shape_layer in H1. destruct c; simpl in *; try reflexivity. discriminate.
Qed.

Lemma add_fresh_step {V : Type} (ms : list (string * V)) (name : string) (v : V)
    (R : list string) :
  NoDup (map fst ms ++ name :: R) ->
  add_module name v ms = ms ++ [(name, v)]
  /\ NoDup (map fst (ms ++ [(name, v)]) ++ R).
Proof.
  intros Hnd. split.
  - apply add_module_fresh. intros Hin.
    apply NoDup_app in Hnd. destruct Hnd as (_ & Hdisj & _).
    apply (Hdisj name); [apply list_elem_of_In; assumption|]. left.
  - rewrite map_app. simpl. rewrite <- app_assoc. simpl. assumption.
Qed.

(** With names that are pairwise distinct, the scan appends: the modules
    are the ones the description lists, in its order. *)
Lemma shape_layer_spec cl sl (done rest : list module_class) (c : module_class)
    st st1 (R : list string) :
  shape_layer cl sl st c = Ok st1 ->
  sh_i st = convs_seen done ->
  NoDup (map fst (sh_model st)
         ++ spec_added_names_at cl sl (done ++ c :: rest) (length done) ++ R) ->
  sh_i st1 = convs_seen (done ++ [c])
  /\ map snd (sh_model st1)
     = map snd (sh_model st) ++ spec_entries_at cl sl (done ++ c :: rest) (length done)
  /\ NoDup (map fst (sh_model st1) ++ R).
Proof.
  intros H1 Hi Hnd. unfold shape_layer in H1.
  destruct (layer_name c (sh_i st)) as [[i name]|] eqn:Hn; [|discriminate].
  cbn [rbind] in H1. rewrite Hi in Hn.
  destruct (spec_layer_name_middle done rest c i name Hn) as [Hname Hconv].
  assert (Hlook : (done ++ c :: rest) !! length done = Some c)
    by (apply list_lookup_middle; reflexivity).
  assert (Hi1 : i = convs_seen (done ++ [c])).
  { rewrite convs_seen_snoc. apply layer_name_spec in Hn.
    destruct Hn as (_ & _ & _ & ->). reflexivity. }
  unfold spec_added_names_at in Hnd. rewrite Hname, Hconv in Hnd.
  unfold spec_entries_at. rewrite Hlook, Hname.
  set (cname := ("content_loss_" ++ fmt i)%string) in *.
  set (sname := ("style_loss_" ++ fmt i)%string) in *.
  cbn [app] in Hnd. rewrite <- !app_assoc in Hnd.
  destruct (add_fresh_step (sh_model st) name (ELayer name c) _ Hnd) as [E0 Hnd0].
  rewrite E0 in H1. clear E0 Hnd.
  destruct (py_in name cl), (py_in name sl); cbn [app] in Hnd0.
  - destruct (add_fresh_step _ cname EContentLoss _ Hnd0) as [E1 Hnd1].
    rewrite E1 in H1. clear E1 Hnd0.
    destruct (add_fresh_step _ sname EStyleLoss _ Hnd1) as [E2 Hnd2].
    rewrite E2 in H1. clear E2 Hnd1.
    injection H1 as <-. cbn [sh_i sh_model]. split; [assumption|]. split; [|assumption].
    rewrite !map_app. cbn [map snd app]. rewrite <- !app_assoc. reflexivity.
  - destruct (add_fresh_step _ cname EContentLoss _ Hnd0) as [E1 Hnd1].
    rewrite E1 in H1. clear E1 Hnd0.
    injection H1 as <-. cbn [sh_i sh_model]. split; [assumption|]. split; [|assumption].
    rewrite !map_app. cbn [map snd app]. rewrite <- !app_assoc. reflexivity.
  - destruct (add_fresh_step _ sname EStyleLoss _ Hnd0) as [E1 Hnd1].
    rewrite E1 in H1. clear E1 Hnd0.
    injection H1 as <-. cbn [sh_i sh_model]. split; [assumption|]. split; [|assumption].
    rewrite !map_app. cbn [map snd app]. rewrite <- !app_assoc. reflexivity.
  - injection H1 as <-. cbn [sh_i sh_model]. split; [assumption|]. split; [|assumption].
    rewrite !map_app. cbn [map snd app]. reflexivity.
Qed.

Lemma shape_layers_spec cl sl (rest done : list module_class) st st' :
  shape_layers cl sl rest st = Ok st' ->
  sh_i st = convs_seen done ->
  NoDup (map fst (sh_model st)
         ++ flat_map (spec_added_names_at cl sl (done ++ rest))
              (seq (length done) (length rest))) ->
  map snd (sh_model st')
  = map snd (sh_model st)
    ++ flat_map (spec_entries_at cl sl (done ++ rest)) (seq (length done) (length rest)).
Proof.
  revert done st. induction rest as [|c rest IH]; intros done st Hs Hi Hnd;
    cbn [shape_layers] in Hs.
  - injection Hs as <-. cbn [length seq flat_map]. rewrite app_nil_r. reflexivity.
  - destruct (shape_layer cl sl st c) as [st1|] eqn:H1; [|discriminate].
    cbn [rbind] in Hs.
    cbn [length seq flat_map] in Hnd |- *.
    destruct (shape_layer_spec cl sl done rest c st st1 _ H1 Hi Hnd)
      as (Hi1 & Hm1 & Hnd1).
    assert (Happ : done ++ c :: rest = (done ++ [c]) ++ rest)
      by (rewrite <- app_assoc; reflexivity).
    assert (Hlen : S (length done) = length (done ++ [c]))
      by (rewrite List.length_app; simpl; lia).
    rewrite Happ, Hlen in Hnd1 |- *.
    rewrite (IH (done ++ [c]) st1 Hs Hi1 Hnd1), Hm1, Happ.
    rewrite <- app_assoc. reflexivity.
Qed.

End ShapeFacts.

(** ** The default layer selections *)

Section DefaultLayers.
Implicit Types (m : list (string * entry)) (st : shape_state).

Lemma prefix_nil (x : string) : String.prefix "" x = true.
Proof. destruct x; reflexivity. Qed.

Lemma is_loss_key_content (x : string) : is_loss_key ("content_loss_" ++ x) = true.
Proof. unfold is_loss_key. simpl. rewrite prefix_nil. reflexivity. Qed.

Lemma is_loss_key_style (x : string) : is_loss_key ("style_loss_" ++ x) = true.
Proof. unfold is_loss_key. simpl. rewrite prefix_nil. reflexivity. Qed.

Lemma is_loss_key_layer (c : module_class) (p x : string) :
  kind_prefix c = Some p -> is_loss_key (p ++ x) = false.
Proof. destruct c; simpl; intros [= <-]; reflexivity. Qed.

Lemma In_add_module {V : Type} (name : string) (v : V) (ms : list (string * V))
    (k : string) (w : V) :
  In (k, w) (add_module name v ms) -> In (k, w) ms \/ (k, w) = (name, v).
Proof.
  induction ms as [|[k0 v0] rest IH]; simpl.
  - intros [Heq|[]]. auto.
  - destruct (String.eqb k0 name) eqn:E; simpl.
    + apply String.eqb_eq in E. subst. intros [Heq|Hin]; auto.
    + intros [Heq|Hin]; [auto|]. destruct (IH Hin); auto.
Qed.

Lemma count_add_module_other (f : entry -> bool) (name : string) (e : entry) m :
  f e = false ->
  (forall e', In (name, e') m -> f e' = false) ->
  count f (map snd (add_module name e m)) = count f (map snd m).
Proof.
  intros He Hm. unfold count. induction m as [|[k e0] rest IH]; simpl.
  - rewrite He. reflexivity.
  - destruct (String.eqb k name) eqn:E; simpl.
    + apply String.eqb_eq in E. subst.
      rewrite He, (Hm e0) by (left; reflexivity). reflexivity.
    + destruct (f e0); simpl; rewrite IH; auto.
      all: intros e' Hin; apply Hm; right; assumption.
Qed.

Lemma count_snoc (f : entry -> bool) m (k : string) (e : entry) :
  count f (map snd (m ++ [(k, e)])) = count f (map snd m) + (if f e then 1 else 0).
Proof.
  unfold count. rewrite map_app, List.filter_app, List.length_app. simpl.
  destruct (f e); reflexivity.
Qed.

(** Adding a layer keeps the loss modules as they are. *)
Lemma keys_ok_layer (i i' : nat) m (c : module_class) (p : string) :
  keys_ok i m -> i <= i' -> kind_prefix c = Some p ->
  let name := (p ++ fmt i')%string in
  keys_ok i' (add_module name (ELayer name c) m)
  /\ count is_content (map snd (add_module name (ELayer name c) m))
     = count is_content (map snd m)
  /\ count is_style (map snd (add_module name (ELayer name c) m))
     = count is_style (map snd m).
Proof.
  intros Hok Hle Hp name.
  assert (Hkey : is_loss_key name = false) by (eapply is_loss_key_layer; eassumption).
  assert (Hold : forall e', In (name, e') m -> entry_is_loss e' = false).
  { intros e' Hin. destruct (Hok _ _ Hin) as [-> _]. assumption. }
  split; [|split].
  - intros k e Hin. apply In_add_module in Hin. destruct Hin as [Hin|[= -> ->]].
    + destruct (Hok _ _ Hin) as [Hl Hj]. split; [assumption|].
      intros j Hj'. apply Hj. lia.
    + split; [simpl; congruence|]. intros j _. split; intros Heq.
      * rewrite Heq, is_loss_key_content in Hkey. discriminate.
      * rewrite Heq, is_loss_key_style in Hkey. discriminate.
  - apply count_add_module_other; [reflexivity|].
    intros e' Hin. specialize (Hold e' Hin). destruct e'; simpl in *; congruence.
  - apply count_add_module_other; [reflexivity|].
    intros e' Hin. specialize (Hold e' Hin). destruct e'; simpl in *; congruence.
Qed.

Lemma append_inj_l (p x y : string) : (p ++ x)%string = (p ++ y)%string -> x = y.
Proof. induction p as [|a p IH]; simpl; [auto|]. intros [= Heq]. auto. Qed.

(** Adding a loss module numbered [i'] to a model whose loss modules are
    numbered below [i']. *)
Lemma keys_ok_loss (i i' : nat) m (key : string) (e : entry) :
  keys_ok i' m ->
  (forall k e0, In (k, e0) m -> k <> key) ->
  entry_is_loss e = true ->
  key = ("content_loss_" ++ fmt i')%string \/ key = ("style_loss_" ++ fmt i')%string ->
  add_module key e m = m ++ [(key, e)]
  /\ keys_ok i' (m ++ [(key, e)]).
Proof.
  intros Hok Hfresh He Hkey. split.
  - apply add_module_fresh. intros Hin. apply in_map_iff in Hin.
    destruct Hin as ([k e0] & Hk & Hin). simpl in Hk. subst k.
    apply (Hfresh _ _ Hin). reflexivity.
  - intros k e0 Hin. apply in_app_or in Hin. destruct Hin as [Hin|[[= <- <-]|[]]].
    + apply Hok. assumption.
    + split.
      * rewrite He. destruct Hkey as [->| ->];
          [rewrite is_loss_key_content|rewrite is_loss_key_style]; reflexivity.
      * intros j Hj. destruct Hkey as [->| ->]; split; intros Heq;
          try discriminate Heq.
        -- apply (append_inj_l "content_loss_"), fmt_inj in Heq. lia.
        -- apply (append_inj_l "style_loss_"), fmt_inj in Heq. lia.
Qed.

Lemma py_in_content_default (c : module_class) (i i' : nat) (name : string) :
  layer_name c i = Ok (i', name) ->
  py_in name content_layers_default = is_conv c && (i' =? 4).
Proof.
  destruct c; simpl; intros [= <- <-]; try reflexivity.
  unfold py_in, content_layers_default. simpl.
  change "4" with (fmt 4). rewrite fmt_eqb, orb_false_r. reflexivity.
Qed.

Lemma py_in_style_default (c : module_class) (i i' : nat) (name : string) :
  layer_name c i = Ok (i', name) ->
  py_in name style_layers_default = is_conv c && (1 <=? i') && (i' <=? 5).
Proof.
  destruct c; simpl; intros [= <- <-]; try reflexivity.
  unfold py_in, style_layers_default. simpl.
  change "1" with (fmt 1). change "2" with (fmt 2). change "3" with (fmt 3).
  change "4" with (fmt 4). change "5" with (fmt 5).
  rewrite !fmt_eqb, orb_false_r.
  destruct i as [|[|[|[|[|i]]]]]; reflexivity.
Qed.

Lemma default_inv_init : default_inv shape_init.
Proof.
  split; [|repeat split].
  intros k e [[= <- <-]|[]]. split; [reflexivity|].
  intros j _. split; discriminate.
Qed.

Lemma shape_layer_default st (c : module_class) st' :
  shape_layer content_layers_default style_layers_default st c = Ok st' ->
  default_inv st ->
  default_inv st' /\ sh_i st' = (if is_conv c then S (sh_i st) else sh_i st).
Proof.
  intros H1 (Hok & Hc & Hs & Hnc & Hns). unfold shape_layer in H1.
  destruct (layer_name c (sh_i st)) as [[i' name]|] eqn:Hn; [|discriminate].
  cbn [rbind] in H1.
  rewrite (py_in_content_default _ _ _ _ Hn), (py_in_style_default _ _ _ _ Hn) in H1.
  destruct (layer_name_spec _ _ _ _ Hn) as (p & Hp & Hname & Hi').
  assert (Hle : sh_i st <= i') by (destruct (is_conv c); lia).
  destruct (keys_ok_layer (sh_i st) i' (sh_model st) c p Hok Hle Hp)
    as (Hok1 & Hc1 & Hs1).
  rewrite <- Hname in Hok1, Hc1, Hs1.
  set (m1 := add_module name (ELayer name c) (sh_model st)) in *.
  assert (Hkey : is_loss_key name = false)
    by (rewrite Hname; eapply is_loss_key_layer; eassumption).
  destruct (is_conv c) eqn:Hconv; cbn [andb] in H1.
  2: { injection H1 as <-. subst i'. cbn [sh_i sh_model sh_content sh_style].
       split; [|reflexivity]. unfold default_inv. cbn [sh_i sh_model sh_content sh_style].
       rewrite Hc1, Hs1. auto. }
  (* a convolution: its number is new *)
  set (cname := ("content_loss_" ++ fmt i')%string) in *.
  set (sname := ("style_loss_" ++ fmt i')%string) in *.
  assert (Hfresh1 : forall k e0, In (k, e0) m1 -> k <> cname /\ k <> sname).
  { intros k e0 Hin. apply In_add_module in Hin. destruct Hin as [Hin|[= -> ->]].
    - destruct (Hok _ _ Hin) as [_ Hj]. apply Hj. lia.
    - split; intros Heq; rewrite Heq in Hkey.
      + unfold cname in Hkey. rewrite is_loss_key_content in Hkey. discriminate.
      + unfold sname in Hkey. rewrite is_loss_key_style in Hkey. discriminate. }
  assert (HB : exists m2,
    (if i' =? 4 then add_module cname EContentLoss m1 else m1) = m2
    /\ keys_ok i' m2
    /\ (forall k e0, In (k, e0) m2 -> k <> sname)
    /\ count is_content (map snd m2)
       = count is_content (map snd m1) + (if i' =? 4 then 1 else 0)
    /\ count is_style (map snd m2) = count is_style (map snd m1)).
  { destruct (i' =? 4).
    - destruct (keys_ok_loss (sh_i st) i' m1 cname EContentLoss Hok1) as [E Hok2];
        [intros k e0 Hin; apply (Hfresh1 k e0 Hin)|reflexivity|left; reflexivity|].
      exists (m1 ++ [(cname, EContentLoss)]). split; [assumption|].
      split; [assumption|]. split; [|split].
      + intros k e0 Hin. apply in_app_or in Hin. destruct Hin as [Hin|[[= <- <-]|[]]].
        * apply (Hfresh1 k e0 Hin).
        * discriminate.
      + apply count_snoc.
      + rewrite count_snoc. simpl. lia.
    - exists m1. split; [reflexivity|]. split; [assumption|]. split; [|split; lia].
      intros k e0 Hin. apply (Hfresh1 k e0 Hin). }
  destruct HB as (m2 & Hm2 & Hok2 & Hfresh2 & Hc2 & Hs2).
  assert (HC : exists m3,
    (if (1 <=? i') && (i' <=? 5) then add_module sname EStyleLoss m2 else m2) = m3
    /\ keys_ok i' m3
    /\ count is_content (map snd m3) = count is_content (map snd m2)
    /\ count is_style (map snd m3)
       = count is_style (map snd m2) + (if (1 <=? i') && (i' <=? 5) then 1 else 0)).
  { destruct ((1 <=? i') && (i' <=? 5)).
    - destruct (keys_ok_loss (sh_i st) i' m2 sname EStyleLoss Hok2) as [E Hok3];
        [assumption|reflexivity|right; reflexivity|].
      exists (m2 ++ [(sname, EStyleLoss)]). split; [assumption|].
      split; [assumption|]. split.
      + rewrite count_snoc. simpl. lia.
      + apply count_snoc.
    - exists m2. split; [reflexivity|]. split; [assumption|]. split; lia. }
  destruct HC as (m3 & Hm3 & Hok3 & Hc3 & Hs3).
  assert (Hst' : sh_model st' = m3 /\ sh_i st' = i'
                 /\ sh_content st' = sh_content st + (if i' =? 4 then 1 else 0)
                 /\ sh_style st' = sh_style st
                                   + (if (1 <=? i') && (i' <=? 5) then 1 else 0)).
  { rewrite <- Hm3, <- Hm2.
    destruct (i' =? 4), ((1 <=? i') && (i' <=? 5)); injection H1 as <-;
      cbn [sh_i sh_model sh_content sh_style]; repeat split; lia. }
  destruct Hst' as (Em & Ei & Enc & Ens).
  split; [|lia].
  unfold default_inv. rewrite Em, Ei, Enc, Ens, Hc3, Hs3, Hc2, Hs2, Hc1, Hs1, Hc, Hs, Hnc, Hns.
  rewrite Hc, Hs.
  split; [assumption|].
  destruct (Nat.eqb_spec i' 4), (Nat.leb_spec 4 (sh_i st)), (Nat.leb_spec 4 i'),
    (Nat.leb_spec 1 i'), (Nat.leb_spec i' 5); cbn [andb]; repeat split; lia.
Qed.

Lemma shape_layers_default (cs : list module_class) st st' :
  shape_layers content_layers_default style_layers_default cs st = Ok st' ->
  default_inv st ->
  default_inv st' /\ sh_i st' = sh_i st + convs_seen cs.
Proof.
  revert st. induction cs as [|c cs IH]; intros st Hs Hinv; cbn [shape_layers] in Hs.
  - injection Hs as <-. unfold convs_seen. simpl. split; [assumption|lia].
  - destruct (shape_layer _ _ st c) as [st1|] eqn:H1; [|discriminate].
    cbn [rbind] in Hs.
    destruct (shape_layer_default st c st1 H1 Hinv) as [Hinv1 Hi1].
    destruct (IH st1 Hs Hinv1) as [Hinv' Hi']. split; [assumption|].
    rewrite Hi', Hi1. unfold convs_seen. simpl.
    destruct (is_conv c); simpl; lia.
Qed.

Lemma count_loss_split (es : list entry) :
  count entry_is_loss es = count is_content es + count is_style es.
Proof.
  unfold count. induction es as [|e es IH]; [reflexivity|].
  destruct e; simpl; lia.
Qed.

End DefaultLayers.

(** ** What [get_style_model_and_losses] builds *)

Lemma distinct_names_NoDup (l : list string) : distinct_names l = true -> NoDup l.
Proof.
  induction l as [|x rest IH]; simpl; [constructor|].
  intros Hd. apply andb_true_iff in Hd. destruct Hd as [Hx Hrest].
  constructor; [|auto].
  rewrite list_elem_of_In. intros Hin.
  apply negb_true_iff in Hx.
  assert (Hex : existsb (String.eqb x) rest = true)
    by (apply existsb_exists; exists x; split; [assumption|apply String.eqb_refl]).
  congruence.
Qed.

Section ScanTheorems.
Context {A P : Type} `{Scalar A} `{Framework A P}.
Implicit Types (h : heap A P) (model : Sequential).

Lemma spec_added_names_not_0 (cl sl : list string) (cs : list module_class) :
  ~ In "0" (spec_added_names cl sl cs).
Proof.
  unfold spec_added_names. rewrite in_flat_map. intros (k & _ & Hin).
  unfold spec_added_names_at, spec_layer_name in Hin.
  destruct (cs !! k) as [c|]; [|contradiction].
  destruct (kind_prefix c) as [p|] eqn:Hp; [|contradiction].
  assert (Hp0 : forall x, (p ++ x)%string <> "0")
    by (intros x; destruct c; simpl in Hp; try discriminate Hp;
        injection Hp as <-; discriminate).
  destruct Hin as [Heq|Hin]; [apply (Hp0 _ Heq)|].
  apply in_app_or in Hin.
  destruct Hin as [Hin|Hin];
    [destruct (py_in _ cl)|destruct (py_in _ sl)]; simpl in Hin;
    try contradiction; destruct Hin as [Heq|[]]; discriminate.
Qed.


(** C2, as amended: with the default layer selections the scan inserts
    loss modules of two kinds: one ContentLoss when the network has at
    least four convolutions, and a StyleLoss for each of its first five
    convolutions; six loss modules for a network of five or more
    convolutions. *)
Theorem default_layers_insert_six_loss_modules (cnn : Sequential)
    (mean std si ci : loc) h model sls cls h' :
  Forall (fun e => snd e < length h) cnn ->
  get_style_model_and_losses cnn mean std si ci
    content_layers_default style_layers_default h = Ok ((model, sls, cls), h') ->
  let n := convs_seen (child_classes h cnn) in
  count is_content (describe h' model) = (if 4 <=? n then 1 else 0)
  /\ count is_style (describe h' model) = min n 5
  /\ length cls = (if 4 <=? n then 1 else 0)
  /\ length sls = min n 5
  /\ (5 <= n -> count entry_is_loss (describe h' model) = 6).
Proof.
  intros Hv Hg n.
  destruct (get_style_model_and_losses_shape _ _ _ _ _ _ _ _ _ _ _ _ Hg Hv)
    as (st & Hsh & Hd & Hlc & Hls & _).
  destruct (shape_layers_default _ _ _ Hsh default_inv_init)
    as [(_ & Hc & Hs & Hnc & Hns) Hi].
  simpl in Hi. fold n in Hi. rewrite Hi in Hc, Hs.
  assert (Hdc : count is_content (describe h' model) = (if 4 <=? n then 1 else 0)).
  { rewrite Hd. unfold count in *. rewrite count_drop_after_last_loss; [assumption|].
    intros []; simpl; congruence. }
  assert (Hds : count is_style (describe h' model) = min n 5).
  { rewrite Hd. unfold count in *. rewrite count_drop_after_last_loss; [assumption|].
    intros []; simpl; congruence. }
  repeat split; try congruence.
  intros Hn. rewrite count_loss_split, Hdc, Hds.
  destruct (Nat.leb_spec 4 n); lia.
Qed.

End ScanTheorems.



Lemma default_layers_insert_six_loss_modules_witness :
  exists model sls cls h',
    get_style_model_and_losses Toy.vgg19 0 1 3 2
      content_layers_default style_layers_default Toy.vgg19_store
    = Ok ((model, sls, cls), h')
    /\ count is_content (describe h' model) = 1
    /\ count is_style (describe h' model) = 5
    /\ length cls = 1
    /\ length sls = 5
    /\ count entry_is_loss (describe h' model) = 6.
Proof.
  eexists _, _, _, _. split; [vm_compute; reflexivity|].
  edestruct (default_layers_insert_six_loss_modules Toy.vgg19 0 1 3 2
               Toy.vgg19_store) as (Hc & Hs & Hlc & Hls & Hsix).
  - apply Forall_forall. intros e He. apply list_elem_of_In, in_map_iff in He.
    destruct He as (k & <- & Hk). apply in_seq in Hk. simpl in *. lia.
  - vm_compute. reflexivity.
  - split; [exact Hc|]. split; [exact Hs|]. split; [exact Hlc|].
    split; [exact Hls|]. apply Hsix. vm_compute. lia.
Defined.

(** C2 as stated fails: on the layers of VGG-19 the default selections
    insert six loss modules, not two. *)
Lemma vgg19_gets_six_loss_modules :
  exists model sls cls h',
    get_style_model_and_losses Toy.vgg19 0 1 3 2
      content_layers_default style_layers_default Toy.vgg19_store
    = Ok ((model, sls, cls), h')
    /\ count entry_is_loss (describe h' model) = 6
    /\ count entry_is_loss (describe h' model) <> 2.
Proof.
  eexists _, _, _, _. split; [vm_compute; reflexivity|].
  split; [vm_compute; reflexivity|]. vm_compute. discriminate.
Qed.

(** ** The optimisation *)

Section ClosureFacts.
Context {A P : Type} `{Scalar A} `{Framework A P}.
Local Open Scope M_scope.
Implicit Types (h : heap A P) (model : Sequential) (S : loc -> Prop).

(** Writing a tensor over a tensor, or a layer over a layer. *)
Lemma write_tensor_evolves S (x : loc) h d rg g d' rg' g' :
  h !! x = Some (OTensor d rg g) -> S x ->
  evolves S h (<[x := OTensor d' rg' g']> h)
  /\ keeps_losses h (<[x := OTensor d' rg' g']> h).
Proof.
  intros Hx HS. split.
  - eapply evolves_write; [eassumption|exact I|assumption|exact I].
  - intros m o Hm Ho. destruct (Nat.eq_dec x m) as [<-|Hne].
    + unfold loss_at in Hm. rewrite Hx in Hm. discriminate.
    + rewrite list_lookup_insert_ne by assumption. assumption.
Qed.

Lemma write_layer_evolves S (l : loc) h c i p p' :
  h !! l = Some (OLayer c i p) -> S l ->
  evolves S h (<[l := OLayer c i p']> h)
  /\ keeps_losses h (<[l := OLayer c i p']> h).
Proof.
  intros Hl HS. split.
  - eapply evolves_write; [eassumption|split; reflexivity|assumption|exact I].
  - intros m o Hm Ho. destruct (Nat.eq_dec l m) as [<-|Hne].
    + unfold loss_at in Hm. rewrite Hl in Hm. discriminate.
    + rewrite list_lookup_insert_ne by assumption. assumption.
Qed.

Lemma keeps_losses_refl h : keeps_losses h h.
Proof. intros m o _ Ho. assumption. Qed.

Lemma keeps_losses_trans h1 h2 h3 :
  keeps_losses h1 h2 -> keeps_losses h2 h3 -> keeps_losses h1 h3.
Proof.
  intros H12 H23 m o Hm Ho. apply H23; [|apply H12; assumption].
  unfold loss_at. rewrite (H12 m o Hm Ho).
  unfold loss_at in Hm. rewrite Ho in Hm. assumption.
Qed.

Lemma requires_grad__evolves S (x : loc) h u h' :
  requires_grad_ x h = Ok (u, h') -> S x -> evolves S h h'.
Proof.
  unfold requires_grad_. intros Hr HS. inv_M. case_M.
  eapply write_tensor_evolves; eassumption.
Qed.

Lemma clamp__evolves S (x : loc) h u h' :
  clamp_ x h = Ok (u, h') -> S x -> evolves S h h' /\ keeps_losses h h'.
Proof.
  unfold clamp_. intros Hr HS. inv_M. case_M.
  eapply write_tensor_evolves; eassumption.
Qed.

Lemma zero_grad_params_evolves S (ps : list loc) h u h' :
  zero_grad_params ps h = Ok (u, h') -> Forall S ps ->
  evolves S h h' /\ keeps_losses h h'.
Proof.
  revert h. induction ps as [|p rest IH]; intros h Hz HS; simpl in Hz.
  - inv_M. split; [apply evolves_refl|apply keeps_losses_refl].
  - apply Forall_cons in HS. destruct HS as [Hp Hrest].
    apply bind_Ok in Hz as (o & h_ & Hr & Hz). apply read_Ok in Hr as [Ho ->].
    apply bind_Ok in Hz as (u1 & h1 & Hw & Hz).
    destruct (IH h1 Hz Hrest) as [He Hk].
    assert (H1 : evolves S h h1 /\ keeps_losses h h1).
    { destruct o as [| | | |d rg [g|]]; inv_M.
      - eapply write_tensor_evolves; eassumption.
      - split; [apply evolves_refl|apply keeps_losses_refl]. }
    destruct H1. split; [eauto using evolves_trans|eauto using keeps_losses_trans].
Qed.

Lemma get_loss_Ok (m : loc) h (l : tensor A) h' :
  get_loss m h = Ok (l, h') ->
  h' = h
  /\ exists t, h !! m = Some (OContentLoss t (Some l)) \/ h !! m = Some (OStyleLoss t (Some l)).
Proof.
  unfold get_loss. intros Hg. inv_M. repeat case_M; eauto.
Qed.

(** The sum that the closure computes over the losses of a list. *)
Lemma sum_losses_Ok (ms : list loc) (score : pyval A) h (v : pyval A) h' :
  sum_losses ms score h = Ok (v, h') ->
  h' = h
  /\ exists ls,
       Forall2 (fun m l => exists t, h !! m = Some (OContentLoss t (Some l))
                                     \/ h !! m = Some (OStyleLoss t (Some l))) ms ls
       /\ fold_left (fun acc l => (let* a := acc in py_add a (PTensor l))%res) ls (Ok score)
          = Ok v.
Proof.
  revert score h. induction ms as [|m rest IH]; intros score h Hs; simpl in Hs.
  - inv_M. split; [reflexivity|]. exists []. split; [constructor|reflexivity].
  - apply bind_Ok in Hs as (l & h1 & Hg & Hs). apply get_loss_Ok in Hg as [-> Hl].
    apply bind_Ok in Hs as (score' & h1 & Ha & Hs). apply lift_Ok in Ha as [Ha ->].
    destruct (IH _ _ Hs) as (-> & ls & Hall & Hfold).
    split; [reflexivity|]. exists (l :: ls). split; [constructor; assumption|].
    simpl. rewrite Ha. assumption.
Qed.

Lemma read_all_Ok (ls : list loc) h (os : list (obj A P)) h' :
  read_all ls h = Ok (os, h') -> h' = h.
Proof.
  revert os h'. induction ls as [|l rest IH]; intros os h' Hr; simpl in Hr.
  - inv_M. reflexivity.
  - apply bind_Ok in Hr as (o & h1 & Hr1 & Hr). apply read_Ok in Hr1 as [_ ->].
    apply bind_Ok in Hr as (os' & h2 & Hr2 & Hr). apply IH in Hr2. subst. inv_M.
    reflexivity.
Qed.

Lemma accumulate_params_evolves S (objs : list (obj A P)) (x : tensor A)
    (ls : list loc) h u h' :
  accumulate_params objs x ls h = Ok (u, h') -> Forall S ls ->
  evolves S h h' /\ keeps_losses h h'.
Proof.
  revert h. induction ls as [|l rest IH]; intros h Ha HS; simpl in Ha.
  - inv_M. split; [apply evolves_refl|apply keeps_losses_refl].
  - apply Forall_cons in HS. destruct HS as [Hl Hrest].
    apply bind_Ok in Ha as (o & h_ & Hr & Ha). apply read_Ok in Hr as [Ho ->].
    apply bind_Ok in Ha as (u1 & h1 & Hw & Ha).
    destruct (IH h1 Ha Hrest) as [He Hk].
    assert (H1 : evolves S h h1 /\ keeps_losses h h1).
    { destruct o; inv_M;
        try (split; [apply evolves_refl|apply keeps_losses_refl]).
      eapply write_layer_evolves; eassumption. }
    destruct H1. split; [eauto using evolves_trans|eauto using keeps_losses_trans].
Qed.

Lemma backward_evolves S model (input_img : loc) (loss : pyval A) h u h' :
  backward model input_img loss h = Ok (u, h') ->
  Forall (fun e => S (snd e)) model -> S input_img ->
  evolves S h h' /\ keeps_losses h h'.
Proof.
  unfold backward. intros Hb HS Hi.
  destruct loss as [z|l]; [discriminate|].
  destruct (numel (t_size l) =? 1); [|discriminate].
  apply bind_Ok in Hb as (objs & h1 & Hr & Hb). apply read_all_Ok in Hr. subst h1.
  apply bind_Ok in Hb as (o & h1 & Hr & Hb). apply read_Ok in Hr as [Ho ->].
  destruct o as [| | | |d rg g]; try discriminate.
  apply bind_Ok in Hb as (u1 & h1 & Hw & Hb).
  assert (H1 : evolves S h h1 /\ keeps_losses h h1).
  { destruct rg; inv_M.
    - eapply write_tensor_evolves; eassumption.
    - split; [apply evolves_refl|apply keeps_losses_refl]. }
  destruct H1 as [He1 Hk1].
  destruct (accumulate_params_evolves S _ _ _ _ _ _ Hb) as [He2 Hk2].
  - apply Forall_forall. intros k Hk. apply list_elem_of_In, in_map_iff in Hk.
    destruct Hk as (e & <- & He). rewrite Forall_forall in HS.
    apply HS, list_elem_of_In. assumption.
  - split; [eauto using evolves_trans|eauto using keeps_losses_trans].
Qed.

Lemma item_Ok (x : pyval A) h u h' : item x h = Ok (u, h') -> h' = h.
Proof.
  unfold item. destruct x as [|v]; [discriminate|].
  destruct (length (t_data v) =? 1); intros Hi; inv_M. reflexivity.
Qed.

End ClosureFacts.

Section OptimizationFacts.
Context {A P : Type} `{Scalar A} `{Framework A P}.
Local Open Scope M_scope.
Implicit Types (h : heap A P) (model : Sequential) (S : loc -> Prop).

Lemma sum_py_fold (ls : list (tensor A)) (v : pyval A) :
  fold_left (fun acc l => (let* a := acc in py_add a (PTensor l))%res) ls (Ok (PInt 0))
  = Ok v ->
  sum_py ls = Ok v.
Proof. auto. Qed.

(** One evaluation of the closure. *)
Lemma closure_Ok S model (sls cls : list loc) (opt : optimizer) (input_img : loc)
    (sw cw run : Z) h (v : pyval A) (run' : Z) h' :
  closure model sls cls opt input_img sw cw run h = Ok ((v, run'), h') ->
  Forall (fun e => S (snd e)) model -> S input_img -> Forall S (opt_params opt) ->
  run' = (run + 1)%Z
  /\ evolves S h h'
  /\ exists ls lc,
       Forall2 (fun m l => exists t, h' !! m = Some (OContentLoss t (Some l))
                                     \/ h' !! m = Some (OStyleLoss t (Some l))) sls ls
       /\ Forall2 (fun m l => exists t, h' !! m = Some (OContentLoss t (Some l))
                                        \/ h' !! m = Some (OStyleLoss t (Some l))) cls lc
       /\ weighted_sum sw cw ls lc = Ok v.
Proof.
  unfold closure. intros Hc HSm HSi HSp.
  apply bind_Ok in Hc as (u1 & h1 & Hclamp & Hc).
  apply bind_Ok in Hc as (u2 & h2 & Hzero & Hc).
  apply bind_Ok in Hc as (y & h3 & Hfw & Hc).
  apply bind_Ok in Hc as (s_score & h4 & Hss & Hc).
  apply bind_Ok in Hc as (c_score & h5 & Hcs & Hc).
  apply bind_Ok in Hc as (loss & h6 & Hadd & Hc).
  apply bind_Ok in Hc as (u3 & h7 & Hbw & Hc).
  apply bind_Ok in Hc as (u4 & h8 & Hitem & Hc).
  apply bind_Ok in Hc as (r & h9 & Hret & Hc).
  apply ret_Ok in Hc as [[= -> ->] ->].
  apply lift_Ok in Hret as [Hret ->]. apply lift_Ok in Hadd as [Hadd ->].
  destruct (clamp__evolves S _ _ _ _ Hclamp HSi) as [He1 _].
  destruct (zero_grad_params_evolves S _ _ _ _ Hzero HSp) as [He2 _].
  pose proof (call_on_evolves S _ _ _ _ _ Hfw HSm) as He3.
  apply sum_losses_Ok in Hss as (-> & ls & Hls & Hfs).
  apply sum_losses_Ok in Hcs as (-> & lc & Hlc & Hfc).
  destruct (backward_evolves S _ _ _ _ _ _ Hbw HSm HSi) as [He4 Hk4].
  assert (h8 = h7) as ->.
  { destruct ((run + 1) mod 50 =? 0)%Z; inv_M; [|reflexivity].
    repeat match goal with Hi : item _ _ = Ok _ |- _ => apply item_Ok in Hi end.
    congruence. }
  split; [reflexivity|]. split; [eauto using evolves_trans|].
  assert (Hkeep : forall m l,
    (exists t, h3 !! m = Some (OContentLoss t (Some l))
               \/ h3 !! m = Some (OStyleLoss t (Some l))) ->
    exists t, h7 !! m = Some (OContentLoss t (Some l))
              \/ h7 !! m = Some (OStyleLoss t (Some l))).
  { intros m l (t & [Hm|Hm]); exists t; [left|right];
      (apply Hk4; [unfold loss_at; rewrite Hm; reflexivity|assumption]). }
  exists ls, lc. split; [|split].
  - eapply Forall2_impl; [exact Hls|]. apply Hkeep.
  - eapply Forall2_impl; [exact Hlc|]. apply Hkeep.
  - unfold weighted_sum. rewrite (sum_py_fold _ _ Hfs), (sum_py_fold _ _ Hfc).
    assumption.
Qed.

Lemma read_params_Ok (ps : list loc) h r h' : read_params ps h = Ok (r, h') -> h' = h.
Proof.
  revert r h'. induction ps as [|p rest IH]; intros r h' Hr; simpl in Hr.
  - inv_M. reflexivity.
  - apply bind_Ok in Hr as (o & h1 & Hr1 & Hr). apply read_Ok in Hr1 as [_ ->].
    destruct o; try discriminate.
    apply bind_Ok in Hr as (r' & h2 & Hr2 & Hr). apply IH in Hr2. subst. inv_M.
    reflexivity.
Qed.

Lemma write_params_evolves S (ps : list loc) (ds : list (tensor A)) h u h' :
  write_params ps ds h = Ok (u, h') -> Forall S ps -> evolves S h h'.
Proof.
  revert ds h. induction ps as [|p rest IH]; intros ds h Hw HS; simpl in Hw.
  - inv_M. apply evolves_refl.
  - destruct ds as [|d ds]; [inv_M; apply evolves_refl|].
    apply Forall_cons in HS. destruct HS as [Hp Hrest].
    apply bind_Ok in Hw as (o & h_ & Hr & Hw). apply read_Ok in Hr as [Ho ->].
    apply bind_Ok in Hw as (u1 & h1 & Hw1 & Hw).
    destruct o; try discriminate. inv_M.
    eapply evolves_trans; [|eapply IH; eassumption].
    eapply write_tensor_evolves; eassumption.
Qed.

(** A step of the optimizer: it evaluates the closure at least once and
    writes to its parameters only. *)
Lemma lbfgs_iterations_evolves S (n : nat) (cl : Z -> M A P (pyval A * Z))
    (o : optimizer) (run : Z) h (o' : optimizer) (run' : Z) h' :
  lbfgs_iterations n cl o run h = Ok ((o', run'), h') ->
  (forall run h v run' h', cl run h = Ok ((v, run'), h') ->
                           run' = (run + 1)%Z /\ evolves S h h') ->
  Forall S (opt_params o) ->
  evolves S h h' /\ opt_params o' = opt_params o
  /\ (run <= run')%Z /\ (1 <= n -> (run + 1 <= run')%Z).
Proof.
  intros Hl Hcl. revert o run h Hl.
  induction n as [|n IH]; intros o run h Hl HS; simpl in Hl.
  - inv_M. simplify_eq. split; [apply evolves_refl|]. split; [reflexivity|lia].
  - apply bind_Ok in Hl as ([loss run1] & h1 & Hc & Hl).
    destruct (Hcl _ _ _ _ _ Hc) as [-> He1].
    apply bind_Ok in Hl as (ps & h2 & Hr & Hl). apply read_params_Ok in Hr. subst h2.
    destruct (lbfgs_update (opt_state o) loss ps) as [[s' ds] again].
    apply bind_Ok in Hl as (u & h2 & Hw & Hl).
    pose proof (write_params_evolves S _ _ _ _ _ Hw HS) as He2.
    destruct again.
    + destruct (IH _ _ _ Hl HS) as (He3 & Hp & Hle & _).
      split; [eauto using evolves_trans|]. split; [assumption|]. lia.
    + inv_M. simplify_eq. split; [eauto using evolves_trans|].
      split; [reflexivity|lia].
Qed.

Lemma optimize_evolves S (fuel : nat) (cl : Z -> M A P (pyval A * Z)) (num_steps : Z)
    (o : optimizer) (run : Z) h u h' :
  optimize fuel cl num_steps o run h = Ok (u, h') ->
  (forall run h v run' h', cl run h = Ok ((v, run'), h') ->
                           run' = (run + 1)%Z /\ evolves S h h') ->
  Forall S (opt_params o) ->
  evolves S h h'.
Proof.
  intros Ho Hcl. revert o run h Ho.
  induction fuel as [|fuel IH]; intros o run h Ho HS; simpl in Ho.
  - destruct (run <=? num_steps)%Z; [discriminate|]. inv_M. apply evolves_refl.
  - destruct (run <=? num_steps)%Z; [|inv_M; apply evolves_refl].
    apply bind_Ok in Ho as ([o1 run1] & h1 & Hs & Ho).
    destruct (lbfgs_iterations_evolves S _ _ _ _ _ _ _ _ Hs Hcl HS) as (He & Hp & _).
    eapply evolves_trans; [eassumption|].
    eapply IH; [eassumption|]. rewrite Hp. assumption.
Qed.

Lemma lbfgs_iterations_runs (n : nat) (cl : Z -> M A P (pyval A * Z))
    (o : optimizer) (run : Z) h (o' : optimizer) (run' : Z) h' :
  lbfgs_iterations n cl o run h = Ok ((o', run'), h') ->
  (forall run h v run' h', cl run h = Ok ((v, run'), h') -> run' = (run + 1)%Z) ->
  (run <= run')%Z /\ (1 <= n -> (run + 1 <= run')%Z).
Proof.
  intros Hl Hcl. revert o run h Hl.
  induction n as [|n IH]; intros o run h Hl; simpl in Hl.
  - inv_M. simplify_eq. lia.
  - apply bind_Ok in Hl as ([loss run1] & h1 & Hc & Hl).
    rewrite (Hcl _ _ _ _ _ Hc) in *.
    apply bind_Ok in Hl as (ps & h2 & Hr & Hl).
    destruct (lbfgs_update (opt_state o) loss ps) as [[s' ds] again].
    apply bind_Ok in Hl as (u & h3 & Hw & Hl).
    destruct again.
    + destruct (IH _ _ _ Hl) as [Hle _]. lia.
    + inv_M. simplify_eq. lia.
Qed.

(** The fuel of the loop is enough: with [num_steps + 1 - run] steps or
    more the result is the same. *)
Lemma optimize_fuel (fuel : nat) (cl : Z -> M A P (pyval A * Z)) (num_steps : Z)
    (o : optimizer) (run : Z) h :
  (forall run h v run' h', cl run h = Ok ((v, run'), h') -> run' = (run + 1)%Z) ->
  Z.to_nat (num_steps + 1 - run) <= fuel ->
  optimize (S fuel) cl num_steps o run h = optimize fuel cl num_steps o run h.
Proof.
  intros Hcl. revert o run h.
  induction fuel as [|fuel IH]; intros o run h Hf.
  - simpl. destruct (Z.leb_spec run num_steps); [lia|reflexivity].
  - change (optimize (S (S fuel)) cl num_steps o run h)
      with ((if (run <=? num_steps)%Z
             then let* '(o', run') := LBFGS_step cl o run in
                  optimize (S fuel) cl num_steps o' run'
             else ret tt) h).
    change (optimize (S fuel) cl num_steps o run h)
      with ((if (run <=? num_steps)%Z
             then let* '(o', run') := LBFGS_step cl o run in
                  optimize fuel cl num_steps o' run'
             else ret tt) h).
    destruct (Z.leb_spec run num_steps); [|reflexivity].
    unfold bind. destruct (LBFGS_step cl o run h) as [[[o1 run1] h1]|] eqn:Hs;
      [|reflexivity].
    apply IH.
    destruct (lbfgs_iterations_runs max_iter cl o run h o1 run1 h1 Hs Hcl) as [_ Hle].
    assert (run + 1 <= run1)%Z by (apply Hle; unfold max_iter; lia).
    lia.
Qed.

Lemma optimize_more_fuel (extra fuel : nat) (cl : Z -> M A P (pyval A * Z))
    (num_steps : Z) (o : optimizer) (run : Z) h :
  (forall run h v run' h', cl run h = Ok ((v, run'), h') -> run' = (run + 1)%Z) ->
  Z.to_nat (num_steps + 1 - run) <= fuel ->
  optimize (extra + fuel) cl num_steps o run h = optimize fuel cl num_steps o run h.
Proof.
  intros Hcl Hf. induction extra as [|extra IH]; [reflexivity|].
  change (S extra + fuel) with (S (extra + fuel)).
  rewrite optimize_fuel by (assumption || lia). assumption.
Qed.

End OptimizationFacts.

Section StyleTransferTheorems.
Context {A P : Type} `{Scalar A} `{Framework A P}.
Local Open Scope M_scope.
Implicit Types (h : heap A P) (model : Sequential) (S : loc -> Prop).

Lemma get_input_optimizer_Ok S (input_img : loc) h (opt : optimizer) h' :
  get_input_optimizer input_img h = Ok (opt, h') -> S input_img ->
  opt = Optimizer [input_img] lbfgs_init
  /\ evolves S h h'
  /\ exists d rg g, h !! input_img = Some (OTensor d rg g).
Proof.
  unfold get_input_optimizer. intros Hg HS.
  apply bind_Ok in Hg as (u & h1 & Hr & Hg). apply ret_Ok in Hg as [-> ->].
  split; [reflexivity|]. split; [eapply requires_grad__evolves; eassumption|].
  unfold requires_grad_ in Hr. inv_M. case_M. eauto.
Qed.

Lemma recorded_loss_intro h (m : loc) (l : tensor A) :
  (exists t, h !! m = Some (OContentLoss t (Some l))
             \/ h !! m = Some (OStyleLoss t (Some l))) ->
  (forall o, h !! m = Some o -> mse_ok o) ->
  recorded_loss h m l.
Proof.
  intros (t & [Hm|Hm]) Hok; unfold recorded_loss; rewrite Hm;
    (split; [reflexivity|]); apply (Hok _ Hm).
Qed.

Lemma Forall2_recorded_loss h (ms : list loc) (ls : list (tensor A)) :
  Forall2 (fun m l => exists t, h !! m = Some (OContentLoss t (Some l))
                                \/ h !! m = Some (OStyleLoss t (Some l))) ms ls ->
  (forall m, In m ms -> forall o, h !! m = Some o -> mse_ok o) ->
  Forall2 (recorded_loss h) ms ls.
Proof.
  induction 1 as [|m l ms ls Hml _ IH]; intros Hok; constructor.
  - apply recorded_loss_intro; [assumption|]. apply Hok. left. reflexivity.
  - apply IH. intros m' Hm'. apply Hok. right. assumption.
Qed.


Lemma In_children_from (seen : list loc) (ms : Sequential) (l : loc) :
  In l (map snd ms) -> In l (children_from seen ms) \/ In l seen.
Proof.
  revert seen. induction ms as [|[n k] rest IH]; intros seen Hin; simpl in *;
    [contradiction|].
  destruct (existsb (Nat.eqb k) seen) eqn:Hex.
  - destruct Hin as [<-|Hin]; [right; apply existsb_eqb_In; assumption|auto].
  - destruct Hin as [<-|Hin]; [left; left; reflexivity|].
    destruct (IH (k :: seen) Hin) as [Hc|[<-|Hs]]; simpl; auto.
Qed.

(** A complete run needs layers for children and a tensor for input. *)
Lemma recognized_child_is_layer h (cnn : Sequential) (l : loc) :
  Forall (fun c => recognized c = true) (child_classes h cnn) ->
  In l (map snd cnn) ->
  exists c i p, h !! l = Some (OLayer c i p).
Proof.
  intros Hrec Hin.
  destruct (In_children_from [] cnn l Hin) as [Hc|[]].
  rewrite Forall_forall in Hrec.
  assert (Hcl : recognized (class_at h l) = true).
  { apply Hrec. apply list_elem_of_In. unfold child_classes.
    apply in_map_iff. exists l. split; [reflexivity|assumption]. }
  unfold class_at, class_opt in Hcl.
  destruct (h !! l) as [[c i p| | | |]|]; simpl in Hcl; try discriminate. eauto.
Qed.


End StyleTransferTheorems.



(** ** Unrecognized layers *)

Section LossesOfTheModel.
Context {A P : Type} `{Scalar A} `{Framework A P}.
Implicit Types (h : heap A P) (x : tensor A) (model : Sequential).

(** The trimming keeps every loss module. *)
Lemma trim_keeps_losses h model (i : nat) (m : loc) :
  holds_loss model h m ->
  holds_loss (take (S (trim_loop h model (range_down (length model)) i)) model) h m.
Proof.
  intros [Hin Hloss]. split; [|assumption]. revert i Hin.
  induction model as [|[n l] model IH] using rev_ind; intros i Hin; [contradiction|].
  rewrite List.length_app. simpl. rewrite Nat.add_1_r, range_down_S. simpl.
  rewrite list_lookup_middle by reflexivity.
  assert (Hwhole : take (S (length model)) (model ++ [(n, l)]) = model ++ [(n, l)])
    by (apply take_ge; rewrite List.length_app; simpl; lia).
  destruct (h !! l) as [o|] eqn:Hl.
  - destruct (is_loss o) eqn:Ho; [rewrite Hwhole; assumption|].
    rewrite trim_loop_app
      by (apply Forall_forall; intros j Hj; apply list_elem_of_In, range_down_lt in Hj;
          assumption).
    rewrite map_app, in_app_iff in Hin. destruct Hin as [Hin|Hin].
    + destruct model as [|e model']; [contradiction|].
      assert (Hne : range_down (length (e :: model')) <> [])
        by (simpl; rewrite range_down_S; discriminate).
      pose proof (trim_loop_in h (e :: model') _ (length (e :: model')) Hne) as Hj.
      apply range_down_lt in Hj.
      rewrite take_app_le by lia. apply IH. assumption.
    + simpl in Hin. destruct Hin as [<-|[]].
      rewrite (loss_at_is_loss _ _ _ Hl) in Hloss. congruence.
  - rewrite map_app, in_app_iff in Hin. destruct Hin as [Hin|Hin].
    + rewrite trim_loop_app
        by (apply Forall_forall; intros j Hj; apply list_elem_of_In, range_down_lt in Hj;
            assumption).
      destruct model as [|e model']; [contradiction|].
      assert (Hne : range_down (length (e :: model')) <> [])
        by (simpl; rewrite range_down_S; discriminate).
      pose proof (trim_loop_in h (e :: model') _ (length (e :: model')) Hne) as Hj.
      apply range_down_lt in Hj.
      rewrite take_app_le by lia. apply IH. assumption.
    + simpl in Hin. destruct Hin as [<-|[]].
      unfold loss_at in Hloss. rewrite Hl in Hloss. discriminate.
Qed.

Lemma module_step_records_scalar (o : obj A P) x y o' :
  module_step o x = Ok (y, o') -> is_loss o = true ->
  exists t l, (o' = OContentLoss t (Some l) \/ o' = OStyleLoss t (Some l)) /\ is_scalar l.
Proof.
  destruct o as [c i p|m s|t l0|t l0|d rg g]; simpl; try discriminate.
  - destruct (mse_loss x t) as [l|] eqn:Hl; simpl; [|discriminate].
    intros [= <- <-] _. apply mse_loss_scalar in Hl. eauto.
  - destruct (gram_matrix x) as [G|]; simpl; [|discriminate].
    destruct (mse_loss G t) as [l|] eqn:Hl; simpl; [|discriminate].
    intros [= <- <-] _. apply mse_loss_scalar in Hl. eauto.
Qed.

(** After a forward pass every loss module of the model holds a loss, a
    scalar. *)
Lemma forward_records_scalar model x h y h' (m : loc) :
  Sequential_forward model x h = Ok (y, h') ->
  holds_loss model h m ->
  exists l, get_loss m h' = Ok (l, h') /\ is_scalar l.
Proof.
  revert x h. induction model as [|[n k] rest IH]; intros x h Hf [Hin Hloss];
    [contradiction|].
  simpl in Hf. apply bind_Ok in Hf as (y1 & h1 & Hcall & Hf).
  pose proof Hcall as Hcall'.
  apply call_module_Ok in Hcall' as (o & o' & Hk & Hstep & ->).
  assert (Hla : forall l', loss_at (<[k := o']> h) l' = loss_at h l').
  { intros l'. eapply loss_at_insert; [eassumption|].
    apply module_step_kind in Hstep. destruct Hstep as (_ & _ & Hk' & _).
    destruct o, o'; simpl in *; congruence. }
  destruct (in_dec Nat.eq_dec m (map snd rest)) as [Hrest|Hrest].
  - apply (IH y1 (<[k := o']> h) Hf). split; [assumption|]. rewrite Hla. assumption.
  - simpl in Hin. destruct Hin as [<-|Hin]; [|contradiction].
    rewrite (loss_at_is_loss _ _ _ Hk) in Hloss.
    destruct (module_step_records_scalar _ _ _ _ Hstep Hloss) as (t & l & Ho' & Hsc).
    assert (Hev : evolves (fun l' => In l' (map snd rest)) (<[k := o']> h) h').
    { eapply Sequential_forward_evolves; [eassumption|].
      apply Forall_forall. intros e He. apply in_map, list_elem_of_In. assumption. }
    assert (Hlk : h' !! k = Some o').
    { rewrite (evolves_frame _ _ _ k Hev); [|rewrite length_insert|assumption].
      - apply list_lookup_insert_eq. eapply lookup_lt_Some. eassumption.
      - eapply lookup_lt_Some. eassumption. }
    exists l. split; [|assumption]. unfold get_loss, bind, read. rewrite Hlk.
    destruct Ho' as [->| ->]; reflexivity.
Qed.

End LossesOfTheModel.

Section ProgressFacts.
Context {A P : Type} `{Scalar A} `{Framework A P}.
Variable out_size : module_class -> P -> list nat -> list nat.
Implicit Types (h : heap A P) (x : tensor A) (o : obj A P) (model : Sequential).
Local Abbreviation sig_eq := (sig_eq out_size).
Local Abbreviation shape_le := (shape_le out_size).
Local Abbreviation ready := (ready out_size).
Local Abbreviation step_size := (step_size out_size).

Lemma sig_eq_refl o : sig_eq o o.
Proof. destruct o; simpl; auto. Qed.

Lemma sig_eq_trans o1 o2 o3 : sig_eq o1 o2 -> sig_eq o2 o3 -> sig_eq o1 o3.
Proof.
  destruct o1, o2, o3; simpl; try tauto; try congruence.
  - intros [-> H12] [-> H23]. split; [reflexivity|]. intros s. rewrite H12. apply H23.
  - intros [? ?] [? ?]. split; congruence.
Qed.

Lemma sig_eq_class o o' : sig_eq o o' -> class_of o' = class_of o.
Proof. destruct o, o'; simpl; try tauto. intros [-> _]. reflexivity. Qed.

Lemma shape_le_refl h : shape_le h h.
Proof. intros l o Hl. eauto using sig_eq_refl. Qed.

Lemma shape_le_trans h1 h2 h3 : shape_le h1 h2 -> shape_le h2 h3 -> shape_le h1 h3.
Proof.
  intros H12 H23 l o Hl.
  destruct (H12 l o Hl) as (o2 & Hl2 & Hs2).
  destruct (H23 l o2 Hl2) as (o3 & Hl3 & Hs3).
  eauto using sig_eq_trans.
Qed.

Lemma shape_le_app h (ext : heap A P) : shape_le h (h ++ ext).
Proof.
  intros l o Hl. exists o. split; [|apply sig_eq_refl].
  rewrite lookup_app_l; [assumption|]. eapply lookup_lt_Some. eassumption.
Qed.

Lemma shape_le_insert h (l : loc) o o' :
  h !! l = Some o -> sig_eq o o' -> shape_le h (<[l := o']> h).
Proof.
  intros Hl Hs k ok Hk. destruct (Nat.eq_dec k l) as [->|Hne].
  - exists o'. rewrite list_lookup_insert_eq by (eapply lookup_lt_Some; eassumption).
    split; [reflexivity|]. congruence.
  - exists ok. rewrite list_lookup_insert_ne by congruence.
    split; [assumption|apply sig_eq_refl].
Qed.

Lemma step_size_sig o o' (s : list nat) : sig_eq o o' -> step_size o' s = step_size o s.
Proof.
  destruct o as [c i p|m sd|t l0|t l0|d rg g], o' as [c' i' p'|m' sd'|t' l0'|t' l0'|d' rg' g'];
    simpl; try tauto.
  - intros [<- Hp]. destruct c; try reflexivity; rewrite Hp; reflexivity.
  - intros [-> ->]. reflexivity.
  - intros ->. reflexivity.
  - intros ->. reflexivity.
Qed.

Lemma broadcast_binop_size (f : A -> A -> A) x y (s : list nat) :
  broadcast_shapes (t_size x) (t_size y) = Some s ->
  exists z, broadcast_binop f x y = Ok z /\ t_size z = s.
Proof. intros Hs. unfold broadcast_binop. rewrite Hs. eauto. Qed.

Hypothesis Hreg : regular out_size.

Lemma module_step_ready o x (s' : list nat) :
  step_size o (t_size x) = Some s' ->
  exists y o', module_step o x = Ok (y, o') /\ t_size y = s' /\ sig_eq o o'.
Proof.
  destruct o as [c i p|m sd|t l0|t l0|d rg g]; simpl.
  - assert (Hgen : (if recognized c && (length (t_size x) =? 4)
                    then Some (out_size c p (t_size x)) else None) = Some s' ->
                   exists y o',
                     (let* '(y, p') := forward_prim c p x in Ok (y, OLayer c i p'))%res
                     = Ok (y, o') /\ t_size y = s' /\ sig_eq (OLayer c i p) o').
    { destruct (recognized c) eqn:Hc; [|discriminate]. simpl.
      destruct (Nat.eqb_spec (length (t_size x)) 4) as [H4|]; [|discriminate].
      intros [= <-]. destruct (Hreg c p x Hc H4) as (y & p' & -> & Hy & _ & Hp).
      simpl. exists y, (OLayer c i p'). repeat split; auto. }
    destruct c; try exact Hgen.
    intros [= <-]. exists (relu x), (OLayer ReLU i p). repeat split; auto.
  - destruct (broadcast_shapes (t_size x) (t_size m)) as [s1|] eqn:H1; [|discriminate].
    intros H2. unfold Normalization_forward.
    destruct (broadcast_binop_size s_sub x m s1 H1) as (z & -> & Hz). simpl.
    rewrite <- Hz in H2.
    destruct (broadcast_binop_size s_div z sd s' H2) as (y & -> & Hy). simpl.
    exists y, (ONormalization m sd). repeat split; auto.
  - destruct (bool_decide (t_size t = t_size x)) eqn:Hd; [|discriminate].
    apply bool_decide_eq_true in Hd. intros [= <-].
    destruct (mse_loss_same_size x t (eq_sym Hd)) as (l & -> & _). simpl.
    exists x, (OContentLoss t (Some l)). repeat split; auto.
  - destruct (t_size x) as [|a [|b [|c [|d [|? ?]]]]] eqn:Hx; try discriminate.
    destruct (bool_decide (t_size t = [a * b; a * b])) eqn:Hd; [|discriminate].
    apply bool_decide_eq_true in Hd. intros [= <-].
    destruct (gram_matrix_size x a b c d Hx) as (G & -> & HG). simpl.
    destruct (mse_loss_same_size G t) as (l & -> & _); [congruence|]. simpl.
    exists x, (OStyleLoss t (Some l)). repeat split; auto.
  - discriminate.
Qed.

Lemma ready_nil (s : list nat) h : ready [] s s h.
Proof. intros h' x Hle Hx. exists x, h'. repeat split; auto using shape_le_refl. Qed.

Lemma ready_snoc model (s0 s1 s2 : list nat) h (n : string) (l : loc) o :
  ready model s0 s1 h ->
  h !! l = Some o ->
  step_size o s1 = Some s2 ->
  ready (model ++ [(n, l)]) s0 s2 h.
Proof.
  intros Hr Hl Hs h' x Hle Hx.
  destruct (Hr h' x Hle Hx) as (y & h'' & Hf & Hy & Hle').
  destruct (shape_le_trans _ _ _ Hle Hle' l o Hl) as (o'' & Hl'' & Hsig).
  assert (Hs'' : step_size o'' (t_size y) = Some s2)
    by (rewrite Hy, (step_size_sig _ _ _ Hsig); assumption).
  destruct (module_step_ready o'' y s2 Hs'') as (z & o3 & Hstep & Hz & Hsig3).
  exists z, (<[l := o3]> h''). split; [|split; [assumption|]].
  - rewrite Sequential_forward_app. rewrite (bind_Ok_intro _ _ _ _ _ Hf).
    simpl. unfold bind. rewrite call_module_step, Hl'', Hstep. reflexivity.
  - eapply shape_le_trans; [exact Hle'|]. eapply shape_le_insert; eassumption.
Qed.

Lemma ready_mono model (s0 s1 : list nat) h h1 :
  ready model s0 s1 h -> shape_le h h1 -> ready model s0 s1 h1.
Proof.
  intros Hr Hle h' x Hle' Hx. apply Hr; [|assumption].
  eapply shape_le_trans; eassumption.
Qed.

Lemma call_on_ready model (s0 s1 : list nat) h (img : loc) x rg g :
  ready model s0 s1 h ->
  h !! img = Some (OTensor x rg g) ->
  t_size x = s0 ->
  exists y h2,
    call_on model img h = Ok (y, h2) /\ t_size y = s1 /\ shape_le h h2
    /\ length h2 = length h.
Proof.
  intros Hr Hi Hx.
  destruct (Hr h x (shape_le_refl h) Hx) as (y & h2 & Hf & Hy & Hle).
  exists y, h2. repeat split; try assumption.
  - unfold call_on, read_tensor, bind, read. rewrite Hi. exact Hf.
  - eapply Sequential_forward_length. eassumption.
Qed.

Lemma shape_le_tensor h h' (l : loc) x rg g :
  shape_le h h' -> h !! l = Some (OTensor x rg g) ->
  exists x' rg' g', h' !! l = Some (OTensor x' rg' g') /\ t_size x' = t_size x.
Proof.
  intros Hle Hl. destruct (Hle l _ Hl) as (o' & Hl' & Hs).
  destruct o'; simpl in Hs; try contradiction. eauto 6.
Qed.

Lemma out_size_4d (c : module_class) (p : P) (s : list nat) :
  recognized c = true -> length s = 4 -> length (out_size c p s) = 4.
Proof.
  intros Hc Hs. destruct (Hreg c p (Tensor s []) Hc Hs) as (y & p' & _ & Hy & H4 & _).
  simpl in Hy. congruence.
Qed.

Lemma holds_loss_mono model (ext : Sequential) h h' (m : loc) :
  shape_le h h' -> holds_loss model h m -> holds_loss (model ++ ext) h' m.
Proof.
  intros Hle [Hin Hloss]. split; [rewrite map_app; apply in_or_app; auto|].
  unfold loss_at in *. destruct (h !! m) as [o|] eqn:Hm; [|discriminate].
  destruct (Hle m o Hm) as (o' & -> & Hs).
  destruct o, o'; simpl in Hs; try contradiction; try discriminate; reflexivity.
Qed.

Lemma holds_loss_new model (key : string) h (o : obj A P) :
  is_loss o = true -> holds_loss (model ++ [(key, length h)]) (h ++ [o]) (length h).
Proof.
  intros Ho. split.
  - rewrite map_app. apply in_or_app. right. left. reflexivity.
  - rewrite (loss_at_is_loss _ _ o); [assumption|]. apply list_lookup_middle. reflexivity.
Qed.

Local Open Scope M_scope.

(** The content branch of an iteration of the scan. *)
Lemma content_branch_progress model (s0 s1 : list nat) h (ci : loc) x rg g
    (key : string) (losses : list loc) (R : list string) :
  ready model s0 s1 h ->
  h !! ci = Some (OTensor x rg g) -> t_size x = s0 ->
  NoDup (map fst model ++ key :: R) ->
  exists model' losses' h',
    (let* target := call_on model ci in
     let* content_loss := ContentLoss_init target in
     ret (add_module key content_loss model, losses ++ [content_loss])) h
    = Ok ((model', losses'), h')
    /\ shape_le h h'
    /\ ready model' s0 s1 h'
    /\ NoDup (map fst model' ++ R)
    /\ (forall m, holds_loss model h m -> holds_loss model' h' m)
    /\ (Forall (holds_loss model h) losses -> Forall (holds_loss model' h') losses').
Proof.
  intros Hr Hi Hx Hnd.
  destruct (call_on_ready model s0 s1 h ci x rg g Hr Hi Hx)
    as (target & h1 & Hcall & Ht & Hle & _).
  destruct (add_fresh_step model key (length h1) R Hnd) as [Hadd Hnd'].
  set (h2 := h1 ++ [OContentLoss target None]).
  assert (Hle2 : shape_le h h2)
    by (eapply shape_le_trans; [exact Hle|apply shape_le_app]).
  assert (Hold : forall m, holds_loss model h m
                           -> holds_loss (model ++ [(key, length h1)]) h2 m)
    by (intros m; apply holds_loss_mono; assumption).
  exists (model ++ [(key, length h1)]), (losses ++ [length h1]), h2.
  split; [|split; [assumption|split; [|split; [assumption|split; [assumption|]]]]].
  - rewrite (bind_Ok_intro _ _ _ _ _ Hcall). unfold ContentLoss_init, bind, alloc, ret.
    rewrite Hadd. reflexivity.
  - eapply ready_snoc.
    + eapply ready_mono; eassumption.
    + unfold h2. apply list_lookup_middle. reflexivity.
    + simpl. rewrite bool_decide_eq_true_2 by assumption. reflexivity.
  - intros Hl. apply Forall_app. split.
    + eapply Forall_impl; [exact Hl|]. exact Hold.
    + constructor; [|constructor]. apply holds_loss_new. reflexivity.
Qed.

(** The style branch. *)
Lemma style_branch_progress model (s0 s1 : list nat) h (si : loc) x rg g
    (key : string) (losses : list loc) (R : list string) :
  ready model s0 s1 h ->
  length s1 = 4 ->
  h !! si = Some (OTensor x rg g) -> t_size x = s0 ->
  NoDup (map fst model ++ key :: R) ->
  exists model' losses' h',
    (let* target_feature := call_on model si in
     let* style_loss := StyleLoss_init target_feature in
     ret (add_module key style_loss model, losses ++ [style_loss])) h
    = Ok ((model', losses'), h')
    /\ shape_le h h'
    /\ ready model' s0 s1 h'
    /\ NoDup (map fst model' ++ R)
    /\ (forall m, holds_loss model h m -> holds_loss model' h' m)
    /\ (Forall (holds_loss model h) losses -> Forall (holds_loss model' h') losses').
Proof.
  intros Hr H4 Hi Hx Hnd.
  destruct (call_on_ready model s0 s1 h si x rg g Hr Hi Hx)
    as (tf & h1 & Hcall & Ht & Hle & _).
  destruct s1 as [|a [|b [|c [|d [|? ?]]]]]; try discriminate H4.
  destruct (gram_matrix_size tf a b c d Ht) as (G & HG & HGs).
  destruct (add_fresh_step model key (length h1) R Hnd) as [Hadd Hnd'].
  set (h2 := h1 ++ [OStyleLoss G None]).
  assert (Hle2 : shape_le h h2)
    by (eapply shape_le_trans; [exact Hle|apply shape_le_app]).
  assert (Hold : forall m, holds_loss model h m
                           -> holds_loss (model ++ [(key, length h1)]) h2 m)
    by (intros m; apply holds_loss_mono; assumption).
  exists (model ++ [(key, length h1)]), (losses ++ [length h1]), h2.
  split; [|split; [assumption|split; [|split; [assumption|split; [assumption|]]]]].
  - rewrite (bind_Ok_intro _ _ _ _ _ Hcall).
    unfold StyleLoss_init, bind, lift, alloc, ret. rewrite HG, Hadd. reflexivity.
  - eapply ready_snoc.
    + eapply ready_mono; eassumption.
    + unfold h2. apply list_lookup_middle. reflexivity.
    + simpl. rewrite bool_decide_eq_true_2 by assumption. reflexivity.
  - intros Hl. apply Forall_app. split.
    + eapply Forall_impl; [exact Hl|]. exact Hold.
    + constructor; [|constructor]. apply holds_loss_new. reflexivity.
Qed.

(** An iteration of the scan on a child of one of the four kinds. *)
Lemma scan_layer_progress (ci si : loc) (cl sl : list string) st (layer : loc) h
    (s0 s1 : list nat) xc rgc gc xs rgs gs (c : module_class) inpl (p : P)
    (i : nat) (name : string) (R : list string) :
  ready (st_model st) s0 s1 h ->
  length s1 = 4 ->
  h !! ci = Some (OTensor xc rgc gc) -> t_size xc = s0 ->
  h !! si = Some (OTensor xs rgs gs) -> t_size xs = s0 ->
  h !! layer = Some (OLayer c inpl p) ->
  layer_name c (st_i st) = Ok (i, name) ->
  NoDup (map fst (st_model st)
         ++ (name
             :: (if py_in name cl then [("content_loss_" ++ fmt i)%string] else [])
             ++ (if py_in name sl then [("style_loss_" ++ fmt i)%string] else []))
         ++ R) ->
  exists st' h' s1',
    scan_layer ci si cl sl st layer h = Ok (st', h')
    /\ shape_le h h'
    /\ length s1' = 4
    /\ ready (st_model st') s0 s1' h'
    /\ st_i st' = i
    /\ NoDup (map fst (st_model st') ++ R)
    /\ (Forall (holds_loss (st_model st) h) (st_content_losses st ++ st_style_losses st) ->
        Forall (holds_loss (st_model st') h')
          (st_content_losses st' ++ st_style_losses st')).
Proof.
  intros Hr H4 Hci Hxc Hsi Hxs Hl Hn Hnd.
  assert (Hc : recognized c = true) by (destruct c; try reflexivity; discriminate Hn).
  (* the layer that is added *)
  assert (Ha : exists layer' h0 o' s1',
             (match c with
              | ReLU => alloc (OLayer ReLU false no_params)
              | _ => ret layer
              end) h = Ok (layer', h0)
             /\ shape_le h h0
             /\ h0 !! layer' = Some o'
             /\ step_size o' s1 = Some s1'
             /\ length s1' = 4).
  { assert (Hout : length (out_size c p s1) = 4) by auto using out_size_4d.
    destruct c; try discriminate Hc;
      try (eexists layer, h, (OLayer _ inpl p), _; split; [reflexivity|];
           split; [apply shape_le_refl|]; split; [eassumption|];
           simpl; rewrite H4; split; [reflexivity|assumption]).
    exists (length h), (h ++ [OLayer ReLU false no_params]),
      (OLayer ReLU false no_params), s1.
    repeat split; auto using shape_le_app.
    apply list_lookup_middle. reflexivity. }
  destruct Ha as (layer' & h0 & o' & s1' & Ha & Hle0 & Hl0 & Hs0 & H4').
  cbn [app] in Hnd. rewrite <- app_assoc in Hnd.
  destruct (add_fresh_step (st_model st) name layer' _ Hnd) as [Hadd Hnd1].
  set (model1 := st_model st ++ [(name, layer')]) in *.
  assert (Hr1 : ready model1 s0 s1' h0).
  { eapply ready_snoc; [eapply ready_mono; eassumption|eassumption|assumption]. }
  destruct (shape_le_tensor h h0 ci _ _ _ Hle0 Hci) as (xc0 & rgc0 & gc0 & Hci0 & Hxc0).
  (* the content loss *)
  assert (Hcb : exists model2 losses2 h1,
             (if py_in name cl then
                let* target := call_on model1 ci in
                let* content_loss := ContentLoss_init target in
                ret (add_module ("content_loss_" ++ fmt i)%string content_loss model1,
                     st_content_losses st ++ [content_loss])
              else ret (model1, st_content_losses st)) h0 = Ok ((model2, losses2), h1)
             /\ shape_le h0 h1
             /\ ready model2 s0 s1' h1
             /\ NoDup (map fst model2
                       ++ (if py_in name sl then [("style_loss_" ++ fmt i)%string] else [])
                       ++ R)
             /\ (forall m, holds_loss model1 h0 m -> holds_loss model2 h1 m)
             /\ (Forall (holds_loss model1 h0) (st_content_losses st) ->
                 Forall (holds_loss model2 h1) losses2)).
  { destruct (py_in name cl).
    - cbn [app] in Hnd1.
      eapply content_branch_progress; [eassumption|eassumption|congruence|eassumption].
    - exists model1, (st_content_losses st), h0.
      split; [reflexivity|]. split; [apply shape_le_refl|].
      split; [assumption|]. split; [assumption|]. split; auto. }
  destruct Hcb as (model2 & losses2 & h1 & Hcb & Hle1 & Hr2 & Hnd2 & Hk2 & Hl2).
  assert (Hle01 : shape_le h h1) by (eapply shape_le_trans; eassumption).
  destruct (shape_le_tensor h h1 si _ _ _ Hle01 Hsi) as (xs1 & rgs1 & gs1 & Hsi1 & Hxs1).
  (* the style loss *)
  assert (Hsb : exists model3 losses3 h2,
             (if py_in name sl then
                let* target_feature := call_on model2 si in
                let* style_loss := StyleLoss_init target_feature in
                ret (add_module ("style_loss_" ++ fmt i)%string style_loss model2,
                     st_style_losses st ++ [style_loss])
              else ret (model2, st_style_losses st)) h1 = Ok ((model3, losses3), h2)
             /\ shape_le h1 h2
             /\ ready model3 s0 s1' h2
             /\ NoDup (map fst model3 ++ R)
             /\ (forall m, holds_loss model2 h1 m -> holds_loss model3 h2 m)
             /\ (Forall (holds_loss model2 h1) (st_style_losses st) ->
                 Forall (holds_loss model3 h2) losses3)).
  { destruct (py_in name sl).
    - cbn [app] in Hnd2.
      eapply style_branch_progress;
        [eassumption|assumption|eassumption|congruence|eassumption].
    - exists model2, (st_style_losses st), h1.
      split; [reflexivity|]. split; [apply shape_le_refl|].
      split; [assumption|]. split; [assumption|]. split; auto. }
  destruct Hsb as (model3 & losses3 & h2 & Hsb & Hle2 & Hr3 & Hnd3 & Hk3 & Hl3).
  assert (Hk1 : forall m, holds_loss (st_model st) h m -> holds_loss model1 h0 m)
    by (intros m; apply holds_loss_mono; assumption).
  exists (ScanState model3 i losses2 losses3), h2, s1'.
  split; [|split; [eapply shape_le_trans; eassumption|]].
  2: { repeat (split; [first [assumption|reflexivity]|]).
       cbn [st_model st_content_losses st_style_losses]. intros Hall.
       apply Forall_app in Hall. destruct Hall as [Hallc Halls].
       apply Forall_app. split.
       - eapply Forall_impl; [apply Hl2; eapply Forall_impl; [exact Hallc|exact Hk1]|].
         exact Hk3.
       - apply Hl3. eapply Forall_impl; [exact Halls|]. intros m Hm. auto. }
  unfold scan_layer.
  rewrite (bind_Ok_intro _ _ _ _ _ (read_Some _ _ _ Hl)). cbn [class_of].
  unfold bind at 1, lift. rewrite Hn. cbn beta iota.
  rewrite (bind_Ok_intro _ _ _ _ _ Ha). rewrite Hadd. fold model1.
  rewrite (bind_Ok_intro _ _ _ _ _ Hcb). cbn beta iota.
  rewrite (bind_Ok_intro _ _ _ _ _ Hsb). reflexivity.
Qed.

Lemma shape_le_tensor_at h h' (l : loc) (s : list nat) :
  shape_le h h' -> tensor_at h l (eq s) -> tensor_at h' l (eq s).
Proof.
  intros Hle (x & rg & g & Hl & Hx).
  destruct (shape_le_tensor h h' l x rg g Hle Hl) as (x' & rg' & g' & Hl' & Hx').
  exists x', rg', g'. split; [assumption|congruence].
Qed.

Lemma first_unrecognized_cons (c : module_class) (cs : list module_class) :
  recognized c = true -> first_unrecognized (c :: cs) = first_unrecognized cs.
Proof. destruct c; try reflexivity. discriminate. Qed.

Lemma first_unrecognized_None (cs : list module_class) :
  first_unrecognized cs = None <-> Forall (fun c => recognized c = true) cs.
Proof.
  induction cs as [|c cs IH]; simpl.
  - split; [constructor|reflexivity].
  - rewrite Forall_cons. destruct c; simpl; rewrite ?IH; try tauto.
    split; [discriminate|intros [? _]; discriminate].
Qed.

(** The scan on children of the four kinds runs to its end; at the first
    child of another kind it raises. *)
Lemma scan_layers_progress (ci si : loc) (cl sl : list string) (s0 : list nat)
    (layers : list loc) :
  forall (cs done : list module_class) st h (s1 : list nat),
    Forall2 (fun l c => exists o, h !! l = Some o /\ class_of o = c) layers cs ->
    ready (st_model st) s0 s1 h ->
    length s1 = 4 ->
    tensor_at h ci (eq s0) ->
    tensor_at h si (eq s0) ->
    st_i st = convs_seen done ->
    NoDup (map fst (st_model st)
           ++ flat_map (spec_added_names_at cl sl (done ++ cs))
                (seq (length done) (length cs))) ->
    match first_unrecognized cs with
    | Some n =>
        scan_layers ci si cl sl layers st h
        = Raise (RuntimeError ("Unrecognized layer: " ++ n))
    | None =>
        exists st' h' s1',
          scan_layers ci si cl sl layers st h = Ok (st', h')
          /\ ready (st_model st') s0 s1' h'
          /\ (Forall (holds_loss (st_model st) h)
                (st_content_losses st ++ st_style_losses st) ->
              Forall (holds_loss (st_model st') h')
                (st_content_losses st' ++ st_style_losses st'))
    end.
Proof.
  induction layers as [|l rest IH]; intros cs done st h s1 Hcs Hr H4 Hci Hsi Hi Hnd.
  - apply Forall2_nil_inv_l in Hcs. subst cs. simpl.
    exists st, h, s1. split; [reflexivity|]. split; [assumption|auto].
  - apply Forall2_cons_inv_l in Hcs. destruct Hcs as (c & cs' & (o & Hl & Hc) & Hrest & ->).
    destruct (recognized c) eqn:Hrec.
    + (* a child of one of the four kinds *)
      rewrite first_unrecognized_cons by assumption.
      assert (Ho : exists inpl p, o = OLayer c inpl p).
      { destruct o; simpl in Hc; subst c; try discriminate Hrec. eauto. }
      destruct Ho as (inpl & p & ->).
      destruct (layer_name_recognized c (st_i st) Hrec) as (i & name & Hn).
      assert (Hn' := Hn). rewrite Hi in Hn'.
      destruct (spec_layer_name_middle done cs' c i name Hn') as [Hname Hconv].
      assert (Hi1 : i = convs_seen (done ++ [c])).
      { rewrite convs_seen_snoc. apply layer_name_spec in Hn'.
        destruct Hn' as (_ & _ & _ & ->). reflexivity. }
      cbn [length seq flat_map] in Hnd.
      unfold spec_added_names_at at 1 in Hnd. rewrite Hname, Hconv in Hnd.
      destruct Hci as (xc & rgc & gc & Hci & Hxc).
      destruct Hsi as (xs & rgs & gs & Hsi & Hxs).
      destruct (scan_layer_progress ci si cl sl st l h s0 s1 xc rgc gc xs rgs gs
                  c inpl p i name _ Hr H4 Hci (eq_sym Hxc) Hsi (eq_sym Hxs) Hl Hn Hnd)
        as (st1 & h1 & s1' & Hstep & Hle & H4' & Hr1 & Hi' & Hnd1 & Hk1).
      assert (Happ : done ++ c :: cs' = (done ++ [c]) ++ cs')
        by (rewrite <- app_assoc; reflexivity).
      assert (Hlen : S (length done) = length (done ++ [c]))
        by (rewrite List.length_app; simpl; lia).
      rewrite Happ, Hlen in Hnd1.
      assert (Hrest1 : Forall2 (fun l c => exists o, h1 !! l = Some o /\ class_of o = c)
                         rest cs').
      { eapply Forall2_impl; [exact Hrest|]. simpl. intros l0 c0 (o0 & Hl0 & Hc0).
        destruct (Hle l0 o0 Hl0) as (o1 & Hl1 & Hs1). exists o1.
        split; [assumption|]. rewrite (sig_eq_class _ _ Hs1). assumption. }
      assert (Hci1 : tensor_at h1 ci (eq s0))
        by (eapply shape_le_tensor_at; [exact Hle|]; exists xc, rgc, gc; auto).
      assert (Hsi1 : tensor_at h1 si (eq s0))
        by (eapply shape_le_tensor_at; [exact Hle|]; exists xs, rgs, gs; auto).
      specialize (IH cs' (done ++ [c]) st1 h1 s1' Hrest1 Hr1 H4' Hci1 Hsi1
                    (eq_trans Hi' Hi1) Hnd1).
      cbn [scan_layers]. rewrite (bind_Ok_intro _ _ _ _ _ Hstep).
      destruct (first_unrecognized cs'); [exact IH|].
      destruct IH as (st' & h' & s1'' & Hrest' & Hr' & Hk').
      exists st', h', s1''. split; [assumption|]. split; [assumption|auto].
    + (* a child of another kind *)
      destruct c as [| | | |n]; try discriminate Hrec. simpl.
      unfold bind at 1. unfold scan_layer, bind at 1, read. rewrite Hl.
      unfold bind, lift. rewrite Hc. reflexivity.
Qed.

Lemma deepcopy_from_total (ms : Sequential) :
  forall (memo : list (loc * loc)) h,
    Forall (fun e => snd e < length h) ms ->
    exists ms' h', deepcopy_from memo ms h = Ok (ms', h').
Proof.
  induction ms as [|[n l] rest IH]; intros memo h Hv; simpl; [unfold ret; eauto|].
  apply Forall_cons in Hv. destruct Hv as [Hl Hrest]. simpl in Hl.
  destruct (list_find (fun e => fst e =? l) memo) as [[k [l0 l']]|].
  - destruct (IH memo h Hrest) as (rest' & h1 & Hrec).
    rewrite (bind_Ok_intro _ _ _ _ _ Hrec). unfold ret. eauto.
  - destruct (lookup_lt_is_Some_2 h l Hl) as [o Ho].
    rewrite (bind_Ok_intro _ _ _ _ _ (read_Some _ _ _ Ho)).
    unfold bind at 1, alloc.
    destruct (IH ((l, length h) :: memo) (h ++ [o])) as (rest' & h1 & Hrec).
    + eapply Forall_impl; [exact Hrest|]. simpl. intros e He.
      rewrite List.length_app. simpl. lia.
    + rewrite (bind_Ok_intro _ _ _ _ _ Hrec). unfold ret. eauto.
Qed.

Lemma broadcast_channels (b ch hh w : nat) :
  broadcast_shapes [b; ch; hh; w] [ch; 1; 1] = Some [b; ch; hh; w].
Proof.
  unfold broadcast_shapes. simpl. rewrite Nat.eqb_refl.
  destruct (w =? 1), (hh =? 1); reflexivity.
Qed.

Lemma classes_of_valid h (ext : heap A P) (ls : list loc) :
  Forall (fun l => l < length h) ls ->
  Forall2 (fun l c => exists o, (h ++ ext) !! l = Some o /\ class_of o = c)
    ls (map (class_at h) ls).
Proof.
  induction 1 as [|l ls Hl _ IH]; simpl; constructor; [|assumption].
  destruct (lookup_lt_is_Some_2 h l Hl) as [o Ho]. exists o.
  rewrite lookup_app_l by assumption. unfold class_at. rewrite Ho. auto.
Qed.

(** A model whose first modules take an input of size [s0] takes it
    too. *)
Lemma ready_take model (s0 s1 : list nat) h (n : nat) :
  ready model s0 s1 h -> forall h2, shape_le h h2 -> accepts (take n model) s0 h2.
Proof.
  intros Hr h2 Hle x Hx.
  destruct (Hr h2 x Hle Hx) as (y & h' & Hf & _).
  rewrite <- (take_drop n model), Sequential_forward_app in Hf.
  apply bind_Ok in Hf as (y1 & h1 & Hf1 & _). eauto.
Qed.

Lemma holds_loss_shape_le model h h' (m : loc) :
  shape_le h h' -> holds_loss model h m -> holds_loss model h' m.
Proof.
  intros Hle Hm. rewrite <- (app_nil_r model). eapply holds_loss_mono; eassumption.
Qed.

(** The whole of [get_style_model_and_losses]: it raises at the first
    child of another kind, and otherwise returns a model that takes the
    images of the given size. *)
Lemma get_style_model_and_losses_runs (cnn : Sequential) (mean std si ci : loc)
    (cl sl : list string) h (b ch hh w : nat) :
  Forall (fun e => snd e < length h) cnn ->
  tensor_at h mean (fun s => numel s = ch) ->
  tensor_at h std (fun s => numel s = ch) ->
  tensor_at h si (eq [b; ch; hh; w]) ->
  tensor_at h ci (eq [b; ch; hh; w]) ->
  NoDup (spec_added_names cl sl (child_classes h cnn)) ->
  match first_unrecognized (child_classes h cnn) with
  | Some n =>
      get_style_model_and_losses cnn mean std si ci cl sl h
      = Raise (RuntimeError ("Unrecognized layer: " ++ n))
  | None =>
      exists model sls cls h',
        get_style_model_and_losses cnn mean std si ci cl sl h
        = Ok ((model, sls, cls), h')
        /\ (forall h2, shape_le h' h2 -> accepts model [b; ch; hh; w] h2)
        /\ Forall (holds_loss model h') (cls ++ sls)
  end.
Proof.
  intros Hv Hmean Hstd Hsi Hci Hnd.
  destruct (deepcopy_from_total cnn [] h Hv) as (cnn' & h1 & Hcopy).
  destruct (deepcopy_Ok cnn cnn' h h1 Hcopy Hv) as (objs & -> & Hch & Hcls).
  destruct Hmean as (m & rgm & gm & Hm & Hmn).
  destruct Hstd as (sd & rgd & gd & Hd & Hdn).
  set (h1 := h ++ objs) in *.
  set (norm := ONormalization (view_m1_1_1 m) (view_m1_1_1 sd) : obj A P).
  assert (Hnorm : Normalization_init mean std h1 = Ok (length h1, h1 ++ [norm])).
  { unfold Normalization_init, read_tensor, bind, read. unfold h1.
    rewrite lookup_app_l by (eapply lookup_lt_Some; eassumption).
    rewrite Hm. cbn beta iota. unfold ret.
    rewrite lookup_app_l by (eapply lookup_lt_Some; eassumption).
    rewrite Hd. reflexivity. }
  set (s0 := [b; ch; hh; w]) in *.
  assert (Hle : shape_le h (h1 ++ [norm])).
  { unfold h1. rewrite <- app_assoc. apply shape_le_app. }
  assert (Hr : ready [("0", length h1)] s0 s0 (h1 ++ [norm])).
  { apply (ready_snoc [] s0 s0 s0 _ "0" (length h1) norm (ready_nil s0 _)).
    - apply list_lookup_middle. reflexivity.
    - unfold norm, s0. simpl. rewrite Hmn, Hdn, !broadcast_channels. reflexivity. }
  assert (Hcs : Forall2 (fun l c => exists o, (h1 ++ [norm]) !! l = Some o /\ class_of o = c)
                  (children cnn') (child_classes h cnn)).
  { rewrite <- Hcls. apply classes_of_valid. rewrite Hch. apply Forall_forall.
    intros l Hl. apply list_elem_of_In, in_seq in Hl. unfold h1.
    rewrite List.length_app. lia. }
  assert (Hscan := scan_layers_progress ci si cl sl s0 (children cnn')
            (child_classes h cnn) [] (ScanState [("0", length h1)] 0 [] [])
            (h1 ++ [norm]) s0 Hcs Hr eq_refl
            (shape_le_tensor_at _ _ _ _ Hle Hci) (shape_le_tensor_at _ _ _ _ Hle Hsi)
            eq_refl).
  unfold get_style_model_and_losses.
  rewrite (bind_Ok_intro _ _ _ _ _ Hcopy), (bind_Ok_intro _ _ _ _ _ Hnorm).
  cbn zeta.
  destruct (first_unrecognized (child_classes h cnn)) as [n|].
  - apply bind_Raise. apply Hscan. simpl. constructor; [|exact Hnd].
    rewrite list_elem_of_In. apply spec_added_names_not_0.
  - destruct Hscan as (st' & h3 & s1' & Hscan & Hr' & Hk').
    { simpl. constructor; [|exact Hnd].
      rewrite list_elem_of_In. apply spec_added_names_not_0. }
    rewrite (bind_Ok_intro _ _ _ _ _ Hscan). unfold bind, trim, ret.
    eexists _, _, _, _. split; [reflexivity|].
    split; [eapply ready_take; eassumption|].
    eapply Forall_impl; [apply Hk'; constructor|].
    intros k. apply trim_keeps_losses.
Qed.

Lemma get_style_model_and_losses_progress (cnn : Sequential) (mean std si ci : loc)
    (cl sl : list string) h (b ch hh w : nat) :
  Forall (fun e => snd e < length h) cnn ->
  tensor_at h mean (fun s => numel s = ch) ->
  tensor_at h std (fun s => numel s = ch) ->
  tensor_at h si (eq [b; ch; hh; w]) ->
  tensor_at h ci (eq [b; ch; hh; w]) ->
  NoDup (spec_added_names cl sl (child_classes h cnn)) ->
  match first_unrecognized (child_classes h cnn) with
  | Some n =>
      get_style_model_and_losses cnn mean std si ci cl sl h
      = Raise (RuntimeError ("Unrecognized layer: " ++ n))
  | None =>
      exists model sls cls h',
        get_style_model_and_losses cnn mean std si ci cl sl h
        = Ok ((model, sls, cls), h')
  end.
Proof.
  intros Hv Hmean Hstd Hsi Hci Hnd.
  pose proof (get_style_model_and_losses_runs cnn mean std si ci cl sl h b ch hh w
                Hv Hmean Hstd Hsi Hci Hnd) as Hrun.
  destruct (first_unrecognized (child_classes h cnn)); [assumption|].
  destruct Hrun as (model & sls & cls & h' & Hg & _). eauto.
Qed.

End ProgressFacts.

Section UnrecognizedLayers.
Context {A P : Type} `{Scalar A} `{Framework A P}.


End UnrecognizedLayers.

Lemma toy_regular : regular (fun (_ : module_class) (_ : nat) (s : list nat) => s).
Proof.
  intros c p x Hc H4. destruct c; try discriminate Hc; simpl; eauto 10.
Qed.



(** ** The classifier *)

Section ClassifierFacts.
Local Open Scope res_scope.

Lemma rbind_assoc {X Y Z : Type} (m : result X) (f : X -> result Y) (g : Y -> result Z) :
  rbind (rbind m f) g = rbind m (fun x => rbind (f x) g).
Proof. destruct m; reflexivity. Qed.

Ltac first_call m :=
  lazymatch m with
  | rbind ?m' _ => first_call m'
  | _ => m
  end.

Lemma Net_forward_blocks {T : Type} `{NN T} (self : Net) (x : T) :
  Net_forward self x =
  (let* y := three_blocks self x in
   let* z := nn_view y (num_flat_features y) in
   fully_connected self z).
Proof.
  unfold Net_forward, three_blocks, fully_connected, conv_block.
  repeat match goal with
         | |- rbind ?m _ = _ =>
             let hd := first_call m in destruct hd; cbn [rbind]; [|reflexivity]
         end.
  reflexivity.
Qed.

Lemma update_events_of_batch (i : nat) :
  List.filter is_update (train_batch i) =
  [EvLoss CrossEntropyLoss i; EvBackward i; EvStep (SGD (1 # 1000) (9 # 10))].
Proof.
  unfold train_batch. rewrite List.filter_app.
  destruct (i mod log_interval =? 0); reflexivity.
Qed.

Lemma steps_of_batch (i : nat) : length (List.filter is_step (train_batch i)) = 1.
Proof.
  unfold train_batch. rewrite List.filter_app.
  destruct (i mod log_interval =? 0); reflexivity.
Qed.

(** C4: [Net.forward] is three blocks of a convolution, a batch
    normalisation, a ReLU and a max-pooling, in that order, then the
    flattening and the fully connected layers, whatever the activations
    are; on a batch of the loader these are the operations it applies, and
    it returns ten values per image.  The loss of the training is the
    cross-entropy and the optimizer is SGD; [train] computes, for every
    batch in turn, the loss, its backward pass and one step of the
    optimizer. *)
Theorem classifier_is_three_blocks_trained_by_sgd :
  (forall (T : Type) (I : NN T) (self : Net) (x : T),
     Net_forward self x =
     (let* y := three_blocks self x in
      let* z := nn_view y (num_flat_features y) in
      fully_connected self z)
     /\ three_blocks self x =
        (let* x1 := conv_block (conv1 self) (b1 self) (pool self) (training self) x in
         let* x2 := conv_block (conv2 self) (b2 self) (pool self) (training self) x1 in
         conv_block (conv3 self) (b3 self) (pool self) (training self) x2))
  /\ Net_forward Net_init (mnist_batch, []) =
     Ok ([16; 10],
         block_ops ++ block_ops ++ block_ops
         ++ [OpView; OpLinear; OpBatchNorm1d; OpReLU; OpDropout; OpLinear])
  /\ three_blocks Net_init (mnist_batch, []) =
     Ok ([16; 128; 1; 1], block_ops ++ block_ops ++ block_ops)
  /\ criterion = CrossEntropyLoss
  /\ the_optimizer = SGD (1 # 1000) (9 # 10)
  /\ forall batches : nat,
       List.filter is_update (train batches) =
       flat_map (fun i => [EvLoss CrossEntropyLoss i; EvBackward i; EvStep the_optimizer])
                (seq 0 batches)
       /\ length (List.filter is_step (train batches)) = batches.
Proof.
  split; [|split; [|split; [|split; [|split]]]].
  - intros T I self x. split; [apply Net_forward_blocks|reflexivity].
  - vm_compute. reflexivity.
  - vm_compute. reflexivity.
  - reflexivity.
  - reflexivity.
  - intros batches. unfold train. cbn [List.filter is_update is_step].
    generalize 0 as start.
    induction batches as [|n IH]; intros start; [split; reflexivity|].
    cbn [seq flat_map]. rewrite !List.filter_app, length_app.
    rewrite update_events_of_batch, steps_of_batch.
    destruct (IH (S start)) as [IH1 IH2]. rewrite IH1, IH2.
    split; reflexivity.
Qed.

(** C7: on a batch of test images the model in evaluation mode returns
    the output of [fcn2], ten class scores per image; the flattened
    activation of 128 values per image is what the network computes before
    its fully connected layers. *)
Theorem model_output_is_ten_class_scores :
  Net_forward (Net_eval Net_init) mnist_batch = Ok [16; 10]
  /\ truncated_classifier (Net_eval Net_init) mnist_batch = Ok [16; 128]
  /\ forall (T : Type) (I : NN T) (self : Net) (x : T),
       Net_forward self x =
       (let* y := truncated_classifier self x in fully_connected self y).
Proof.
  split; [vm_compute; reflexivity|]. split; [vm_compute; reflexivity|].
  intros T I self x. rewrite Net_forward_blocks. unfold truncated_classifier.
  rewrite rbind_assoc. reflexivity.
Qed.

End ClassifierFacts.

(** * Further properties *)

(** ** Indices, broadcasting and the tensor functions *)

Section IndexFacts.
Context {A : Type} `{Scalar A}.

Lemma length_indices (s : list nat) : length (indices s) = numel s.
Proof.
  induction s as [|n s IH]; [reflexivity|].
  cbn [indices numel fold_right]. fold (numel s). rewrite <- IH.
  generalize (indices s) as l. intros l.
  generalize 0 as start.
  induction n as [|n IHn]; intros start; [reflexivity|].
  cbn [seq flat_map]. rewrite List.length_app, List.length_map, IHn. simpl. lia.
Qed.

Lemma nth_flat_map_seq {B : Type} (g : nat -> list B) (m n i r : nat) (d : B) :
  (forall k, length (g k) = m) -> i < n -> r < m ->
  nth (i * m + r) (flat_map g (seq 0 n)) d = nth r (g i) d.
Proof.
  intros Hg. induction n as [|n IH]; intros Hi Hr; [lia|].
  assert (Hlen : length (flat_map g (seq 0 n)) = n * m).
  { clear IH Hi. induction n as [|n IHn]; [reflexivity|].
    rewrite seq_S, flat_map_app, List.length_app, IHn. simpl.
    rewrite List.length_app, Hg. simpl. lia. }
  rewrite seq_S, flat_map_app. simpl. rewrite app_nil_r.
  destruct (Nat.eq_dec i n) as [->|Hne].
  - rewrite app_nth2; rewrite Hlen; [|lia]. f_equal. lia.
  - rewrite app_nth1; [apply IH; lia|]. rewrite Hlen. nia.
Qed.

Lemma rank_lt (s idx : list nat) : Forall2 lt idx s -> rank s idx < numel s.
Proof.
  intros Hr. induction Hr as [|i n idx s Hi _ IH]; simpl; [lia|].
  fold (numel s). nia.
Qed.

Lemma nth_rank_indices (s idx : list nat) (d : list nat) :
  Forall2 lt idx s -> nth (rank s idx) (indices s) d = idx.
Proof.
  intros Hr. revert d. induction Hr as [|i n idx s Hi Hr IH]; intros d; [reflexivity|].
  cbn [rank indices].
  rewrite (nth_flat_map_seq _ (numel s)).
  - rewrite (nth_indep _ d (i :: d))
      by (rewrite List.length_map, length_indices; apply rank_lt; assumption).
    rewrite (map_nth (cons i)). f_equal. apply IH.
  - intros k. rewrite List.length_map. apply length_indices.
  - assumption.
  - apply rank_lt. assumption.
Qed.

Lemma offset_rev_app (s1 s2 i1 i2 : list nat) (stride : nat) :
  length s1 = length i1 ->
  offset_rev (s1 ++ s2) (i1 ++ i2) stride
  = offset_rev s1 i1 stride + offset_rev s2 i2 (stride * numel s1).
Proof.
  revert i1 stride. induction s1 as [|n s1 IH]; intros [|i i1] stride Hl;
    try discriminate Hl.
  - simpl. f_equal. lia.
  - simpl in Hl. injection Hl as Hl. cbn [app offset_rev].
    rewrite (IH i1 (stride * n) Hl). cbn [numel fold_right]. fold (numel s1).
    rewrite <- Nat.add_assoc. do 3 f_equal. lia.
Qed.

Lemma numel_rev (s : list nat) : numel (rev s) = numel s.
Proof.
  induction s as [|n s IH]; [reflexivity|]. simpl. unfold numel in *.
  rewrite fold_right_app. simpl.
  rewrite <- IH. clear IH. generalize (rev s) as l. intros l.
  induction l as [|a l IHl]; simpl; [lia|]. rewrite IHl. lia.
Qed.

(** A tensor holds the element of a multi-index at its rank. *)
Lemma offset_rev_rank (s idx : list nat) :
  Forall2 lt idx s -> offset_rev (rev s) (rev idx) 1 = rank s idx.
Proof.
  intros Hr. induction Hr as [|i n idx s Hi Hr IH]; [reflexivity|].
  cbn [rev rank]. rewrite offset_rev_app
    by (rewrite !length_rev; symmetry; eapply Forall2_length; eassumption).
  rewrite IH, numel_rev. simpl.
  destruct (Nat.eqb_spec n 1) as [->|Hne]; [|lia].
  assert (i = 0) by lia. subst i. lia.
Qed.

Lemma bget_rank (x : tensor A) (idx : list nat) :
  Forall2 lt idx (t_size x) -> bget x idx = at_ (t_data x) (rank (t_size x) idx).
Proof. intros Hr. unfold bget. rewrite offset_rev_rank by assumption. reflexivity. Qed.

Lemma indices_in_range (s : list nat) :
  Forall (fun idx => Forall2 lt idx s) (indices s).
Proof.
  induction s as [|n s IH]; [repeat constructor|].
  apply Forall_forall. intros idx Hin. apply list_elem_of_In in Hin.
  cbn [indices] in Hin. apply in_flat_map in Hin. destruct Hin as (i & Hi & Hin).
  apply in_map_iff in Hin. destruct Hin as (idx' & <- & Hin').
  apply in_seq in Hi. constructor; [lia|].
  rewrite Forall_forall in IH. apply IH, list_elem_of_In. assumption.
Qed.

Lemma flat_map_rows (N n : nat) :
  flat_map (fun i => map (fun r => i * N + r) (seq 0 N)) (seq 0 n) = seq 0 (n * N).
Proof.
  induction n as [|n IH]; [reflexivity|].
  rewrite seq_S, flat_map_app, IH. simpl. rewrite app_nil_r.
  replace (N + n * N) with (n * N + N) by lia. rewrite seq_app. f_equal.
  simpl. replace (seq (n * N) N) with (seq (n * N + 0) N) by (f_equal; lia).
  rewrite <- (fmap_add_seq (n * N) 0 N). reflexivity.
Qed.

Lemma map_rank_indices (s : list nat) : map (rank s) (indices s) = seq 0 (numel s).
Proof.
  induction s as [|n s IH]; [reflexivity|].
  cbn [indices]. rewrite flat_map_concat_map, concat_map, map_map.
  rewrite <- flat_map_concat_map.
  erewrite flat_map_ext; [apply (flat_map_rows (numel s) n)|].
  intros i. rewrite map_map. cbn [rank]. rewrite <- IH, map_map. reflexivity.
Qed.

(** An operation on two tensors of one size works element by element. *)
Lemma broadcast_binop_same_size (f : A -> A -> A) (x y : tensor A) :
  t_size x = t_size y ->
  broadcast_binop f x y
  = Ok (Tensor (t_size x)
          (map (fun r => f (at_ (t_data x) r) (at_ (t_data y) r))
               (seq 0 (numel (t_size x))))).
Proof.
  intros Hs. unfold broadcast_binop. rewrite <- Hs, broadcast_shapes_same.
  do 2 f_equal. rewrite <- map_rank_indices, map_map.
  apply map_ext_in. intros idx Hin.
  pose proof (indices_in_range (t_size x)) as Hr. rewrite Forall_forall in Hr.
  apply list_elem_of_In in Hin. specialize (Hr idx Hin).
  rewrite (bget_rank x idx Hr), (bget_rank y idx) by (rewrite <- Hs; assumption).
  rewrite <- Hs. reflexivity.
Qed.

Lemma at_map_indices (F : list nat -> A) (s idx : list nat) :
  Forall2 lt idx s -> at_ (map F (indices s)) (rank s idx) = F idx.
Proof.
  intros Hr. unfold at_.
  rewrite (nth_indep _ s_zero (F []))
    by (rewrite List.length_map, length_indices; apply rank_lt; assumption).
  rewrite map_nth, nth_rank_indices by assumption. reflexivity.
Qed.

Lemma rank_4d (b c h w n k i j : nat) :
  rank [b; c; h; w] [n; k; i; j] = ((n * c + k) * h + i) * w + j.
Proof. simpl. nia. Qed.

Lemma in_range_4d (b c h w n k i j : nat) :
  n < b -> k < c -> i < h -> j < w -> Forall2 lt [n; k; i; j] [b; c; h; w].
Proof. repeat constructor; assumption. Qed.

(** The statistics of a channel, of size (c, 1, 1), are read at the
    channel of the index. *)
Lemma bget_channel (m : tensor A) (c n k i j : nat) :
  t_size m = [c; 1; 1] -> k < c -> bget m [n; k; i; j] = at_ (t_data m) k.
Proof.
  intros Hs Hk. unfold bget. rewrite Hs. simpl.
  destruct (Nat.eqb_spec c 1) as [->|_]; f_equal; lia.
Qed.

End IndexFacts.

Section TensorTheorems.
Context {A : Type} `{Scalar A}.


(** X3: The Gram matrix is symmetric when the multiplication of the elements
    is commutative. *)
Theorem gram_matrix_symmetric (input G : tensor A) (a b c d i j : nat) :
  (forall u v : A, s_mul u v = s_mul v u) ->
  t_size input = [a; b; c; d] ->
  gram_matrix input = Ok G ->
  i < a * b -> j < a * b ->
  get2 G i j = get2 G j i.
Proof.
  intros Hcomm Hs HG Hi Hj.
  rewrite (gram_matrix_value input a b c d Hs) in HG. injection HG as <-.
  unfold get2. cbn [t_size t_data].
  set (n := s_of_Z (Z.of_nat (a * b * c * d))).
  set (g := fun i0 j0 => sum_list (map _ (seq 0 (c * d)))).
  assert (Hin : forall i j, i < a * b -> j < a * b ->
            at_ (map (fun v => s_div v n) (grid (a * b) (a * b) g)) (i * (a * b) + j)
            = s_div (sum_list (map (fun k => s_mul (at_ (t_data input) (i * (c * d) + k))
                                                   (at_ (t_data input) (j * (c * d) + k)))
                                   (seq 0 (c * d)))) n).
  { intros i0 j0 Hi0 Hj0. unfold at_ at 1.
    rewrite (nth_indep _ s_zero (s_div s_zero n))
      by (rewrite List.length_map, length_grid; nia).
    rewrite (map_nth (fun v => s_div v n)), nth_grid by assumption.
    unfold g. do 2 f_equal. apply map_ext_in. intros k Hk. apply in_seq in Hk.
    rewrite at_grid by lia. reflexivity. }
  rewrite !Hin by assumption. do 2 f_equal. apply map_ext. intros k. apply Hcomm.
Qed.

End TensorTheorems.

Section ModuleTheorems.
Context {A P : Type} `{Scalar A} `{Framework A P}.
Local Open Scope M_scope.
Implicit Types (h : heap A P) (x : tensor A).

Lemma mse_loss_mean_squared_difference (x y : tensor A) :
  t_size x = t_size y -> mse_loss x y = Ok (mean_squared_difference x y).
Proof.
  intros Hs. unfold mse_loss. rewrite broadcast_binop_same_size by assumption.
  reflexivity.
Qed.

(** X4: [ContentLoss.forward] on an input of the size of the target records
    the mean, over all elements, of the squared difference of the input
    and the target, and returns the input. *)
Theorem ContentLoss_records_mean_squared_difference (self : loc)
    (input target : tensor A) l0 h :
  h !! self = Some (OContentLoss target l0) ->
  t_size input = t_size target ->
  ContentLoss_forward self input h
  = Ok (input,
        <[self := OContentLoss target (Some (mean_squared_difference input target))]> h).
Proof.
  intros Hself Hs.
  destruct (ContentLoss_forward_total self input target l0 h Hself Hs)
    as (loss & Hl & _ & ->).
  rewrite mse_loss_mean_squared_difference in Hl by assumption.
  injection Hl as <-. reflexivity.
Qed.


(** X1: [Normalization(mean, std)(img)] on an image of size (b, c, h, w),
    with a mean and a deviation of c values: every element has the mean
    of its channel subtracted and is divided by the deviation of its
    channel. *)
Theorem Normalization_normalizes_channels (mean std : loc) (m sd img : tensor A)
    rgm gm rgs gs h (b c hh w : nat) :
  h !! mean = Some (OTensor m rgm gm) ->
  h !! std = Some (OTensor sd rgs gs) ->
  numel (t_size m) = c ->
  numel (t_size sd) = c ->
  t_size img = [b; c; hh; w] ->
  exists y,
    (let* norm := Normalization_init mean std in call_module norm img) h
    = Ok (y, h ++ [ONormalization (view_m1_1_1 m) (view_m1_1_1 sd)])
    /\ t_size y = [b; c; hh; w]
    /\ forall n k i j, n < b -> k < c -> i < hh -> j < w ->
         get4 y n k i j
         = s_div (s_sub (get4 img n k i j) (at_ (t_data m) k)) (at_ (t_data sd) k).
Proof.
  intros Hm Hsd Hmc Hsc Hs.
  set (norm := ONormalization (view_m1_1_1 m) (view_m1_1_1 sd) : obj A P).
  assert (Hinit : Normalization_init mean std h = Ok (length h, h ++ [norm])).
  { unfold Normalization_init, read_tensor, bind, read. rewrite Hm. cbn beta iota.
    unfold ret. rewrite Hsd. reflexivity. }
  set (s := [b; c; hh; w]) in *.
  set (F1 := fun idx => s_sub (bget img idx) (bget (view_m1_1_1 m) idx)).
  set (d := Tensor s (map F1 (indices s))).
  set (F2 := fun idx => s_div (bget d idx) (bget (view_m1_1_1 sd) idx)).
  assert (Hfw : Normalization_forward (view_m1_1_1 m) (view_m1_1_1 sd) img
                = Ok (Tensor s (map F2 (indices s)))).
  { unfold Normalization_forward, broadcast_binop. rewrite Hs. cbn [view_m1_1_1 t_size].
    rewrite Hmc. unfold s. rewrite broadcast_channels. cbn [rbind t_size].
    rewrite Hsc, broadcast_channels. reflexivity. }
  exists (Tensor s (map F2 (indices s))). split; [|split; [reflexivity|]].
  - rewrite (bind_Ok_intro _ _ _ _ _ Hinit). rewrite call_module_step.
    rewrite list_lookup_middle by reflexivity. unfold norm. cbn [module_step].
    rewrite Hfw. cbn [rbind]. rewrite list_insert_id; [reflexivity|].
    apply list_lookup_middle. reflexivity.
  - intros n k i j Hn Hk Hi Hj.
    pose proof (in_range_4d b c hh w n k i j Hn Hk Hi Hj) as Hr.
    unfold get4. cbn [t_size t_data]. rewrite Hs. unfold s.
    rewrite <- (rank_4d b c hh w). rewrite (at_map_indices F2) by assumption.
    unfold F2. rewrite (bget_channel (view_m1_1_1 sd) c)
      by first [assumption | cbn [view_m1_1_1 t_size]; rewrite Hsc; reflexivity].
    f_equal. rewrite (bget_rank d) by assumption. unfold d. cbn [t_size t_data].
    rewrite (at_map_indices F1) by assumption. unfold F1.
    rewrite (bget_channel (view_m1_1_1 m) c)
      by first [assumption | cbn [view_m1_1_1 t_size]; rewrite Hmc; reflexivity].
    f_equal. rewrite (bget_rank img) by (rewrite Hs; assumption). rewrite Hs.
    reflexivity.
Qed.

End ModuleTheorems.

(** ** The modules of the rebuilt network *)

Section SelectionFacts.
Implicit Types (cl sl : list string) (cs : list module_class) (st : shape_state).

Lemma add_module_head {V : Type} (name : string) (v v0 : V) (ms : list (string * V)) :
  name <> "0" ->
  add_module name v (("0", v0) :: ms) = ("0", v0) :: add_module name v ms.
Proof.
  intros Hne. cbn [add_module]. destruct (String.eqb "0" name) eqn:E; [|reflexivity].
  apply String.eqb_eq in E. congruence.
Qed.

(** One iteration, on names and kinds: what it counts, and what it keeps
    at the head of the model. *)
Lemma shape_layer_selected cl sl (done rest : list module_class) (c : module_class)
    st st1 (tl : list (string * entry)) :
  shape_layer cl sl st c = Ok st1 ->
  sh_i st = convs_seen done ->
  sh_model st = ("0", ENormalization) :: tl ->
  let cs := done ++ c :: rest in
  let k := length done in
  sh_i st1 = convs_seen (done ++ [c])
  /\ sh_content st1 = sh_content st + (if name_selected cl cs k then 1 else 0)
  /\ sh_style st1 = sh_style st + (if name_selected sl cs k then 1 else 0)
  /\ (exists tl1, sh_model st1 = ("0", ENormalization) :: tl1
        /\ (name_selected cl cs k = false -> name_selected sl cs k = false ->
            existsb entry_is_loss (map snd tl) = false ->
            existsb entry_is_loss (map snd tl1) = false)).
Proof.
  intros H1 Hi Hm cs k. unfold shape_layer in H1.
  destruct (layer_name c (sh_i st)) as [[i name]|] eqn:Hn; [|discriminate].
  cbn [rbind] in H1. rewrite Hi in Hn.
  destruct (spec_layer_name_middle done rest c i name Hn) as [Hname _].
  assert (Hi1 : i = convs_seen (done ++ [c])).
  { rewrite convs_seen_snoc. apply layer_name_spec in Hn.
    destruct Hn as (_ & _ & _ & ->). reflexivity. }
  unfold name_selected, cs, k. rewrite Hname.
  pose proof (layer_name_not_0 _ _ _ _ Hn) as Hn0.
  rewrite Hm in H1. rewrite (add_module_head name) in H1 by assumption.
  set (m1 := add_module name (ELayer name c) tl) in *.
  assert (Hm1 : existsb entry_is_loss (map snd tl) = false ->
                existsb entry_is_loss (map snd m1) = false).
  { intros Hno. apply not_true_is_false. intros Hex.
    apply existsb_exists in Hex. destruct Hex as (e & Hin & He).
    apply add_module_values in Hin. destruct Hin as [->|Hin]; [discriminate He|].
    rewrite <- not_true_iff_false in Hno. apply Hno, existsb_exists. eauto. }
  destruct (py_in name cl), (py_in name sl);
    rewrite ?(add_module_head ("content_loss_" ++ fmt i)) in H1 by discriminate;
    rewrite ?(add_module_head ("style_loss_" ++ fmt i)) in H1 by discriminate;
    injection H1 as <-; cbn [sh_i sh_content sh_style sh_model];
    (split; [assumption|]); (split; [lia|]); (split; [lia|]);
    eexists; (split; [reflexivity|]); try discriminate.
  intros _ _. exact Hm1.
Qed.

Lemma filter_seq_S (f : nat -> bool) (a n : nat) :
  length (List.filter f (seq a (S n)))
  = (if f a then 1 else 0) + length (List.filter f (seq (S a) n)).
Proof. simpl. destruct (f a); reflexivity. Qed.

Lemma shape_layers_selected cl sl (rest done : list module_class) st st'
    (tl : list (string * entry)) :
  shape_layers cl sl rest st = Ok st' ->
  sh_i st = convs_seen done ->
  sh_model st = ("0", ENormalization) :: tl ->
  let cs := done ++ rest in
  let range := seq (length done) (length rest) in
  sh_content st' = sh_content st + length (List.filter (name_selected cl cs) range)
  /\ sh_style st' = sh_style st + length (List.filter (name_selected sl cs) range)
  /\ (exists tl', sh_model st' = ("0", ENormalization) :: tl'
        /\ (List.filter (name_selected cl cs) range = [] ->
            List.filter (name_selected sl cs) range = [] ->
            existsb entry_is_loss (map snd tl) = false ->
            existsb entry_is_loss (map snd tl') = false)).
Proof.
  revert done st tl. induction rest as [|c rest IH]; intros done st tl Hs Hi Hm;
    cbn [shape_layers] in Hs.
  - injection Hs as <-. simpl. split; [lia|]. split; [lia|]. eauto.
  - destruct (shape_layer cl sl st c) as [st1|] eqn:H1; [|discriminate].
    cbn [rbind] in Hs.
    destruct (shape_layer_selected cl sl done rest c st st1 tl H1 Hi Hm)
      as (Hi1 & Hc1 & Hs1 & tl1 & Hm1 & Hno1).
    assert (Happ : done ++ c :: rest = (done ++ [c]) ++ rest)
      by (rewrite <- app_assoc; reflexivity).
    assert (Hlen : S (length done) = length (done ++ [c]))
      by (rewrite List.length_app; simpl; lia).
    destruct (IH (done ++ [c]) st1 tl1 Hs Hi1 Hm1) as (Hc' & Hs' & tl' & Hm' & Hno').
    rewrite <- Happ, <- Hlen in Hc', Hs', Hno'. cbn zeta.
    cbn [length]. rewrite !filter_seq_S.
    split; [lia|]. split; [lia|]. exists tl'. split; [assumption|].
    cbn [seq List.filter].
    destruct (name_selected cl (done ++ c :: rest) (length done)) eqn:Ec; [discriminate|].
    destruct (name_selected sl (done ++ c :: rest) (length done)) eqn:Es; [discriminate|].
    intros Hfc Hfs Hno. apply Hno'; auto.
Qed.

Lemma drop_after_last_loss_last (e : entry) (rest : list entry) :
  drop_after_last_loss (e :: rest) = [e]
  \/ exists l, last (drop_after_last_loss (e :: rest)) = Some l /\ entry_is_loss l = true.
Proof.
  revert e. induction rest as [|e' rest IH]; intros e; [left; reflexivity|].
  change (drop_after_last_loss (e :: e' :: rest))
    with (if existsb entry_is_loss (e' :: rest)
          then e :: drop_after_last_loss (e' :: rest) else [e]).
  destruct (existsb entry_is_loss (e' :: rest)) eqn:Hex; [|left; reflexivity].
  right. destruct (IH e') as [Hone|(l & Hl & He)].
  - exists e'. rewrite Hone. split; [reflexivity|].
    cbn [drop_after_last_loss] in Hone.
    destruct (existsb entry_is_loss rest) eqn:Hr.
    { destruct rest as [|r rs]; [discriminate Hr|].
      cbn [drop_after_last_loss] in Hone.
      destruct (existsb entry_is_loss rs); discriminate Hone. }
    simpl in Hex. rewrite Hr, orb_false_r in Hex. assumption.
  - exists l. split; [|assumption].
    destruct (drop_after_last_loss (e' :: rest)) as [|x xs] eqn:Hd; [discriminate Hl|].
    exact Hl.
Qed.

End SelectionFacts.

Section SelectionTheorems.
Context {A P : Type} `{Scalar A} `{Framework A P}.

(** X7: As many content losses and style losses are returned as there are
    children whose name is in the list of content layers and in the list
    of style layers. *)
Theorem one_loss_for_every_selected_child (cnn : Sequential) (mean std si ci : loc)
    (cl sl : list string) (h : heap A P) model sls cls h' :
  Forall (fun e => snd e < length h) cnn ->
  get_style_model_and_losses cnn mean std si ci cl sl h = Ok ((model, sls, cls), h') ->
  length cls = length (selected cl (child_classes h cnn))
  /\ length sls = length (selected sl (child_classes h cnn)).
Proof.
  intros Hv Hg.
  destruct (get_style_model_and_losses_shape _ _ _ _ _ _ _ _ _ _ _ _ Hg Hv)
    as (st & Hsh & _ & Hlc & Hls & _).
  destruct (shape_layers_selected cl sl (child_classes h cnn) [] shape_init st []
              Hsh eq_refl eq_refl) as (Hc & Hs & _).
  simpl in Hc, Hs. unfold selected. split; congruence.
Qed.

(** X8: The returned model begins with the normalisation module, whatever
    the children are named; and when the name of no child is in the
    lists (as when the lists are empty or the network has no child) it is
    the normalisation module alone, with no loss. *)
Theorem model_begins_with_normalization (cnn : Sequential) (mean std si ci : loc)
    (cl sl : list string) (h : heap A P) model sls cls h' :
  Forall (fun e => snd e < length h) cnn ->
  get_style_model_and_losses cnn mean std si ci cl sl h = Ok ((model, sls, cls), h') ->
  (exists rest, describe h' model = ENormalization :: rest)
  /\ (selected cl (child_classes h cnn) = [] ->
      selected sl (child_classes h cnn) = [] ->
      describe h' model = [ENormalization] /\ cls = [] /\ sls = []).
Proof.
  intros Hv Hg.
  destruct (get_style_model_and_losses_shape _ _ _ _ _ _ _ _ _ _ _ _ Hg Hv)
    as (st & Hsh & Hd & Hlc & Hls & _).
  destruct (shape_layers_selected cl sl (child_classes h cnn) [] shape_init st []
              Hsh eq_refl eq_refl) as (Hc & Hs & tl & Hm & Hno).
  rewrite Hd, Hm. cbn [map snd drop_after_last_loss]. split.
  - destruct (existsb entry_is_loss (map snd tl)); eauto.
  - intros Hfc Hfs. unfold selected in Hfc, Hfs. simpl in Hc, Hs, Hno.
    rewrite (Hno Hfc Hfs eq_refl). rewrite Hfc in Hc. rewrite Hfs in Hs.
    split; [reflexivity|].
    split; apply length_zero_iff_nil; simpl in *; congruence.
Qed.

(** X9: Nothing follows the last loss module: the returned model ends with a
    loss module, unless it is the normalisation module alone. *)
Theorem model_ends_with_a_loss (cnn : Sequential) (mean std si ci : loc)
    (cl sl : list string) (h : heap A P) model sls cls h' :
  Forall (fun e => snd e < length h) cnn ->
  get_style_model_and_losses cnn mean std si ci cl sl h = Ok ((model, sls, cls), h') ->
  describe h' model = [ENormalization]
  \/ exists e, last (describe h' model) = Some e /\ entry_is_loss e = true.
Proof.
  intros Hv Hg.
  destruct (get_style_model_and_losses_shape _ _ _ _ _ _ _ _ _ _ _ _ Hg Hv)
    as (st & Hsh & Hd & _).
  destruct (shape_layers_selected cl sl (child_classes h cnn) [] shape_init st []
              Hsh eq_refl eq_refl) as (_ & _ & tl & Hm & _).
  rewrite Hd, Hm. cbn [map snd]. apply drop_after_last_loss_last.
Qed.

End SelectionTheorems.

Section OutOfPlaceFacts.
Context {A P : Type} `{Scalar A} `{Framework A P}.
Implicit Types (h : heap A P) (model : Sequential).
Local Abbreviation Q := no_inplace_relu.

Lemma out_of_place_evolves S h h' (l : loc) :
  evolves S h h' -> Q h l -> Q h' l.
Proof.
  intros Hev [Hl Ho]. pose proof (evolves_length _ _ _ Hev) as Hlen.
  split; [lia|]. intros inpl p Hl'.
  destruct (lookup_lt_is_Some_2 h l Hl) as [o Hlo].
  destruct (evolves_kind _ _ _ _ _ Hev Hlo) as (o' & Hlo' & Hk).
  rewrite Hl' in Hlo'. injection Hlo' as <-.
  destruct o as [c i p0| | | |]; simpl in Hk; try contradiction.
  destruct Hk as [-> ->]. eapply Ho. eassumption.
Qed.

Lemma out_of_place_app h (ext : heap A P) (l : loc) : Q h l -> Q (h ++ ext) l.
Proof.
  intros [Hl Ho]. split; [rewrite List.length_app; lia|].
  intros inpl p Hl'. rewrite lookup_app_l in Hl' by assumption. eapply Ho. eassumption.
Qed.

Lemma out_of_place_new h (o : obj A P) :
  (forall inplace p, o = OLayer ReLU inplace p -> inplace = false) ->
  Q (h ++ [o]) (length h).
Proof.
  intros Ho. split; [rewrite List.length_app; simpl; lia|].
  intros inpl p Hl. rewrite list_lookup_middle in Hl by reflexivity.
  injection Hl as ->. eapply Ho. reflexivity.
Qed.

Lemma scan_layer_out_of_place (ci si : loc) (cl sl : list string) st (layer : loc)
    h st' h' :
  scan_layer ci si cl sl st layer h = Ok (st', h') ->
  Forall (fun e => Q h (snd e)) (st_model st) ->
  Forall (fun e => Q h' (snd e)) (st_model st').
Proof.
  intros Hscan HQ.
  apply scan_layer_Ok in Hscan
    as (o & i & name & layer' & h0 & h1 & model1 & Hl & Hn & Hre & Hc & Hs & _).
  (* the layer *)
  assert (HA : Forall (fun e => Q h0 (snd e)) (add_module name layer' (st_model st))).
  { assert (Hgen : layer' = layer /\ h0 = h -> class_of o <> ReLU ->
                   Forall (fun e => Q h0 (snd e)) (add_module name layer' (st_model st))).
    { intros [-> ->] Hne. apply Forall_add_module; [assumption|].
      split; [eapply lookup_lt_Some; eassumption|].
      intros inpl p Hl'. rewrite Hl in Hl'. injection Hl' as ->. contradiction Hne.
      reflexivity. }
    destruct (class_of o) eqn:Hcls; try (apply Hgen; [assumption|discriminate]).
    destruct Hre as [-> ->]. apply Forall_add_module.
    - eapply Forall_impl; [exact HQ|]. intros e. apply out_of_place_app.
    - apply out_of_place_new. intros inpl p [= <- _]. reflexivity. }
  (* the content loss *)
  assert (HB : Forall (fun e => Q h1 (snd e)) model1).
  { destruct (py_in name cl).
    - destruct Hc as (target & h0' & Hcall & -> & -> & _).
      assert (Hev : evolves (fun _ => True) h0 h0').
      { eapply call_on_evolves; [eassumption|]. apply Forall_forall. auto. }
      apply Forall_add_module.
      + eapply Forall_impl; [exact HA|]. intros e He.
        apply out_of_place_app. eapply out_of_place_evolves; eassumption.
      + apply out_of_place_new. discriminate.
    - destruct Hc as (-> & -> & _). assumption. }
  (* the style loss *)
  destruct (py_in name sl).
  - destruct Hs as (tf & h1' & G & Hcall & _ & -> & -> & _).
    assert (Hev : evolves (fun _ => True) h1 h1').
    { eapply call_on_evolves; [eassumption|]. apply Forall_forall. auto. }
    apply Forall_add_module.
    + eapply Forall_impl; [exact HB|]. intros e He.
      apply out_of_place_app. eapply out_of_place_evolves; eassumption.
    + apply out_of_place_new. discriminate.
  - destruct Hs as (-> & -> & _). assumption.
Qed.

Lemma scan_layers_out_of_place (ci si : loc) (cl sl : list string) (layers : list loc)
    st h st' h' :
  scan_layers ci si cl sl layers st h = Ok (st', h') ->
  Forall (fun e => Q h (snd e)) (st_model st) ->
  Forall (fun e => Q h' (snd e)) (st_model st').
Proof.
  revert st h. induction layers as [|layer rest IH]; intros st h Hscan HQ;
    simpl in Hscan.
  - inv_M. assumption.
  - apply bind_Ok in Hscan as (st1 & h1 & Hstep & Hscan).
    eapply IH; [eassumption|]. eapply scan_layer_out_of_place; eassumption.
Qed.

(** X10: Every ReLU of the returned model is an out-of-place one. *)
Theorem relu_of_the_model_is_out_of_place (cnn : Sequential) (mean std si ci : loc)
    (cl sl : list string) h model sls cls h' :
  get_style_model_and_losses cnn mean std si ci cl sl h = Ok ((model, sls, cls), h') ->
  forall name l inplace p,
    In (name, l) model -> h' !! l = Some (OLayer ReLU inplace p) -> inplace = false.
Proof.
  intros Hg. unfold get_style_model_and_losses in Hg.
  apply bind_Ok in Hg as (cnn' & h1 & Hcopy & Hg).
  apply bind_Ok in Hg as (norm & h2 & Hnorm & Hg).
  apply bind_Ok in Hg as (st & h3 & Hscan & Hg).
  apply bind_Ok in Hg as (model' & h4 & Htrim & Hg).
  apply ret_Ok in Hg as [Heq ->]. injection Heq as -> -> ->.
  unfold trim in Htrim. injection Htrim as <- <-.
  destruct (Normalization_init_Ok _ _ _ _ _ Hnorm) as (m & s & -> & ->).
  assert (HQ : Forall (fun e => Q h3 (snd e)) (st_model st)).
  { eapply scan_layers_out_of_place; [eassumption|]. simpl.
    constructor; [|constructor]. apply out_of_place_new. discriminate. }
  intros name l inpl p Hin Hl.
  assert (Hin' : In (name, l) (st_model st)).
  { apply list_elem_of_In. eapply subseteq_take. apply list_elem_of_In. eassumption. }
  rewrite Forall_forall in HQ. apply list_elem_of_In in Hin'.
  destruct (HQ _ Hin') as [_ Ho]. eapply Ho. eassumption.
Qed.

End OutOfPlaceFacts.

(** ** The closure and the run *)

Section ClosureTheorems.
Context {A P : Type} `{Scalar A} `{Framework A P}.
Local Open Scope M_scope.
Implicit Types (h : heap A P) (x : tensor A).

(** X6: A loss module has no loss before its first forward pass. *)
Theorem loss_attribute_needs_a_forward_pass (target : tensor A) h :
  (let* m := ContentLoss_init target in get_loss m) h
  = Raise (AttributeError "object has no attribute 'loss'")
  /\ (forall G, gram_matrix target = Ok G ->
        (let* m := StyleLoss_init target in get_loss m) h
        = Raise (AttributeError "object has no attribute 'loss'")).
Proof.
  split.
  - unfold ContentLoss_init, bind, alloc, get_loss, bind, read.
    rewrite list_lookup_middle by reflexivity. reflexivity.
  - intros G HG. unfold StyleLoss_init, bind, lift, alloc, get_loss, bind, read.
    rewrite HG. rewrite list_lookup_middle by reflexivity. reflexivity.
Qed.

(** X12: With no loss module at all the objective is the integer 0, which has
    no [backward]: the closure raises AttributeError. *)
Theorem closure_without_losses_raises (model : Sequential) (opt : optimizer)
    (input_img : loc) (sw cw run : Z) h u1 h1 u2 h2 y h3 :
  clamp_ input_img h = Ok (u1, h1) ->
  zero_grad opt h1 = Ok (u2, h2) ->
  call_on model input_img h2 = Ok (y, h3) ->
  closure model [] [] opt input_img sw cw run h
  = Raise (AttributeError "'int' object has no attribute 'backward'").
Proof.
  intros Hc Hz Hf. unfold closure.
  rewrite (bind_Ok_intro _ _ _ _ _ Hc), (bind_Ok_intro _ _ _ _ _ Hz),
    (bind_Ok_intro _ _ _ _ _ Hf).
  reflexivity.
Qed.

Lemma sum_losses_nil_int (z : Z) h (v : pyval A) h' :
  sum_losses [] (PInt z) h = Ok (v, h') -> v = PInt z.
Proof. simpl. intros Hs. inv_M. reflexivity. Qed.

(** X13: The closure returns only if there is a loss module, and at a run
    whose number is a multiple of 50, where it prints both scores, only
    if there is a style loss and a content loss. *)
Theorem closure_needs_losses (model : Sequential) (sls cls : list loc) (opt : optimizer)
    (input_img : loc) (sw cw run : Z) h r h' :
  closure model sls cls opt input_img sw cw run h = Ok (r, h') ->
  (sls <> [] \/ cls <> [])
  /\ (((run + 1) mod 50 = 0)%Z -> sls <> [] /\ cls <> []).
Proof.
  unfold closure. intros Hc.
  apply bind_Ok in Hc as (u1 & h1 & Hclamp & Hc).
  apply bind_Ok in Hc as (u2 & h2 & Hzero & Hc).
  apply bind_Ok in Hc as (y & h3 & Hfw & Hc).
  apply bind_Ok in Hc as (s_score & h4 & Hss & Hc).
  apply bind_Ok in Hc as (c_score & h5 & Hcs & Hc).
  apply bind_Ok in Hc as (loss & h6 & Hadd & Hc).
  apply bind_Ok in Hc as (u3 & h7 & Hbw & Hc).
  apply bind_Ok in Hc as (u4 & h8 & Hitem & Hc).
  apply lift_Ok in Hadd as [Hadd ->].
  split.
  - destruct sls as [|? ?]; [|left; discriminate].
    destruct cls as [|? ?]; [|right; discriminate].
    apply sum_losses_nil_int in Hss, Hcs. subst. simpl in Hadd.
    injection Hadd as <-. discriminate Hbw.
  - intros Hrun. apply Z.eqb_eq in Hrun. rewrite Hrun in Hitem.
    apply bind_Ok in Hitem as (u5 & h9 & Hi1 & Hi2).
    split.
    + intros ->. apply sum_losses_nil_int in Hss. subst. discriminate Hi1.
    + intros ->. apply sum_losses_nil_int in Hcs. subst. discriminate Hi2.
Qed.

End ClosureTheorems.

Section RunTheorems.
Context {A P : Type} `{Scalar A} `{Framework A P}.
Local Open Scope M_scope.
Implicit Types (h : heap A P) (x : tensor A).

Lemma clamp__Ok (x : loc) h u h' :
  clamp_ x h = Ok (u, h') ->
  exists d rg g, h !! x = Some (OTensor d rg g)
                 /\ h' = <[x := OTensor (clamp01 d) rg g]> h.
Proof. unfold clamp_. intros Hc. inv_M. case_M. eauto. Qed.

(** What [run_style_transfer] returns is the input image, its values
    clamped by the last correction. *)
Lemma run_style_transfer_clamped (cnn : Sequential)
    (mean std content_img style_img input_img : loc) (num_steps sw cw : Z) h (r : loc) h' :
  run_style_transfer cnn mean std content_img style_img input_img num_steps sw cw h
  = Ok (r, h') ->
  exists d rg g, h' !! r = Some (OTensor (clamp01 d) rg g).
Proof.
  unfold run_style_transfer, run_style_transfer_with. intros Hrun.
  apply bind_Ok in Hrun as ([[model sls] cls] & h1 & Hg & Hrun).
  cbn beta iota in Hrun.
  apply bind_Ok in Hrun as (opt & h2 & Ho & Hrun).
  apply bind_Ok in Hrun as (u1 & h3 & Hloop & Hrun).
  apply bind_Ok in Hrun as (u2 & h4 & Hclamp & Hrun).
  apply ret_Ok in Hrun as [-> ->].
  apply clamp__Ok in Hclamp as (d & rg & g & Hl & ->).
  exists d, rg, g. apply list_lookup_insert_eq. eapply lookup_lt_Some. eassumption.
Qed.

(** X14: With a negative number of steps the optimizer makes no step: the
    image is the one passed in, marked as requiring a gradient and
    clamped. *)
Theorem negative_num_steps_only_clamps (cnn : Sequential)
    (mean std content_img style_img input_img : loc) (num_steps sw cw : Z) h (r : loc) h'
    (d : tensor A) rg g :
  Forall (fun e => snd e < length h) cnn ->
  (num_steps < 0)%Z ->
  h !! input_img = Some (OTensor d rg g) ->
  run_style_transfer cnn mean std content_img style_img input_img num_steps sw cw h
  = Ok (r, h') ->
  h' !! input_img = Some (OTensor (clamp01 d) true g).
Proof.
  intros Hv Hneg Hin Hrun.
  unfold run_style_transfer, run_style_transfer_with in Hrun.
  apply bind_Ok in Hrun as ([[model sls] cls] & h1 & Hg & Hrun).
  cbn beta iota in Hrun.
  apply bind_Ok in Hrun as (opt & h2 & Ho & Hrun).
  apply bind_Ok in Hrun as (u1 & h3 & Hloop & Hrun).
  apply bind_Ok in Hrun as (u2 & h4 & Hclamp & Hrun).
  apply ret_Ok in Hrun as [-> ->].
  destruct (get_style_model_and_losses_shape _ _ _ _ _ _ _ _ _ _ _ _ Hg Hv)
    as (_ & _ & _ & _ & _ & Hframe & _).
  assert (Hin1 : h1 !! input_img = Some (OTensor d rg g)).
  { rewrite Hframe; [assumption|]. eapply lookup_lt_Some. eassumption. }
  unfold get_input_optimizer, requires_grad_ in Ho.
  apply bind_Ok in Ho as (u & h2' & Hr & Ho). apply ret_Ok in Ho as [-> ->].
  apply bind_Ok in Hr as (o & h_ & Hread & Hw). apply read_Ok in Hread as [Hread ->].
  rewrite Hin1 in Hread. injection Hread as <-.
  apply write_Ok in Hw as [Hlt ->].
  assert (Hh3 : h3 = <[input_img := OTensor d true g]> h1).
  { destruct (Z.to_nat (num_steps + 1)); simpl in Hloop;
      destruct (Z.leb_spec 0 num_steps); try lia; inv_M; reflexivity. }
  subst h3. apply clamp__Ok in Hclamp as (d' & rg' & g' & Hl & ->).
  rewrite list_lookup_insert_eq in Hl by assumption. injection Hl as <- <- <-.
  apply list_lookup_insert_eq. rewrite length_insert. assumption.
Qed.

End RunTheorems.

Section RationalImages.
Context {P : Type} `{Framework Q P}.

Lemma clamp01_range (v : Q) : (0 <= s_clamp01 v <= 1)%Q.
Proof.
  simpl. destruct (Qle_bool v 0) eqn:E0; [split; [apply Qle_refl|discriminate]|].
  destruct (Qle_bool 1 v) eqn:E1; [split; [discriminate|apply Qle_refl]|].
  split.
  - destruct (Qlt_le_dec v 0) as [Hlt|Hle]; [|assumption].
    apply Qlt_le_weak, Qle_bool_iff in Hlt. congruence.
  - destruct (Qlt_le_dec 1 v) as [Hlt|Hle]; [|assumption].
    apply Qlt_le_weak, Qle_bool_iff in Hlt. congruence.
Qed.


End RationalImages.

(** ** The sizes the classifier accepts *)

Section NetSizes.
Local Open Scope res_scope.

Lemma fold_left_mul (l : list nat) (a : nat) : fold_left Nat.mul l a = a * numel l.
Proof.
  revert a. induction l as [|n l IH]; intros a; simpl; [lia|].
  rewrite IH. fold (numel l). lia.
Qed.

Lemma size_view_flatten (b : nat) (rest : list nat) :
  nn_view (b :: rest) (num_flat_features (b :: rest))
  = if 1 <=? numel rest then Ok [b; numel rest]
    else Raise (RuntimeError "shape is invalid for input size").
Proof.
  unfold num_flat_features. cbn [nn_size nn_view Size_NN tail]. rewrite fold_left_mul.
  unfold size_view. cbn [numel fold_right]. fold (numel rest).
  rewrite Nat.mul_1_l.
  destruct (Nat.leb_spec 1 (numel rest)) as [Hn|Hn]; [|reflexivity].
  rewrite Nat.Div0.mod_mul, Nat.div_mul by lia. reflexivity.
Qed.

(** X16: [x.view(-1, self.num_flat_features(x))] keeps the batch dimension and
    flattens the others; it raises when a flattened dimension is 0. *)
Theorem flatten_keeps_the_batch (b : nat) (rest : list nat) :
  (1 <= numel rest ->
   nn_view (b :: rest) (num_flat_features (b :: rest)) = Ok [b; numel rest])
  /\ (numel rest = 0 ->
      exists msg, nn_view (b :: rest) (num_flat_features (b :: rest))
                  = Raise (RuntimeError msg)).
Proof.
  rewrite size_view_flatten. split.
  - intros Hn. destruct (Nat.leb_spec 1 (numel rest)); [reflexivity|lia].
  - intros ->. simpl. eauto.
Qed.

Lemma conv_block_size (cin cout : nat) (mode : bool) (b c h w : nat) (s : list nat) :
  1 <= b ->
  conv_block (NConv2d cin cout 3) (NBatchNorm2d cout) (NMaxPool2d 2 2) mode [b; c; h; w]
  = Ok s
  <-> c = cin /\ 4 <= h /\ 4 <= w /\ s = [b; cout; (h - 4) / 2 + 1; (w - 4) / 2 + 1].
Proof.
  intros Hb. unfold conv_block. cbn [nn_call F_relu Size_NN size_call].
  destruct (Nat.eqb_spec c cin) as [->|Hc]; cbn [andb rbind];
    [|split; [discriminate|intros [? _]; contradiction]].
  destruct (Nat.leb_spec 3 h) as [H3h|H3h]; cbn [andb rbind];
    [|split; [discriminate|lia]].
  destruct (Nat.leb_spec 3 w) as [H3w|H3w]; cbn [andb rbind];
    [|split; [discriminate|lia]].
  change (1 <=? 3) with true. cbn [andb rbind].
  rewrite Nat.eqb_refl. cbn [negb].
  destruct (mode && (b * (h - 3 + 1) * (w - 3 + 1) =? 1)) eqn:Hbn; cbn [rbind].
  - split; [discriminate|]. intros (_ & H4h & H4w & _).
    apply andb_true_iff in Hbn. destruct Hbn as [_ Hbn]. apply Nat.eqb_eq in Hbn. nia.
  - change (1 <=? 2) with true. cbn [andb].
    destruct (Nat.leb_spec 2 (h - 3 + 1)) as [H2h|H2h]; cbn [andb];
      [|split; [discriminate|lia]].
    destruct (Nat.leb_spec 2 (w - 3 + 1)) as [H2w|H2w]; cbn [andb];
      [|split; [discriminate|lia]].
    replace (h - 3 + 1 - 2) with (h - 4) by lia.
    replace (w - 3 + 1 - 2) with (w - 4) by lia.
    split; [intros [= <-]|intros (_ & _ & _ & ->)]; repeat split; lia.
Qed.

Lemma fully_connected_size (mode : bool) (b f : nat) (s : list nat) :
  fully_connected (Net_train mode Net_init) [b; f] = Ok s
  <-> f = 128 /\ (mode = true -> b <> 1) /\ s = [b; 10].
Proof.
  unfold fully_connected.
  cbn [nn_call F_relu F_dropout Size_NN size_call fcn1 bfn1 fcn2 training
       Net_train Net_init].
  change (128 * 1 * 1) with 128.
  destruct (Nat.eqb_spec f 128) as [->|Hf]; cbn [rbind];
    [|split; [discriminate|intros [? _]; contradiction]].
  rewrite Nat.eqb_refl. cbn [negb].
  destruct mode; cbn [andb].
  - destruct (Nat.eqb_spec b 1) as [->|Hb]; cbn [rbind].
    + split; [discriminate|]. intros (_ & Hb & _). contradiction Hb; reflexivity.
    + rewrite Nat.eqb_refl. split; [intros [= <-]|intros (_ & _ & ->)]; auto.
  - cbn [rbind]. rewrite Nat.eqb_refl.
    split; [intros [= <-]|intros (_ & _ & ->)]; auto.
Qed.

Ltac div_facts :=
  repeat match goal with
         | |- context [?a / 2] =>
             lazymatch goal with
             | _ : a = 2 * (a / 2) + a mod 2 |- _ => fail
             | _ => pose proof (Nat.div_mod_eq a 2);
                    pose proof (Nat.mod_upper_bound a 2 ltac:(lia))
             end
         | _ : context [?a / 2] |- _ =>
             lazymatch goal with
             | _ : a = 2 * (a / 2) + a mod 2 |- _ => fail
             | _ => pose proof (Nat.div_mod_eq a 2);
                    pose proof (Nat.mod_upper_bound a 2 ltac:(lia))
             end
         end.

(** X17: The images [Net] accepts: one channel, a height and a width from 22
    to 29 (the three blocks take them to 1 by 1, as the 128 inputs of
    [fcn1] need), and, in training mode, more than one image, for the
    batch normalisation of the 52 features.  The output has 10 values
    per image. *)
Theorem Net_accepts_images_of_22_to_29 (mode : bool) (b c h w : nat) (s : list nat) :
  1 <= b ->
  Net_forward (Net_train mode Net_init) [b; c; h; w] = Ok s
  <-> c = 1 /\ 22 <= h <= 29 /\ 22 <= w <= 29 /\ (mode = true -> 2 <= b)
      /\ s = [b; 10].
Proof.
  intros Hb. rewrite Net_forward_blocks. unfold three_blocks.
  cbn [conv1 b1 pool conv2 b2 conv3 b3 training Net_train Net_init].
  split.
  - intros Hf.
    destruct (conv_block _ _ _ mode [b; c; h; w]) as [s1|] eqn:E1; [|discriminate Hf].
    apply conv_block_size in E1; [|assumption]. destruct E1 as (-> & H1h & H1w & ->).
    cbn [rbind] in Hf.
    destruct (conv_block _ _ _ mode [b; 64; _; _]) as [s2|] eqn:E2; [|discriminate Hf].
    apply conv_block_size in E2; [|assumption]. destruct E2 as (_ & H2h & H2w & ->).
    cbn [rbind] in Hf.
    destruct (conv_block _ _ _ mode [b; 128; _; _]) as [s3|] eqn:E3; [|discriminate Hf].
    apply conv_block_size in E3; [|assumption]. destruct E3 as (_ & H3h & H3w & ->).
    cbn [rbind] in Hf. rewrite size_view_flatten in Hf.
    destruct (1 <=? numel _) eqn:E4; [|discriminate Hf]. cbn [rbind] in Hf.
    apply fully_connected_size in Hf. destruct Hf as (Hn & Hm & ->).
    cbn [numel fold_right] in Hn.
    set (h1 := (h - 4) / 2 + 1) in *. set (w1 := (w - 4) / 2 + 1) in *.
    set (h2 := (h1 - 4) / 2 + 1) in *. set (w2 := (w1 - 4) / 2 + 1) in *.
    set (h3 := (h2 - 4) / 2 + 1) in *. set (w3 := (w2 - 4) / 2 + 1) in *.
    assert (Hhw : h3 = 1 /\ w3 = 1) by nia. destruct Hhw as [Hh3 Hw3].
    unfold h3, w3, h2, w2, h1, w1 in Hh3, Hw3, H2h, H2w, H3h, H3w.
    split; [reflexivity|].
    split; [div_facts; lia|]. split; [div_facts; lia|].
    split; [|reflexivity]. intros Hmode. specialize (Hm Hmode). lia.
  - intros (-> & Hh & Hw & Hm & ->).
    assert (E1 : conv_block (NConv2d 1 64 3) (NBatchNorm2d 64) (NMaxPool2d 2 2) mode
                   [b; 1; h; w] = Ok [b; 64; (h - 4) / 2 + 1; (w - 4) / 2 + 1]).
    { apply conv_block_size; [assumption|]. repeat split; lia. }
    rewrite E1. cbn [rbind].
    set (h1 := (h - 4) / 2 + 1) in *. set (w1 := (w - 4) / 2 + 1) in *.
    assert (Hh1 : 10 <= h1 <= 13) by (unfold h1; div_facts; lia).
    assert (Hw1 : 10 <= w1 <= 13) by (unfold w1; div_facts; lia).
    assert (E2 : conv_block (NConv2d 64 128 3) (NBatchNorm2d 128) (NMaxPool2d 2 2) mode
                   [b; 64; h1; w1] = Ok [b; 128; (h1 - 4) / 2 + 1; (w1 - 4) / 2 + 1]).
    { apply conv_block_size; [assumption|]. repeat split; lia. }
    rewrite E2. cbn [rbind].
    set (h2 := (h1 - 4) / 2 + 1) in *. set (w2 := (w1 - 4) / 2 + 1) in *.
    assert (Hh2 : 4 <= h2 <= 5) by (unfold h2; div_facts; lia).
    assert (Hw2 : 4 <= w2 <= 5) by (unfold w2; div_facts; lia).
    assert (E3 : conv_block (NConv2d 128 128 3) (NBatchNorm2d 128) (NMaxPool2d 2 2) mode
                   [b; 128; h2; w2] = Ok [b; 128; (h2 - 4) / 2 + 1; (w2 - 4) / 2 + 1]).
    { apply conv_block_size; [assumption|]. repeat split; lia. }
    rewrite E3. cbn [rbind].
    assert (Hh3 : (h2 - 4) / 2 + 1 = 1) by (div_facts; lia).
    assert (Hw3 : (w2 - 4) / 2 + 1 = 1) by (div_facts; lia).
    rewrite Hh3, Hw3, size_view_flatten.
    change (numel [128; 1; 1]) with 128. change (1 <=? 128) with true. cbn [rbind].
    apply fully_connected_size. repeat split. intros Hmode. specialize (Hm Hmode). lia.
Qed.

End NetSizes.

(** ** The rebuilt model runs *)

Section AcceptedImages.
Context {A P : Type} `{Scalar A} `{Framework A P}.



End AcceptedImages.

(** ** The closure returns *)

Section ClosureReturns.
Context {A P : Type} `{Scalar A} `{Framework A P}.
Local Open Scope M_scope.
Implicit Types (h : heap A P) (x : tensor A) (model : Sequential).

Lemma py_add_scalar (a : pyval A) (l : tensor A) :
  scalar_score a -> is_scalar l ->
  exists t, py_add a (PTensor l) = Ok (PTensor t) /\ is_scalar t.
Proof.
  intros Ha [Hs Hd]. destruct a as [z|x]; simpl.
  - eexists. split; [reflexivity|]. split; simpl; [assumption|].
    rewrite List.length_map. assumption.
  - destruct Ha as [Hxs Hxd]. unfold broadcast_binop. rewrite Hxs, Hs. simpl.
    eexists. split; [reflexivity|]. split; reflexivity.
Qed.

Lemma sum_losses_total (ms : list loc) (score : pyval A) h :
  Forall (fun m => exists l, get_loss m h = Ok (l, h) /\ is_scalar l) ms ->
  scalar_score score ->
  exists v, sum_losses ms score h = Ok (v, h)
            /\ scalar_score v
            /\ (ms <> [] -> tensor_score v).
Proof.
  intros Hms. revert score. induction Hms as [|m ms (l & Hg & Hl) _ IH]; intros score Hs.
  - exists score. split; [reflexivity|]. split; [assumption|congruence].
  - destruct (py_add_scalar score l Hs Hl) as (t & Hadd & Ht).
    destruct (IH (PTensor t) Ht) as (v & Hsum & Hv & Hne).
    exists v. split; [|split; [assumption|]].
    + simpl. rewrite (bind_Ok_intro _ _ _ _ _ Hg). unfold bind at 1, lift. rewrite Hadd.
      exact Hsum.
    + intros _. destruct ms as [|m' ms']; [|apply Hne; discriminate].
      simpl in Hsum. injection Hsum as <-. exact Ht.
Qed.

Lemma py_mul_int_score (v : pyval A) (w : Z) :
  (scalar_score v -> scalar_score (py_mul_int v w))
  /\ (tensor_score v -> tensor_score (py_mul_int v w)).
Proof.
  destruct v as [z|t]; simpl; [tauto|].
  split; intros [Hs Hd]; (split; simpl; [assumption|rewrite List.length_map; assumption]).
Qed.

Lemma py_add_tensor_score (a b : pyval A) :
  tensor_score a -> tensor_score b ->
  exists t, py_add a b = Ok (PTensor t) /\ is_scalar t.
Proof.
  destruct a as [z|x]; [contradiction|]. destruct b as [z|y]; [contradiction|].
  intros Hx Hy. apply (py_add_scalar (PTensor x) y); assumption.
Qed.

Lemma read_all_total (ls : list loc) h :
  Forall (fun l => l < length h) ls -> exists os, read_all ls h = Ok (os, h).
Proof.
  induction 1 as [|l ls Hl _ (os & IH)]; simpl; [unfold ret; eauto|].
  destruct (lookup_lt_is_Some_2 h l Hl) as [o Ho].
  rewrite (bind_Ok_intro _ _ _ _ _ (read_Some _ _ _ Ho)).
  rewrite (bind_Ok_intro _ _ _ _ _ IH). unfold ret. eauto.
Qed.

Lemma accumulate_params_total (objs : list (obj A P)) x (ls : list loc) h :
  Forall (fun l => l < length h) ls ->
  exists h', accumulate_params objs x ls h = Ok (tt, h') /\ length h' = length h.
Proof.
  revert h. induction ls as [|l ls IH]; intros h Hv; simpl; [unfold ret; eauto|].
  apply Forall_cons in Hv. destruct Hv as [Hl Hls].
  destruct (lookup_lt_is_Some_2 h l Hl) as [o Ho].
  rewrite (bind_Ok_intro _ _ _ _ _ (read_Some _ _ _ Ho)).
  assert (Hstep : exists h1,
             (match o with
              | OLayer c inplace p => write l (OLayer c inplace (autograd_params objs x c p))
              | _ => ret tt
              end) h = Ok (tt, h1) /\ length h1 = length h).
  { destruct o; try (exists h; split; reflexivity).
    eexists. split; [apply write_lt; assumption|]. apply length_insert. }
  destruct Hstep as (h1 & Hstep & Hlen).
  rewrite (bind_Ok_intro _ _ _ _ _ Hstep).
  destruct (IH h1) as (h' & Hacc & Hlen'); [rewrite Hlen; assumption|].
  exists h'. split; [assumption|congruence].
Qed.

Lemma backward_total model (input_img : loc) (loss : pyval A) h x rg g :
  tensor_score loss ->
  Forall (fun e => snd e < length h) model ->
  h !! input_img = Some (OTensor x rg g) ->
  exists h', backward model input_img loss h = Ok (tt, h').
Proof.
  intros Hloss Hv Hin. destruct loss as [z|l]; [contradiction|].
  destruct Hloss as [Hs _]. unfold backward. rewrite Hs. simpl.
  assert (Hv' : Forall (fun l => l < length h) (map snd model))
    by (apply Forall_map; assumption).
  destruct (read_all_total _ h Hv') as (objs & Hr).
  rewrite (bind_Ok_intro _ _ _ _ _ Hr).
  rewrite (bind_Ok_intro _ _ _ _ _ (read_Some _ _ _ Hin)).
  assert (Hw : exists h1,
             (if rg then write input_img (OTensor x rg (Some (autograd_input objs x g)))
              else ret tt) h = Ok (tt, h1) /\ length h1 = length h).
  { destruct rg; [|exists h; split; reflexivity].
    eexists. split; [apply write_lt; eapply lookup_lt_Some; eassumption|].
    apply length_insert. }
  destruct Hw as (h1 & Hw & Hlen).
  rewrite (bind_Ok_intro _ _ _ _ _ Hw).
  destruct (accumulate_params_total objs x (map snd model) h1) as (h' & Hacc & _);
    [rewrite Hlen; assumption|eauto].
Qed.

Lemma item_total (v : pyval A) h : tensor_score v -> item v h = Ok (tt, h).
Proof.
  destruct v as [z|t]; [contradiction|]. intros [_ Hd]. simpl. rewrite Hd. reflexivity.
Qed.

Lemma shape_le_write_tensor (out_size : module_class -> P -> list nat -> list nat)
    h (l : loc) (d d' : tensor A) rg g rg' g' :
  h !! l = Some (OTensor d rg g) -> t_size d' = t_size d ->
  shape_le out_size h (<[l := OTensor d' rg' g']> h).
Proof.
  intros Hl Hs. eapply shape_le_insert; [eassumption|]. simpl. congruence.
Qed.

(** The closure returns when the model takes the image, every loss
    module of the lists is in the model, and both lists have a loss. *)
Lemma closure_total (out_size : module_class -> P -> list nat -> list nat)
    model (sls cls : list loc) (opt : optimizer) (input_img : loc) (sw cw run : Z)
    h (s0 : list nat) x rg g :
  h !! input_img = Some (OTensor x rg g) ->
  t_size x = s0 ->
  opt_params opt = [input_img] ->
  (forall h2, shape_le out_size h h2 -> accepts model s0 h2) ->
  Forall (holds_loss model h) (cls ++ sls) ->
  Forall (fun e => snd e < length h) model ->
  sls <> [] -> cls <> [] ->
  exists v h', closure model sls cls opt input_img sw cw run h = Ok ((v, (run + 1)%Z), h').
Proof.
  intros Hin Hx Hopt Hacc Hloss Hv Hsls Hcls.
  (* clamp_ *)
  set (h1 := <[input_img := OTensor (clamp01 x) rg g]> h).
  assert (Hlt : input_img < length h) by (eapply lookup_lt_Some; eassumption).
  assert (Hclamp : clamp_ input_img h = Ok (tt, h1)).
  { unfold clamp_. rewrite (bind_Ok_intro _ _ _ _ _ (read_Some _ _ _ Hin)).
    apply write_lt. assumption. }
  assert (Hin1 : h1 !! input_img = Some (OTensor (clamp01 x) rg g))
    by (apply list_lookup_insert_eq; assumption).
  assert (Hle1 : shape_le out_size h h1)
    by (eapply shape_le_write_tensor; [eassumption|reflexivity]).
  (* zero_grad *)
  assert (Hzero : exists h2 g2,
             zero_grad opt h1 = Ok (tt, h2)
             /\ h2 !! input_img = Some (OTensor (clamp01 x) rg g2)
             /\ shape_le out_size h1 h2 /\ length h2 = length h1).
  { unfold zero_grad. rewrite Hopt. simpl.
    rewrite (bind_Ok_intro _ _ _ _ _ (read_Some _ _ _ Hin1)).
    destruct g as [g0|].
    - assert (Hlt1 : input_img < length h1)
        by (unfold h1; rewrite length_insert; exact Hlt).
      exists (<[input_img := OTensor (clamp01 x) rg (Some (zeros_like g0))]> h1),
        (Some (zeros_like g0)).
      split; [|split; [|split]].
      + rewrite (bind_Ok_intro _ _ _ _ _ (write_lt _ _ _ Hlt1)). reflexivity.
      + apply list_lookup_insert_eq. unfold h1. rewrite length_insert. assumption.
      + eapply shape_le_write_tensor; [eassumption|reflexivity].
      + apply length_insert.
    - exists h1, None. split; [reflexivity|]. split; [assumption|].
      split; [apply shape_le_refl|reflexivity]. }
  destruct Hzero as (h2 & g2 & Hzero & Hin2 & Hle2 & Hlen2).
  assert (Hle02 : shape_le out_size h h2) by (eapply shape_le_trans; eassumption).
  (* the forward pass *)
  destruct (Hacc h2 Hle02 (clamp01 x) Hx) as (y & h3 & Hfw).
  assert (Hcall : call_on model input_img h2 = Ok (y, h3)).
  { unfold call_on, read_tensor, bind, read. rewrite Hin2. exact Hfw. }
  assert (Hlen3 : length h3 = length h)
    by (rewrite (Sequential_forward_length _ _ _ _ _ Hfw), Hlen2; apply length_insert).
  assert (Hrec : forall m, In m (cls ++ sls) ->
                   exists l, get_loss m h3 = Ok (l, h3) /\ is_scalar l).
  { intros m Hm. eapply forward_records_scalar; [eassumption|].
    eapply holds_loss_shape_le; [exact Hle02|].
    rewrite Forall_forall in Hloss. apply Hloss, list_elem_of_In. assumption. }
  (* the scores *)
  destruct (sum_losses_total sls (PInt 0) h3) as (ss & Hss & _ & Hst); [|exact I|].
  { apply Forall_forall. intros m Hm. apply Hrec, in_or_app. right.
    apply list_elem_of_In. assumption. }
  destruct (sum_losses_total cls (PInt 0) h3) as (cs & Hcs & _ & Hct); [|exact I|].
  { apply Forall_forall. intros m Hm. apply Hrec, in_or_app. left.
    apply list_elem_of_In. assumption. }
  specialize (Hst Hsls). specialize (Hct Hcls).
  pose proof (proj2 (py_mul_int_score ss sw) Hst) as Hst'.
  pose proof (proj2 (py_mul_int_score cs cw) Hct) as Hct'.
  destruct (py_add_tensor_score _ _ Hst' Hct') as (t & Hadd & Ht).
  (* backward *)
  assert (Hin3 : exists x3 rg3 g3, h3 !! input_img = Some (OTensor x3 rg3 g3)).
  { assert (Hev : evolves (fun _ => True) h2 h3).
    { eapply Sequential_forward_evolves; [eassumption|]. apply Forall_forall. auto. }
    destruct (evolves_kind _ _ _ _ _ Hev Hin2) as (o' & Ho' & Hk).
    destruct o'; simpl in Hk; try contradiction. eauto. }
  destruct Hin3 as (x3 & rg3 & g3 & Hin3).
  destruct (backward_total model input_img (PTensor t) h3 x3 rg3 g3 Ht) as (h4 & Hbw);
    [rewrite Hlen3; assumption|assumption|].
  (* the print *)
  assert (Hprint : (if ((run + 1) mod 50 =? 0)%Z
                    then item (py_mul_int ss sw) ;; item (py_mul_int cs cw)
                    else ret tt) h4 = Ok (tt, h4)).
  { destruct ((run + 1) mod 50 =? 0)%Z; [|reflexivity].
    rewrite (bind_Ok_intro _ _ _ _ _ (item_total _ h4 Hst')).
    apply item_total. assumption. }
  exists (PTensor t), h4. unfold closure.
  rewrite (bind_Ok_intro _ _ _ _ _ Hclamp), (bind_Ok_intro _ _ _ _ _ Hzero),
    (bind_Ok_intro _ _ _ _ _ Hcall), (bind_Ok_intro _ _ _ _ _ Hss),
    (bind_Ok_intro _ _ _ _ _ Hcs).
  cbn zeta. unfold bind at 1, lift at 1. rewrite Hadd.
  rewrite (bind_Ok_intro _ _ _ _ _ Hbw), (bind_Ok_intro _ _ _ _ _ Hprint).
  reflexivity.
Qed.

End ClosureReturns.

Section FirstEvaluation.
Context {A P : Type} `{Scalar A} `{Framework A P}.


End FirstEvaluation.

(** ** The further properties on concrete inputs *)

Lemma toy_network_valid (cs : list module_class) :
  Forall (fun e : string * loc => snd e < length (Toy.store_of cs)) (Toy.network_of cs).
Proof.
  apply Forall_forall. intros e He. apply list_elem_of_In, in_map_iff in He.
  destruct He as (k & <- & Hk). apply in_seq in Hk.
  unfold Toy.store_of. rewrite List.length_app, List.length_map. simpl. lia.
Qed.

Lemma Normalization_normalizes_channels_witness :
  exists y h',
    bind (Normalization_init 0 1) (fun norm => call_module norm (Tensor [1; 3; 1; 1] [1; 2; 3]%Q))
      Toy.vgg19_store = Ok (y, h')
    /\ t_size y = [1; 3; 1; 1]
    /\ get4 y 0 1 0 0 = ((2 - (1 # 2)) / (1 # 4))%Q.
Proof.
  edestruct (Normalization_normalizes_channels 0 1
               (Tensor [3] [1 # 2; 1 # 2; 1 # 2]%Q) (Tensor [3] [1 # 4; 1 # 4; 1 # 4]%Q)
               (Tensor [1; 3; 1; 1] [1; 2; 3]%Q)
               false None false None Toy.vgg19_store 1 3 1 1) as (y & Hy & Hs & Hv);
    [reflexivity|reflexivity|reflexivity|reflexivity|reflexivity|].
  exists y. eexists. split; [exact Hy|]. split; [exact Hs|].
  apply (Hv 0 1 0 0); lia.
Defined.


Lemma gram_matrix_symmetric_witness :
  exists G,
    gram_matrix (Tensor [1; 2; 1; 2] [1; 2; 3; 4]%Q) = Ok G
    /\ get2 G 0 1 = get2 G 1 0.
Proof.
  eexists. split; [vm_compute; reflexivity|].
  apply (gram_matrix_symmetric (Tensor [1; 2; 1; 2] [1; 2; 3; 4]%Q) _ 1 2 1 2 0 1).
  - intros [a b] [c d]. simpl. unfold Qmult. simpl. f_equal; [apply Z.mul_comm|apply Pos.mul_comm].
  - reflexivity.
  - vm_compute. reflexivity.
  - simpl. lia.
  - simpl. lia.
Defined.

Lemma ContentLoss_records_mean_squared_difference_witness :
  ContentLoss_forward 0 Toy.activation Toy.loss_store
  = Ok (Toy.activation,
        <[0 := OContentLoss (Tensor [1; 1; 1; 2] [1; 2]%Q)
                 (Some (mean_squared_difference Toy.activation
                          (Tensor [1; 1; 1; 2] [1; 2]%Q)))]> Toy.loss_store).
Proof.
  apply (ContentLoss_records_mean_squared_difference 0 Toy.activation _ None Toy.loss_store).
  - reflexivity.
  - reflexivity.
Defined.


Lemma one_loss_for_every_selected_child_witness :
  exists model sls cls h',
    get_style_model_and_losses Toy.vgg19 0 1 3 2
      content_layers_default style_layers_default Toy.vgg19_store
    = Ok ((model, sls, cls), h')
    /\ length cls = length (selected content_layers_default
                              (child_classes Toy.vgg19_store Toy.vgg19))
    /\ length sls = length (selected style_layers_default
                              (child_classes Toy.vgg19_store Toy.vgg19)).
Proof.
  eexists _, _, _, _. split; [vm_compute; reflexivity|].
  eapply (one_loss_for_every_selected_child Toy.vgg19 0 1 3 2
            content_layers_default style_layers_default Toy.vgg19_store).
  - apply toy_network_valid.
  - vm_compute. reflexivity.
Defined.

Lemma model_begins_with_normalization_witness :
  exists model sls cls h',
    get_style_model_and_losses Toy.vgg19 0 1 3 2 [] [] Toy.vgg19_store
    = Ok ((model, sls, cls), h')
    /\ describe h' model = [ENormalization] /\ cls = [] /\ sls = [].
Proof.
  eexists _, _, _, _. split; [vm_compute; reflexivity|].
  edestruct (model_begins_with_normalization Toy.vgg19 0 1 3 2 [] [] Toy.vgg19_store)
    as [_ Hno].
  - apply toy_network_valid.
  - vm_compute. reflexivity.
  - apply Hno; vm_compute; reflexivity.
Defined.

Lemma model_ends_with_a_loss_witness :
  exists model sls cls h',
    get_style_model_and_losses Toy.vgg19 0 1 3 2
      content_layers_default style_layers_default Toy.vgg19_store
    = Ok ((model, sls, cls), h')
    /\ (describe h' model = [ENormalization]
        \/ exists e, last (describe h' model) = Some e /\ entry_is_loss e = true).
Proof.
  eexists _, _, _, _. split; [vm_compute; reflexivity|].
  eapply (model_ends_with_a_loss Toy.vgg19 0 1 3 2
            content_layers_default style_layers_default Toy.vgg19_store).
  - apply toy_network_valid.
  - vm_compute. reflexivity.
Defined.

Lemma relu_of_the_model_is_out_of_place_witness :
  exists model sls cls h',
    get_style_model_and_losses Toy.vgg19 0 1 3 2
      content_layers_default style_layers_default Toy.vgg19_store
    = Ok ((model, sls, cls), h')
    /\ In ("relu_1", 81) model
    /\ Toy.vgg19_store !! 6 = Some (OLayer ReLU true 7)
    /\ forall inplace p, h' !! 81 = Some (OLayer ReLU inplace p) -> inplace = false.
Proof.
  eexists _, _, _, _. split; [vm_compute; reflexivity|].
  split; [vm_compute; tauto|]. split; [reflexivity|].
  intros inplace p Hl.
  eapply (relu_of_the_model_is_out_of_place Toy.vgg19 0 1 3 2
            content_layers_default style_layers_default Toy.vgg19_store).
  - vm_compute. reflexivity.
  - instantiate (1 := 81). instantiate (1 := "relu_1"). vm_compute. tauto.
  - exact Hl.
Defined.

Lemma loss_attribute_needs_a_forward_pass_witness :
  bind (ContentLoss_init Toy.activation) get_loss Toy.loss_store
  = Raise (AttributeError "object has no attribute 'loss'")
  /\ bind (StyleLoss_init Toy.activation) get_loss Toy.loss_store
     = Raise (AttributeError "object has no attribute 'loss'").
Proof.
  destruct (loss_attribute_needs_a_forward_pass Toy.activation Toy.loss_store)
    as [Hc Hs].
  split; [exact Hc|]. eapply Hs. vm_compute. reflexivity.
Defined.

Lemma closure_without_losses_raises_witness :
  closure [("0", 0)] [] [] (Optimizer [2] lbfgs_init) 2 1000000 1 0
    [ONormalization (Tensor [3; 1; 1] [1 # 2; 1 # 2; 1 # 2]%Q)
       (Tensor [3; 1; 1] [1 # 4; 1 # 4; 1 # 4]%Q);
     Toy.vector 0 0 0; Toy.image 1 2 3]
  = Raise (AttributeError "'int' object has no attribute 'backward'").
Proof.
  eapply (closure_without_losses_raises [("0", 0)] (Optimizer [2] lbfgs_init) 2
            1000000 1 0
            [ONormalization (Tensor [3; 1; 1] [1 # 2; 1 # 2; 1 # 2]%Q)
               (Tensor [3; 1; 1] [1 # 4; 1 # 4; 1 # 4]%Q);
             Toy.vector 0 0 0; Toy.image 1 2 3]);
    vm_compute; reflexivity.
Defined.

Lemma closure_needs_losses_witness :
  exists model sls cls h1 opt h2 r h',
    get_style_model_and_losses Toy.vgg19 0 1 3 2
      content_layers_default style_layers_default Toy.vgg19_store
    = Ok ((model, sls, cls), h1)
    /\ get_input_optimizer 4 h1 = Ok (opt, h2)
    /\ closure model sls cls opt 4 1000000 1 49 h2 = Ok (r, h')
    /\ sls <> [] /\ cls <> [].
Proof.
  eexists _, _, _, _, _, _, _, _.
  split; [vm_compute; reflexivity|].
  split; [vm_compute; reflexivity|].
  match goal with
  | |- ?E /\ _ => assert (Hc : E) by (vm_compute; reflexivity)
  end.
  split; [exact Hc|].
  apply (proj2 (closure_needs_losses _ _ _ _ _ _ _ _ _ _ _ Hc)). reflexivity.
Defined.

Lemma negative_num_steps_only_clamps_witness :
  exists r h',
    run_style_transfer Toy.vgg19 0 1 2 3 4 (-1) 1000000 1 Toy.vgg19_store = Ok (r, h')
    /\ h' !! 4 = Some (OTensor (clamp01 (Tensor [1; 3; 1; 1] [1; 2; 3]%Q)) true None).
Proof.
  eexists _, _. split; [vm_compute; reflexivity|].
  eapply (negative_num_steps_only_clamps Toy.vgg19 0 1 2 3 4 (-1) 1000000 1
            Toy.vgg19_store).
  - apply toy_network_valid.
  - lia.
  - reflexivity.
  - vm_compute. reflexivity.
Defined.


Lemma flatten_keeps_the_batch_witness :
  nn_view [16; 128; 1; 1] (num_flat_features [16; 128; 1; 1]) = Ok [16; numel [128; 1; 1]]
  /\ exists msg, nn_view [16; 128; 0; 1] (num_flat_features [16; 128; 0; 1])
                 = Raise (RuntimeError msg).
Proof.
  split.
  - apply (proj1 (flatten_keeps_the_batch 16 [128; 1; 1])). vm_compute. lia.
  - apply (proj2 (flatten_keeps_the_batch 16 [128; 0; 1])). reflexivity.
Defined.

Lemma Net_accepts_images_of_22_to_29_witness :
  Net_forward (Net_train false Net_init) [1; 1; 28; 28] = Ok [1; 10]
  /\ Net_forward (Net_train true Net_init) [1; 1; 28; 28] <> Ok [1; 10].
Proof.
  split.
  - apply (Net_accepts_images_of_22_to_29 false 1 1 28 28 [1; 10]); [lia|].
    repeat split; first [lia|discriminate].
  - intros Hf. apply (Net_accepts_images_of_22_to_29 true 1 1 28 28 [1; 10]) in Hf; [|lia].
    destruct Hf as (_ & _ & _ & Hb & _). specialize (Hb eq_refl). lia.
Defined.



